(** * Soft Actor-Critic optimizer (mlagents/trainers/sac/optimizer_torch.py)

    A shallow embedding of [TorchSACOptimizer]: its loss functions, the
    Polyak update of the target network, the construction of the target
    entropy, the discrete Q-condensing helper and the [update] step.

    Tensor entries are real numbers: rounding, overflow and the IEEE
    special values are outside the model.  Tensors have rank at most two
    and follow torch's broadcasting rule; a shape mismatch raises
    [RuntimeError] as torch does.  Each tensor carries the autograd flag
    [requires_grad], so that [torch.no_grad()] blocks are visible. *)

From Stdlib Require Import Reals Lra Lia ZArith String DecimalString Bool Arith List.
Import ListNotations.
Local Open Scope string_scope.
Local Open Scope list_scope.
Local Open Scope R_scope.

(** ** Exceptions and the error monad *)

Inductive exn : Type :=
| KeyError (key : string)
| IndexError
| ValueError
| TypeError
| RuntimeError
| UnityTrainerException (msg : string).

Inductive result (A : Type) : Type :=
| Ok (a : A)
| Raise (e : exn).
Arguments Ok {A} a.
Arguments Raise {A} e.

Definition bind {A B : Type} (m : result A) (k : A -> result B) : result B :=
  match m with
  | Ok a => k a
  | Raise e => Raise e
  end.

Declare Scope result_scope.
Delimit Scope result_scope with result.
Notation "x <- m ;; k" := (bind m (fun x => k))
  (at level 61, m at next level, right associativity) : result_scope.
Notation "' pat <- m ;; k" := (bind m (fun x => match x with pat => k end))
  (at level 61, pat pattern, m at next level, right associativity) : result_scope.
Local Open Scope result_scope.

Fixpoint mapM {A B : Type} (f : A -> result B) (l : list A) : result (list B) :=
  match l with
  | [] => Ok []
  | a :: l' => b <- f a ;; bs <- mapM f l' ;; Ok (b :: bs)
  end.

(** ** Python containers *)

(** A [dict] keeps insertion order; keys are unique in a dict built by
    Python, which the theorems state as [NoDup (keys d)]. *)
Definition dict (V : Type) : Type := list (string * V).

Definition keys {V : Type} (d : dict V) : list string := map fst d.
Definition values {V : Type} (d : dict V) : list V := map snd d.

Fixpoint dict_get {V : Type} (k : string) (d : dict V) : result V :=
  match d with
  | [] => Raise (KeyError k)
  | (k', v) :: d' => if String.eqb k k' then Ok v else dict_get k d'
  end.

(** [d[k] = v]: replaces in place when the key exists, appends otherwise. *)
Fixpoint dict_set {V : Type} (k : string) (v : V) (d : dict V) : dict V :=
  match d with
  | [] => [(k, v)]
  | (k', v') :: d' =>
      if String.eqb k k' then (k, v) :: d' else (k', v') :: dict_set k v d'
  end.

Definition list_get {A : Type} (i : nat) (l : list A) : result A :=
  match nth_error l i with
  | Some a => Ok a
  | None => Raise IndexError
  end.

Fixpoint enumerate_from {A : Type} (i : nat) (l : list A) : list (nat * A) :=
  match l with
  | [] => []
  | a :: l' => (i, a) :: enumerate_from (S i) l'
  end.

Definition enumerate {A : Type} (l : list A) : list (nat * A) :=
  enumerate_from 0 l.

(** [zip] stops at the shorter argument. *)
Fixpoint zip {A B : Type} (l1 : list A) (l2 : list B) : list (A * B) :=
  match l1, l2 with
  | a :: l1', b :: l2' => (a, b) :: zip l1' l2'
  | _, _ => []
  end.

(** ** Tensors of rank at most two *)

Inductive tval : Type :=
| T0 (x : R)                    (* shape []      *)
| T1 (v : list R)               (* shape [n]     *)
| T2 (m : list (list R)).       (* shape [n, k], a list of rows *)

Record tensor : Type := mkT { data : tval; requires_grad : bool }.

Definition rank (d : tval) : nat :=
  match d with T0 _ => 0 | T1 _ => 1 | T2 _ => 2 end.

(** Every tensor seen as a matrix: missing leading dimensions have size 1. *)
Definition rows_of (d : tval) : list (list R) :=
  match d with
  | T0 x => [[x]]
  | T1 v => [v]
  | T2 m => m
  end.

Definition of_rows (r : nat) (m : list (list R)) : tval :=
  match r with
  | O => T0 (hd 0 (hd [] m))
  | S O => T1 (hd [] m)
  | _ => T2 m
  end.

Definition elems (d : tval) : list R := concat (rows_of d).
Definition numel (d : tval) : nat := length (elems d).

Definition Rsum (l : list R) : R := fold_right Rplus 0 l.

Definition map_tval (f : R -> R) (d : tval) : tval :=
  match d with
  | T0 x => T0 (f x)
  | T1 v => T1 (map f v)
  | T2 m => T2 (map (map f) m)
  end.

(** Broadcasting along one dimension: sizes must agree unless one is 1. *)
Definition bsize (n m : nat) : nat := if Nat.eqb n 1 then m else n.

Definition expand {A : Type} (n : nat) (l : list A) : result (list A) :=
  if Nat.eqb (length l) n then Ok l
  else match l with
       | [x] => Ok (repeat x n)
       | _ => Raise RuntimeError
       end.

Fixpoint map2 {A B C : Type} (f : A -> B -> C) (l1 : list A) (l2 : list B)
  : list C :=
  match l1, l2 with
  | a :: l1', b :: l2' => f a b :: map2 f l1' l2'
  | _, _ => []
  end.

Definition bcast_vec (f : R -> R -> R) (u v : list R) : result (list R) :=
  let n := bsize (length u) (length v) in
  u' <- expand n u ;;
  v' <- expand n v ;;
  Ok (map2 f u' v').

Definition bcast_rows (f : R -> R -> R) (a b : list (list R))
  : result (list (list R)) :=
  let n := bsize (length a) (length b) in
  a' <- expand n a ;;
  b' <- expand n b ;;
  mapM (fun p => bcast_vec f (fst p) (snd p)) (zip a' b').

(** An elementwise binary operation, [a op b] in torch. *)
Definition bcast2 (f : R -> R -> R) (a b : tval) : result tval :=
  m <- bcast_rows f (rows_of a) (rows_of b) ;;
  Ok (of_rows (Nat.max (rank a) (rank b)) m).

(** [torch.mean(t)]: the mean of all entries, a 0-dim tensor. *)
Definition mean_all (d : tval) : R :=
  Rsum (elems d) / IZR (Z.of_nat (numel d)).

(** [torch.sum(t, dim=1, keepdim=True)] and [torch.sum(t, dim=1)]. *)
Definition sum_dim1_keepdim (d : tval) : result tval :=
  match d with
  | T2 m => Ok (T2 (map (fun r => [Rsum r]) m))
  | _ => Raise IndexError
  end.

Definition sum_dim1 (d : tval) : result tval :=
  match d with
  | T2 m => Ok (T1 (map Rsum m))
  | _ => Raise IndexError
  end.

(** [torch.mean(t, dim=1)]. *)
Definition mean_dim1 (d : tval) : result tval :=
  match d with
  | T2 m => Ok (T1 (map (fun r => Rsum r / IZR (Z.of_nat (length r))) m))
  | _ => Raise IndexError
  end.

Definition is_column (m : list (list R)) : bool :=
  forallb (fun r => Nat.eqb (length r) 1) m.

(** [t.squeeze()]: drops every dimension of size 1. *)
Definition squeeze (d : tval) : tval :=
  match d with
  | T0 x => T0 x
  | T1 [x] => T0 x
  | T1 v => T1 v
  | T2 [[x]] => T0 x
  | T2 [r] => T1 r
  | T2 m => if is_column m then T1 (concat m) else T2 m
  end.

(** [t.unsqueeze(1)] on a vector: shape [n] becomes [n, 1]. *)
Definition unsqueeze1 (d : tval) : result tval :=
  match d with
  | T1 v => Ok (T2 (map (fun x => [x]) v))
  | _ => Raise IndexError
  end.

(** [torch.stack(ts)] of 0-dim or 1-dim tensors of one shape. *)
Fixpoint scalars_of (ts : list tval) : result (list R) :=
  match ts with
  | [] => Ok []
  | T0 x :: ts' => xs <- scalars_of ts' ;; Ok (x :: xs)
  | _ :: _ => Raise RuntimeError
  end.

Fixpoint vectors_of (n : nat) (ts : list tval) : result (list (list R)) :=
  match ts with
  | [] => Ok []
  | T1 v :: ts' =>
      if Nat.eqb (length v) n
      then vs <- vectors_of n ts' ;; Ok (v :: vs)
      else Raise RuntimeError
  | _ :: _ => Raise RuntimeError
  end.

Definition stack (ts : list tval) : result tval :=
  match ts with
  | [] => Raise RuntimeError
  | T0 _ :: _ => xs <- scalars_of ts ;; Ok (T1 xs)
  | T1 v :: _ => vs <- vectors_of (length v) ts ;; Ok (T2 vs)
  | T2 _ :: _ => Raise RuntimeError
  end.

(** ** Tensor operations with the autograd flag *)

Definition const (x : R) : tensor := mkT (T0 x) false.

Definition lift1 (f : R -> R) (a : tensor) : tensor :=
  mkT (map_tval f (data a)) (requires_grad a).

Definition lift2 (f : R -> R -> R) (a b : tensor) : result tensor :=
  d <- bcast2 f (data a) (data b) ;;
  Ok (mkT d (requires_grad a || requires_grad b)).

Definition t_add : tensor -> tensor -> result tensor := lift2 Rplus.
Definition t_sub : tensor -> tensor -> result tensor := lift2 Rminus.
Definition t_mul : tensor -> tensor -> result tensor := lift2 Rmult.
Definition t_min : tensor -> tensor -> result tensor := lift2 Rmin.

(** A Python number combined with a tensor. *)
Definition s_mul (c : R) (a : tensor) : tensor := lift1 (fun x => c * x) a.
Definition s_rsub (c : R) (a : tensor) : tensor := lift1 (fun x => c - x) a.
Definition t_neg (a : tensor) : tensor := lift1 Ropp a.
Definition t_exp (a : tensor) : tensor := lift1 exp a.

Definition t_mean (a : tensor) : tensor :=
  mkT (T0 (mean_all (data a))) (requires_grad a).

Definition t_squeeze (a : tensor) : tensor :=
  mkT (squeeze (data a)) (requires_grad a).

Definition t_stack (ts : list tensor) : result tensor :=
  d <- stack (map data ts) ;;
  Ok (mkT d (existsb requires_grad ts)).

(** [torch.nn.functional.mse_loss(input, target)] with its default
    [reduction='mean']: the two arguments are broadcast against each other
    and the squared differences are averaged into one 0-dim tensor. *)
Definition mse_loss (input target : tensor) : result tensor :=
  sq <- lift2 (fun x y => (x - y) * (x - y)) input target ;;
  Ok (t_mean sq).

(** The result of a [with torch.no_grad():] block records no graph. *)
Definition no_grad (m : result tensor) : result tensor :=
  t <- m ;; Ok (mkT (data t) false).

(** ** The Q-loss, [sac_q_loss] *)

Definition t_muls (a : tensor) (c : R) : tensor := lift1 (fun x => x * c) a.

(** The bootstrap target of one stream, computed under [torch.no_grad()]:
    [rewards[name] + (1.0 - use_dones_in_backup[name] * dones)
                     * gammas[i] * target_values[name]]. *)
Definition q_backup (use_dones_in_backup : dict Z) (gammas : list R)
    (target_values : dict tensor) (dones : tensor) (rewards : dict tensor)
    (i : nat) (name : string) : result tensor :=
  no_grad (
    reward <- dict_get name rewards ;;
    use_dones <- dict_get name use_dones_in_backup ;;
    let not_done := s_rsub 1.0 (s_mul (IZR use_dones) dones) in
    gamma <- list_get i gammas ;;
    target_value <- dict_get name target_values ;;
    bootstrap <- t_mul (t_muls not_done gamma) target_value ;;
    t_add reward bootstrap).

(** [0.5 * torch.mean(loss_masks * mse_loss(q_backup, q_stream))]. *)
Definition masked_half_mse (loss_masks a b : tensor) : result tensor :=
  mse <- mse_loss a b ;;
  masked <- t_mul loss_masks mse ;;
  Ok (s_mul 0.5 (t_mean masked)).

(** The body of the loop over [enumerate(q1_out.keys())]; the two
    accumulators are the Python lists [q1_losses] and [q2_losses]. *)
Fixpoint sac_q_loss_loop (use_dones_in_backup : dict Z) (gammas : list R)
    (q1_out q2_out target_values : dict tensor) (dones : tensor)
    (rewards : dict tensor) (loss_masks : tensor)
    (todo : list (nat * string)) (q1_losses q2_losses : list tensor)
  : result (list tensor * list tensor) :=
  match todo with
  | [] => Ok (q1_losses, q2_losses)
  | (i, name) :: todo' =>
      q1 <- dict_get name q1_out ;;
      let q1_stream := t_squeeze q1 in
      q2 <- dict_get name q2_out ;;
      let q2_stream := t_squeeze q2 in
      backup <- q_backup use_dones_in_backup gammas target_values dones
                  rewards i name ;;
      _q1_loss <- masked_half_mse loss_masks backup q1_stream ;;
      _q2_loss <- masked_half_mse loss_masks backup q2_stream ;;
      sac_q_loss_loop use_dones_in_backup gammas q1_out q2_out target_values
        dones rewards loss_masks todo'
        (q1_losses ++ [_q1_loss]) (q2_losses ++ [_q2_loss])
  end.

Definition sac_q_loss (use_dones_in_backup : dict Z) (gammas : list R)
    (q1_out q2_out target_values : dict tensor) (dones : tensor)
    (rewards : dict tensor) (loss_masks : tensor)
  : result (tensor * tensor) :=
  '(q1_losses, q2_losses) <-
     sac_q_loss_loop use_dones_in_backup gammas q1_out q2_out target_values
       dones rewards loss_masks (enumerate (keys q1_out)) [] [] ;;
  s1 <- t_stack q1_losses ;;
  let q1_loss := t_mean s1 in
  s2 <- t_stack q2_losses ;;
  let q2_loss := t_mean s2 in
  Ok (q1_loss, q2_loss).

(** ** Shapes, stacking and reductions along the first dimension *)

Definition shape (d : tval) : list nat :=
  match d with
  | T0 _ => []
  | T1 v => [length v]
  | T2 m => [length m; length (hd [] m)]
  end.

Fixpoint shape_eqb (s1 s2 : list nat) : bool :=
  match s1, s2 with
  | [], [] => true
  | n :: s1', m :: s2' => Nat.eqb n m && shape_eqb s1' s2'
  | _, _ => false
  end.

(** [torch.stack(ts)] of tensors that may have rank two: the result has
    rank three and is kept as the list of its slices along dimension 0.
    torch refuses an empty list and slices of different shapes. *)
Definition stack_slices (ts : list tval) : result (list tval) :=
  match ts with
  | [] => Raise RuntimeError
  | t :: ts' =>
      if forallb (fun u => shape_eqb (shape u) (shape t)) ts'
      then Ok ts
      else Raise RuntimeError
  end.

Fixpoint sum_slices (acc : tval) (ts : list tval) : result tval :=
  match ts with
  | [] => Ok acc
  | t :: ts' => s <- bcast2 Rplus acc t ;; sum_slices s ts'
  end.

(** [torch.mean(stacked, dim=0)] on the slices of a stacked tensor. *)
Definition mean_dim0 (slices : list tval) : result tval :=
  match slices with
  | [] => Raise RuntimeError
  | t :: ts' =>
      s <- sum_slices t ts' ;;
      Ok (map_tval (fun x => x / IZR (Z.of_nat (length slices))) s)
  end.

Definition transpose (m : list (list R)) : list (list R) :=
  map (fun j => map (fun r => nth j r 0) m) (seq 0 (length (hd [] m))).

(** The slices met below are the [keepdim=True] sums, of shape [B, 1]:
    [columns_of] reads the stacked tensor of shape [nb, B, 1] as the
    [nb] x [B] matrix obtained by dropping the last dimension. *)
Fixpoint columns_of (slices : list tval) : result (list (list R)) :=
  match slices with
  | [] => Ok []
  | T2 m :: slices' =>
      if is_column m
      then cs <- columns_of slices' ;; Ok (concat m :: cs)
      else Raise RuntimeError
  | _ :: _ => Raise RuntimeError
  end.

(** [torch.squeeze(stacked)] for a stacked tensor of shape [nb, B, 1]. *)
Definition squeeze_stacked (slices : list tval) : result tval :=
  m <- columns_of slices ;; Ok (squeeze (T2 m)).

(** [torch.squeeze(torch.stack(ts, axis=1), axis=2)]: shape [B, nb]. *)
Definition stack_axis1_squeeze2 (ts : list tval) : result tval :=
  slices <- stack_slices ts ;;
  m <- columns_of slices ;;
  Ok (T2 (transpose m)).

(** [t[i]] for a non-negative index. *)
Definition index (i : nat) (d : tval) : result tval :=
  match d with
  | T0 _ => Raise IndexError
  | T1 v => x <- list_get i v ;; Ok (T0 x)
  | T2 m => r <- list_get i m ;; Ok (T1 r)
  end.

Definition any_flag (ts : list tensor) : bool := existsb requires_grad ts.

Definition lift_r (f : tval -> result tval) (a : tensor) : result tensor :=
  d <- f (data a) ;; Ok (mkT d (requires_grad a)).

Definition t_sum_dim1 : tensor -> result tensor := lift_r sum_dim1.
Definition t_sum_dim1_keepdim : tensor -> result tensor :=
  lift_r sum_dim1_keepdim.
Definition t_mean_dim1 : tensor -> result tensor := lift_r mean_dim1.
Definition t_unsqueeze1 : tensor -> result tensor := lift_r unsqueeze1.
Definition t_index (i : nat) : tensor -> result tensor := lift_r (index i).

Definition t_stack_slices (ts : list tensor) : result (list tensor) :=
  _ <- stack_slices (map data ts) ;;
  Ok (map (fun t => mkT (data t) (any_flag ts)) ts).

Definition t_mean_dim0 (slices : list tensor) : result tensor :=
  d <- mean_dim0 (map data slices) ;; Ok (mkT d (any_flag slices)).

Definition t_squeeze_stacked (slices : list tensor) : result tensor :=
  d <- squeeze_stacked (map data slices) ;; Ok (mkT d (any_flag slices)).

Definition t_stack_axis1_squeeze2 (ts : list tensor) : result tensor :=
  d <- stack_axis1_squeeze2 (map data ts) ;; Ok (mkT d (any_flag ts)).

(** ** Helpers of [mlagents.trainers.models_torch] *)

Fixpoint cumsum_from (acc : nat) (l : list nat) : list nat :=
  match l with
  | [] => []
  | n :: l' => acc :: cumsum_from (acc + n) l'
  end.

(** The column offset at which each branch starts. *)
Definition offsets (act_size : list Z) : list nat :=
  cumsum_from 0 (map Z.to_nat act_size).

(** Modelled from the spec: [break_into_branches] of models_torch.py is
    not part of the sources.  The concatenated per-action tensor of shape
    [B, sum(act_size)] is split into per-branch groups: branch [i] holds
    the [act_size[i]] columns that follow those of the earlier branches. *)
Definition break_into_branches (concatenated : tensor) (act_size : list Z)
  : result (list tensor) :=
  match data concatenated with
  | T2 m =>
      Ok (map (fun p =>
                 mkT (T2 (map (fun row => firstn (Z.to_nat (snd p))
                                            (skipn (fst p) row)) m))
                     (requires_grad concatenated))
              (zip (offsets act_size) act_size))
  | _ => Raise IndexError
  end.

(** [torch.nn.functional.one_hot(a, n)] on one index; torch refuses an
    index outside [0, n). *)
Definition one_hot (n : Z) (a : Z) : result (list R) :=
  if (0 <=? a)%Z && (a <? n)%Z
  then Ok (map (fun k => if Nat.eqb k (Z.to_nat a) then 1 else 0)
             (seq 0 (Z.to_nat n)))
  else Raise RuntimeError.

(** Modelled from the spec: [actions_to_onehot] of models_torch.py is not
    part of the sources.  The integer action indices of shape [B, nb] are
    one-hot encoded per branch: branch [i] gives the [B, act_size[i]]
    tensor whose row [b] is the one-hot code of [discrete_actions[b][i]]. *)
Definition actions_to_onehot (discrete_actions : list (list Z))
    (act_size : list Z) : result (list tensor) :=
  mapM (fun p =>
          rows <- mapM (fun acts => a <- list_get (fst p) acts ;;
                                    one_hot (snd p) a) discrete_actions ;;
          Ok (mkT (T2 rows) false))
       (enumerate act_size).

(** ** Condensing discrete Q-outputs, [_condense_q_streams] *)

Definition _condense_q_streams (act_size : list Z) (q_output : dict tensor)
    (discrete_actions : list (list Z)) : result (dict tensor) :=
  onehot_actions <- actions_to_onehot discrete_actions act_size ;;
  mapM (fun kv =>
          branched_q <- break_into_branches (snd kv) act_size ;;
          terms <- mapM (fun p => prod <- t_mul (fst p) (snd p) ;;
                                  t_sum_dim1_keepdim prod)
                     (zip onehot_actions branched_q) ;;
          only_action_qs <- t_stack_slices terms ;;
          condensed <- t_mean_dim0 only_action_qs ;;
          Ok (fst kv, condensed))
       q_output.

(** ** The value loss, [sac_value_loss] *)

Definition t_any (test : R -> bool) (t : tensor) : bool :=
  existsb test (elems (data t)).

(** [torch.mean(torch.stack([torch.sum(_br, dim=1, keepdim=True)
                              for _br in branches]), dim=0)]. *)
Definition mean_of_branch_sums (branches : list tensor) : result tensor :=
  sums <- mapM t_sum_dim1_keepdim branches ;;
  stacked <- t_stack_slices sums ;;
  t_mean_dim0 stacked.

(** One round of the first loop of [sac_value_loss]: [min_policy_qs[name]]. *)
Definition min_policy_q (act_size : list Z) (log_probs : tensor)
    (q1p_out q2p_out : dict tensor) (discrete : bool) (name : string)
  : result tensor :=
  if negb discrete then
    q1p <- dict_get name q1p_out ;;
    q2p <- dict_get name q2p_out ;;
    t_min q1p q2p
  else
    let action_probs := t_exp log_probs in
    q1p <- dict_get name q1p_out ;;
    w1 <- t_mul q1p action_probs ;;
    _branched_q1p <- break_into_branches w1 act_size ;;
    q2p <- dict_get name q2p_out ;;
    w2 <- t_mul q2p action_probs ;;
    _branched_q2p <- break_into_branches w2 act_size ;;
    _q1p_mean <- mean_of_branch_sums _branched_q1p ;;
    _q2p_mean <- mean_of_branch_sums _branched_q2p ;;
    t_min _q1p_mean _q2p_mean.

Definition sac_value_loss (act_size : list Z) (_log_ent_coef : tensor)
    (isinf isnan : R -> bool)
    (log_probs : tensor) (values_ q1p_out q2p_out : dict tensor)
    (loss_masks : tensor) (discrete : bool) : result tensor :=
  _ent_coef <- no_grad (Ok (t_exp _log_ent_coef)) ;;
  min_policy_qs <-
    mapM (fun name =>
            q <- min_policy_q act_size log_probs q1p_out q2p_out discrete name ;;
            Ok (name, q))
         (keys values_) ;;
  value_losses <-
    (if negb discrete then
       mapM (fun name =>
               v_backup <- no_grad (
                 min_q <- dict_get name min_policy_qs ;;
                 weighted <- t_mul _ent_coef log_probs ;;
                 bonus <- t_sum_dim1 weighted ;;
                 t_sub min_q bonus) ;;
               value <- dict_get name values_ ;;
               masked_half_mse loss_masks value v_backup)
            (keys values_)
     else
       per_action_ent <- t_mul log_probs (t_exp log_probs) ;;
       branched_per_action_ent <- break_into_branches per_action_ent act_size ;;
       bonus_terms <-
         mapM (fun p =>
                 coef <- t_index (fst p) _ent_coef ;;
                 weighted <- t_mul coef (snd p) ;;
                 t_sum_dim1_keepdim weighted)
              (enumerate branched_per_action_ent) ;;
       branched_ent_bonus <- t_stack_slices bonus_terms ;;
       mapM (fun name =>
               v_backup <- no_grad (
                 min_q <- dict_get name min_policy_qs ;;
                 bonus <- t_mean_dim0 branched_ent_bonus ;;
                 t_sub min_q bonus) ;;
               value <- dict_get name values_ ;;
               masked_half_mse loss_masks value (t_squeeze v_backup))
            (keys values_)) ;;
  stacked <- t_stack value_losses ;;
  let value_loss := t_mean stacked in
  if t_any isinf value_loss || t_any isnan value_loss
  then Raise (UnityTrainerException "Inf found")
  else Ok value_loss.

(** ** The policy loss, [sac_policy_loss] *)

Definition sac_policy_loss (act_size : list Z) (_log_ent_coef : tensor)
    (log_probs : tensor) (q1p_outs : dict tensor) (loss_masks : tensor)
    (discrete : bool) : result tensor :=
  let _ent_coef := t_exp _log_ent_coef in
  stacked <- t_stack_slices (values q1p_outs) ;;
  mean_q1 <- t_mean_dim0 stacked ;;
  batch_policy_loss <-
    (if negb discrete then
       mean_q1 <- t_unsqueeze1 mean_q1 ;;
       weighted <- t_mul _ent_coef log_probs ;;
       diff <- t_sub weighted mean_q1 ;;
       batch_policy_loss <- t_mean_dim1 diff ;;
       masked <- t_mul loss_masks batch_policy_loss ;;
       let policy_loss := t_mean masked in
       Ok batch_policy_loss
     else
       let action_probs := t_exp log_probs in
       per_action_ent <- t_mul log_probs action_probs ;;
       branched_per_action_ent <- break_into_branches per_action_ent act_size ;;
       q_term <- t_mul mean_q1 action_probs ;;
       branched_q_term <- break_into_branches q_term act_size ;;
       terms <-
         mapM (fun p =>
                 coef <- t_index (fst p) _ent_coef ;;
                 weighted <- t_mul coef (fst (snd p)) ;;
                 diff <- t_sub weighted (snd (snd p)) ;;
                 t_sum_dim1_keepdim diff)
              (enumerate (zip branched_per_action_ent branched_q_term)) ;;
       branched_policy_loss <- t_stack_slices terms ;;
       t_squeeze_stacked branched_policy_loss) ;;
  masked <- t_mul loss_masks batch_policy_loss ;;
  let policy_loss := t_mean masked in
  Ok policy_loss.

(** ** The entropy loss, [sac_entropy_loss] *)

(** [self.target_entropy]: a 0-dim tensor for continuous actions, a Python
    list with one number per branch for discrete actions. *)
Inductive target_entropy_t : Type :=
| TargetEntropyTensor (t : tensor)
| TargetEntropyList (l : list R).

Definition s_add (a : tensor) (c : R) : tensor := lift1 (fun x => x + c) a.

Definition sac_entropy_loss (act_size : list Z) (_log_ent_coef : tensor)
    (target_entropy : target_entropy_t)
    (log_probs : tensor) (loss_masks : tensor) (discrete : bool)
  : result tensor :=
  if negb discrete then
    target_current_diff <- no_grad (
      match target_entropy with
      | TargetEntropyTensor te =>
          shifted <- t_add log_probs te ;; t_sum_dim1 shifted
      | TargetEntropyList _ => Raise TypeError
      end) ;;
    weighted <- t_mul _log_ent_coef loss_masks ;;
    prod <- t_mul weighted target_current_diff ;;
    Ok (t_neg (t_mean prod))
  else
    target_current_diff <- no_grad (
      per_action_ent <- t_mul log_probs (t_exp log_probs) ;;
      branched_per_action_ent <- break_into_branches per_action_ent act_size ;;
      match target_entropy with
      | TargetEntropyList tes =>
          terms <- mapM (fun p => s <- t_sum_dim1_keepdim (fst p) ;;
                                  Ok (s_add s (snd p)))
                     (zip branched_per_action_ent tes) ;;
          t_stack_axis1_squeeze2 terms
      | TargetEntropyTensor _ => Raise TypeError
      end) ;;
    weighted <- t_mul _log_ent_coef target_current_diff ;;
    per_step <- t_mean_dim1 weighted ;;
    masked <- t_mul loss_masks per_step ;;
    Ok (t_neg (t_mean masked)).

(** ** Polyak averaging, [soft_update] *)

(** [dst.copy_(src)]: [src] is broadcast to the shape of [dst]. *)
Definition copy_ (dst src : tval) : result tval :=
  r <- bcast2 (fun _ y => y) dst src ;;
  if shape_eqb (shape r) (shape dst) then Ok r else Raise RuntimeError.

(** One round of the loop, on the [.data] of a pair of parameters. *)
Definition soft_update_param (source_param target_param : tval) (tau : R)
  : result tval :=
  blended <- bcast2 Rplus
               (map_tval (fun x => x * (1.0 - tau)) target_param)
               (map_tval (fun x => x * tau) source_param) ;;
  copy_ target_param blended.

(** The loop over [zip(source.parameters(), target.parameters())].  The
    target is mutated in place, so a round that raises leaves the earlier
    parameters updated: the new target is returned in both cases, with
    the exception if there was one. *)
Fixpoint soft_update (source target : list tval) (tau : R)
  : list tval * option exn :=
  match source, target with
  | source_param :: source', target_param :: target' =>
      match soft_update_param source_param target_param tau with
      | Ok new_param =>
          let (rest, e) := soft_update source' target' tau in
          (new_param :: rest, e)
      | Raise e => (target, Some e)
      end
  | _, _ => (target, None)
  end.

(** ** Networks, parameters and optimizers *)

(** A [torch.nn.Parameter]: its [.data] and its [.grad] buffer. *)
Record TorchParameter : Type := mkParam {
  p_data : tval;
  p_grad : option tval
}.

(** The running observation-normalization statistics of a network body. *)
Definition Normalizer : Type := list tval.

(** An [nn.Module] as this file sees it: [parameters()] in their fixed
    traversal order, and the normalization statistics. *)
Record Network : Type := mkNetwork {
  parameters : list TorchParameter;
  normalizer : Normalizer
}.

Definition set_data (p : TorchParameter) (d : tval) : TorchParameter :=
  mkParam d (p_grad p).

Fixpoint set_datas (ps : list TorchParameter) (ds : list tval) : list TorchParameter :=
  match ps, ds with
  | p :: ps', d :: ds' => set_data p d :: set_datas ps' ds'
  | _, _ => ps
  end.

(** [soft_update] on two modules: the loop runs over the [.data] of the
    zipped parameters and writes into the target's. *)
Definition soft_update_modules (source target : Network) (tau : R)
  : Network * option exn :=
  let (new_data, e) :=
    soft_update (map p_data (parameters source))
                (map p_data (parameters target)) tau in
  (mkNetwork (set_datas (parameters target) new_data) (normalizer target), e).

(** Modelled from the spec: [copy_normalization] of models_torch.py is not
    part of the sources.  It copies the running observation-normalization
    statistics of the given network body into the receiver. *)
Definition copy_normalization (self other_network : Network) : Network :=
  mkNetwork (parameters self) (normalizer other_network).

Record PolicyValueNetwork : Type := mkPolicyValueNetwork {
  q1_network : Network;
  q2_network : Network
}.

Record ActorCritic : Type := mkActorCritic {
  network_body : Network;
  visual_encoders : nat;      (* len(network_body.visual_encoders) *)
  distribution : list TorchParameter;
  critic : Network
}.

Record TorchPolicy : Type := mkTorchPolicy {
  actor_critic : ActorCritic;
  policy_act_size : list Z;
  use_continuous_act : bool;
  use_vis_obs : bool;
  sequence_length : Z
}.

Record RewardSignal : Type := mkRewardSignal {
  use_terminal_states : bool
}.

Record RewardSignalSettings : Type := mkRewardSignalSettings {
  gamma : R
}.

Record SACSettings : Type := mkSACSettings {
  learning_rate : R;
  settings_tau : R;
  settings_init_entcoef : R
}.

Record TrainerSettings : Type := mkTrainerSettings {
  hyperparameters : SACSettings;
  settings_reward_signals : dict RewardSignalSettings
}.

(** [zero_grad()] on the parameters an optimizer owns: an allocated
    gradient buffer is filled with zeros. *)
Definition zero_grad (ps : list TorchParameter) : list TorchParameter :=
  map (fun p => mkParam (p_data p)
                  (option_map (map_tval (fun _ => 0)) (p_grad p))) ps.

(** Gradients have the shape of their parameter, so the accumulation
    [p.grad += g] is a plain elementwise sum. *)
Definition add_same (a b : tval) : tval :=
  match a, b with
  | T0 x, T0 y => T0 (x + y)
  | T1 u, T1 v => T1 (map2 Rplus u v)
  | T2 m, T2 n => T2 (map2 (map2 Rplus) m n)
  | _, _ => a
  end.

Definition accumulate (p : TorchParameter) (g : option tval) : TorchParameter :=
  match g with
  | None => p
  | Some g' =>
      mkParam (p_data p)
        (Some (match p_grad p with
               | None => g'
               | Some old => add_same old g'
               end))
  end.

Fixpoint accumulate_all (ps : list TorchParameter) (gs : list (option tval))
  : list TorchParameter :=
  match ps, gs with
  | p :: ps', g :: gs' => accumulate p g :: accumulate_all ps' gs'
  | _, _ => ps
  end.

(** The gradients one backward pass adds to the leaves of the graph. *)
Record Gradients : Type := mkGradients {
  g_network_body : list (option tval);
  g_distribution : list (option tval);
  g_critic : list (option tval);
  g_q1_network : list (option tval);
  g_q2_network : list (option tval);
  g_log_ent_coef : option tval
}.

(** A tensor of this model holds its entries and its autograd flag, not
    the graph that computed it.  The three losses [update] differentiates
    are told apart by the place that built them; autograd is given that
    place together with the loss tensor itself. *)
Inductive loss_id : Type := PolicyLoss | TotalValueLoss | EntropyLoss.
Inductive optimizer_id : Type :=
  PolicyOptimizer | ValueOptimizer | EntropyOptimizer.

(** Truncation toward zero, the conversion of a float entry to an integer
    dtype ([torch.int32], [torch.long]). *)
Definition trunc (x : R) : Z :=
  if Rle_dec 0 x then Int_part x else (- Int_part (- x))%Z.

Definition to_int32 (d : tval) : tensor :=
  mkT (map_tval (fun x => IZR (trunc x)) d) false.

Definition to_long (d : tval) : list (list Z) :=
  map (map trunc) (rows_of d).

(** [range(0, n, step)]. *)
Definition range_step (n : nat) (step : Z) : result (list nat) :=
  if (step =? 0)%Z then Raise ValueError
  else if (step <? 0)%Z then Ok []
  else let s := Z.to_nat step in
       Ok (map (fun k => (k * s)%nat) (seq 0 ((n + s - 1) / s))).

Definition detach_all (d : dict tensor) : dict tensor :=
  map (fun kv => (fst kv, mkT (data (snd kv)) false)) d.

Definition param_tensor (p : TorchParameter) : tensor := mkT (p_data p) true.

(** ** The optimizer object and its [update] *)

Section Optimizer.

(** What lies outside this file is a parameter of the model:
    observation tensors, the state Adam keeps per parameter and its update
    rule, the forward passes of the networks, the policy's action
    sampling, the gradients autograd computes, and the two tests
    [torch.isinf] and [torch.isnan] (tensor entries are real numbers, so
    what counts as non-finite is left to the numeric backend). *)
Variable Obs : Type.
Variable AdamState : Type.
Variable adam_init : AdamState.
Variable adam : R -> AdamState -> tval -> tval -> AdamState * tval.
Variable torch_isinf : R -> bool.
Variable torch_isnan : R -> bool.

(** An [AgentBuffer] after [list_to_tensor]: keyed access never fails, a
    missing key reads as an empty field. *)
Record AgentBuffer : Type := mkAgentBuffer {
  field : string -> tval;
  obs_field : string -> Obs;
  memory : list tval
}.

Record Optimizer : Type := mkOptimizer {
  lr : R;
  adam_state : list AdamState
}.

Record TorchSACOptimizer : Type := mkTorchSACOptimizer {
  tau : R;
  init_entcoef : R;
  policy : TorchPolicy;
  act_size : list Z;
  burn_in_ratio : R;
  discrete_target_entropy_scale : R;
  continuous_target_entropy_scale : R;
  reward_signals : dict RewardSignal;
  stream_names : list string;
  gammas : list R;
  use_dones_in_backup : dict Z;
  value_network : PolicyValueNetwork;
  target_network : Network;
  _log_ent_coef : TorchParameter;
  target_entropy : target_entropy_t;
  policy_optimizer : Optimizer;
  value_optimizer : Optimizer;
  entropy_optimizer : Optimizer
}.

Record Sample : Type := mkSample {
  sampled_actions : tensor;
  log_probs : tensor;
  entropies : tensor;
  sampled_values : dict tensor
}.

Variable QNetwork_forward :
  Network -> list Obs -> list Obs -> option tensor -> dict tensor.
Variable Critic_forward : Network -> list Obs -> list Obs -> dict tensor.
Variable sample_actions :
  TorchPolicy -> list Obs -> list Obs -> tval -> option tval -> Z -> bool ->
  Sample.
Variable autograd :
  loss_id -> tensor -> TorchSACOptimizer -> AgentBuffer -> Gradients.

(** [PolicyValueNetwork.forward]. *)
Definition PolicyValueNetwork_forward (self : PolicyValueNetwork)
    (vec_inputs vis_inputs : list Obs) (actions : option tensor)
  : dict tensor * dict tensor :=
  let q1_out := QNetwork_forward (q1_network self) vec_inputs vis_inputs actions in
  let q2_out := QNetwork_forward (q2_network self) vec_inputs vis_inputs actions in
  (q1_out, q2_out).

(** *** Construction *)

(** [__init__].  [reward_signals] is the dict the base class builds from
    the trainer settings; the three networks are the freshly initialised
    [QNetwork]s and [Critic]. *)
Definition __init__ (policy : TorchPolicy) (trainer_params : TrainerSettings)
    (reward_signals : dict RewardSignal)
    (q1_network q2_network target_network : Network)
  : result TorchSACOptimizer :=
  let hyperparameters := hyperparameters trainer_params in
  let lr := learning_rate hyperparameters in
  let tau := settings_tau hyperparameters in
  let init_entcoef := settings_init_entcoef hyperparameters in
  let act_size := policy_act_size policy in
  let discrete_target_entropy_scale := 0.2 in
  let continuous_target_entropy_scale := 1.0 in
  let stream_names := keys reward_signals in
  let gammas := map gamma (values (settings_reward_signals trainer_params)) in
  use_dones_in_backup <-
    mapM (fun name => rs <- dict_get name reward_signals ;;
                      Ok (name, Z.b2z (use_terminal_states rs)))
         stream_names ;;
  let value_network := mkPolicyValueNetwork q1_network q2_network in
  target_network <-
    (match soft_update_modules (critic (actor_critic policy)) target_network 1.0 with
     | (target_network, None) => Ok target_network
     | (_, Some e) => Raise e
     end) ;;
  let _log_ent_coef :=
    mkParam (T1 (map ln (repeat init_entcoef (length act_size)))) None in
  target_entropy <-
    (if use_continuous_act policy then
       d <- list_get 0 act_size ;;
       Ok (TargetEntropyTensor
             (const (-1 * continuous_target_entropy_scale * IZR d)))
     else
       Ok (TargetEntropyList
             (map (fun i => discrete_target_entropy_scale * ln (IZR i))
                  act_size))) ;;
  Ok (mkTorchSACOptimizer tau init_entcoef policy act_size 0.0
        discrete_target_entropy_scale continuous_target_entropy_scale
        reward_signals stream_names gammas use_dones_in_backup
        value_network target_network _log_ent_coef target_entropy
        (mkOptimizer lr []) (mkOptimizer lr []) (mkOptimizer lr [])).

(** *** The state of a call *)

(** [update] mutates the optimizer object and, through it, the policy's
    networks.  An exception does not undo earlier mutations: the outcome
    of a call carries the object as the caller finds it afterwards. *)
Inductive outcome (A : Type) : Type :=
| Done (a : A) (self : TorchSACOptimizer)
| Raised (e : exn) (self : TorchSACOptimizer).
Arguments Done {A} a self.
Arguments Raised {A} e self.

Definition M (A : Type) : Type := TorchSACOptimizer -> outcome A.

Definition ret {A : Type} (a : A) : M A := fun self => Done a self.

Definition bindM {A B : Type} (m : M A) (k : A -> M B) : M B :=
  fun self =>
    match m self with
    | Done a self' => k a self'
    | Raised e self' => Raised e self'
    end.

Definition lift {A : Type} (r : result A) : M A :=
  fun self =>
    match r with
    | Ok a => Done a self
    | Raise e => Raised e self
    end.

Definition get : M TorchSACOptimizer := fun self => Done self self.
Definition modify (f : TorchSACOptimizer -> TorchSACOptimizer) : M unit :=
  fun self => Done tt (f self).

Declare Scope update_scope.
Delimit Scope update_scope with update.
Notation "x <- m ;; k" := (bindM m (fun x => k))
  (at level 61, m at next level, right associativity) : update_scope.
Notation "' pat <- m ;; k" := (bindM m (fun x => match x with pat => k end))
  (at level 61, pat pattern, m at next level, right associativity)
  : update_scope.
Notation "m ;; k" := (bindM m (fun _ => k))
  (at level 61, right associativity) : update_scope.

(** *** Field updates *)

Definition with_policy (f : TorchPolicy -> TorchPolicy)
    (self : TorchSACOptimizer) : TorchSACOptimizer :=
  mkTorchSACOptimizer (tau self) (init_entcoef self) (f (policy self))
    (act_size self) (burn_in_ratio self) (discrete_target_entropy_scale self)
    (continuous_target_entropy_scale self) (reward_signals self)
    (stream_names self) (gammas self) (use_dones_in_backup self)
    (value_network self) (target_network self) (_log_ent_coef self)
    (target_entropy self) (policy_optimizer self) (value_optimizer self)
    (entropy_optimizer self).

Definition with_value_network (f : PolicyValueNetwork -> PolicyValueNetwork)
    (self : TorchSACOptimizer) : TorchSACOptimizer :=
  mkTorchSACOptimizer (tau self) (init_entcoef self) (policy self)
    (act_size self) (burn_in_ratio self) (discrete_target_entropy_scale self)
    (continuous_target_entropy_scale self) (reward_signals self)
    (stream_names self) (gammas self) (use_dones_in_backup self)
    (f (value_network self)) (target_network self) (_log_ent_coef self)
    (target_entropy self) (policy_optimizer self) (value_optimizer self)
    (entropy_optimizer self).

Definition with_target_network (f : Network -> Network)
    (self : TorchSACOptimizer) : TorchSACOptimizer :=
  mkTorchSACOptimizer (tau self) (init_entcoef self) (policy self)
    (act_size self) (burn_in_ratio self) (discrete_target_entropy_scale self)
    (continuous_target_entropy_scale self) (reward_signals self)
    (stream_names self) (gammas self) (use_dones_in_backup self)
    (value_network self) (f (target_network self)) (_log_ent_coef self)
    (target_entropy self) (policy_optimizer self) (value_optimizer self)
    (entropy_optimizer self).

Definition with_log_ent_coef (f : TorchParameter -> TorchParameter)
    (self : TorchSACOptimizer) : TorchSACOptimizer :=
  mkTorchSACOptimizer (tau self) (init_entcoef self) (policy self)
    (act_size self) (burn_in_ratio self) (discrete_target_entropy_scale self)
    (continuous_target_entropy_scale self) (reward_signals self)
    (stream_names self) (gammas self) (use_dones_in_backup self)
    (value_network self) (target_network self) (f (_log_ent_coef self))
    (target_entropy self) (policy_optimizer self) (value_optimizer self)
    (entropy_optimizer self).

Definition with_optimizer (o : optimizer_id) (f : Optimizer -> Optimizer)
    (self : TorchSACOptimizer) : TorchSACOptimizer :=
  mkTorchSACOptimizer (tau self) (init_entcoef self) (policy self)
    (act_size self) (burn_in_ratio self) (discrete_target_entropy_scale self)
    (continuous_target_entropy_scale self) (reward_signals self)
    (stream_names self) (gammas self) (use_dones_in_backup self)
    (value_network self) (target_network self) (_log_ent_coef self)
    (target_entropy self)
    (match o with PolicyOptimizer => f (policy_optimizer self)
             | _ => policy_optimizer self end)
    (match o with ValueOptimizer => f (value_optimizer self)
             | _ => value_optimizer self end)
    (match o with EntropyOptimizer => f (entropy_optimizer self)
             | _ => entropy_optimizer self end).

Definition with_network_body (f : Network -> Network) (p : TorchPolicy)
  : TorchPolicy :=
  let ac := actor_critic p in
  mkTorchPolicy
    (mkActorCritic (f (network_body ac)) (visual_encoders ac)
       (distribution ac) (critic ac))
    (policy_act_size p) (use_continuous_act p) (use_vis_obs p)
    (sequence_length p).

Definition with_distribution (f : list TorchParameter -> list TorchParameter)
    (p : TorchPolicy) : TorchPolicy :=
  let ac := actor_critic p in
  mkTorchPolicy
    (mkActorCritic (network_body ac) (visual_encoders ac)
       (f (distribution ac)) (critic ac))
    (policy_act_size p) (use_continuous_act p) (use_vis_obs p)
    (sequence_length p).

Definition with_critic (f : Network -> Network) (p : TorchPolicy)
  : TorchPolicy :=
  let ac := actor_critic p in
  mkTorchPolicy
    (mkActorCritic (network_body ac) (visual_encoders ac)
       (distribution ac) (f (critic ac)))
    (policy_act_size p) (use_continuous_act p) (use_vis_obs p)
    (sequence_length p).

Definition with_parameters (f : list TorchParameter -> list TorchParameter)
    (n : Network) : Network :=
  mkNetwork (f (parameters n)) (normalizer n).

(** The parameters of a module, seen through a function on each. *)
Definition on_policy_params (f : list TorchParameter -> list TorchParameter)
  : TorchSACOptimizer -> TorchSACOptimizer :=
  with_policy (fun p =>
    with_distribution f (with_network_body (with_parameters f) p)).

Definition on_value_params (f : list TorchParameter -> list TorchParameter)
    (self : TorchSACOptimizer) : TorchSACOptimizer :=
  with_policy (with_critic (with_parameters f))
    (with_value_network (fun vn =>
       mkPolicyValueNetwork (with_parameters f (q1_network vn))
                            (with_parameters f (q2_network vn))) self).

(** *** Optimizer steps and backward passes *)

(** [Adam.step()]: a parameter without gradient is skipped, the state of
    a parameter is created at its first step. *)
Fixpoint adam_steps (lr : R) (states : list AdamState)
    (ps : list TorchParameter) : list AdamState * list TorchParameter :=
  match ps with
  | [] => ([], [])
  | p :: ps' =>
      let s := hd adam_init states in
      let (s', p') :=
        match p_grad p with
        | None => (s, p)
        | Some g => let (s1, d1) := adam lr s (p_data p) g in
                    (s1, set_data p d1)
        end in
      let (ss, ps'') := adam_steps lr (tl states) ps' in
      (s' :: ss, p' :: ps'')
  end.

Definition policy_params (self : TorchSACOptimizer) : list TorchParameter :=
  parameters (network_body (actor_critic (policy self)))
  ++ distribution (actor_critic (policy self)).

Definition value_params (self : TorchSACOptimizer) : list TorchParameter :=
  (parameters (q1_network (value_network self))
   ++ parameters (q2_network (value_network self)))
  ++ parameters (critic (actor_critic (policy self))).

(** Writing a parameter group back into the modules that hold it. *)
Definition put_policy_params (ps : list TorchParameter)
    (self : TorchSACOptimizer) : TorchSACOptimizer :=
  let n := length (parameters (network_body (actor_critic (policy self)))) in
  with_policy (fun p =>
    with_distribution (fun _ => skipn n ps)
      (with_network_body (with_parameters (fun _ => firstn n ps)) p)) self.

Definition put_value_params (ps : list TorchParameter)
    (self : TorchSACOptimizer) : TorchSACOptimizer :=
  let n1 := length (parameters (q1_network (value_network self))) in
  let n2 := length (parameters (q2_network (value_network self))) in
  with_policy (with_critic (with_parameters (fun _ => skipn (n1 + n2) ps)))
    (with_value_network (fun vn =>
       mkPolicyValueNetwork
         (with_parameters (fun _ => firstn n1 ps) (q1_network vn))
         (with_parameters (fun _ => firstn n2 (skipn n1 ps)) (q2_network vn)))
       self).

(** What [zero_grad()] and [step()] of each optimizer do to the object. *)
Definition zero_grads (o : optimizer_id) (self : TorchSACOptimizer)
  : TorchSACOptimizer :=
  match o with
  | PolicyOptimizer => on_policy_params zero_grad self
  | ValueOptimizer => on_value_params zero_grad self
  | EntropyOptimizer =>
      with_log_ent_coef (fun p => hd p (zero_grad [p])) self
  end.

Definition adam_update (o : optimizer_id) (self : TorchSACOptimizer)
  : TorchSACOptimizer :=
  match o with
  | PolicyOptimizer =>
      let opt := policy_optimizer self in
      let (ss, ps) := adam_steps (lr opt) (adam_state opt) (policy_params self) in
      with_optimizer o (fun _ => mkOptimizer (lr opt) ss)
        (put_policy_params ps self)
  | ValueOptimizer =>
      let opt := value_optimizer self in
      let (ss, ps) := adam_steps (lr opt) (adam_state opt) (value_params self) in
      with_optimizer o (fun _ => mkOptimizer (lr opt) ss)
        (put_value_params ps self)
  | EntropyOptimizer =>
      let opt := entropy_optimizer self in
      let (ss, ps) := adam_steps (lr opt) (adam_state opt) [_log_ent_coef self] in
      with_optimizer o (fun _ => mkOptimizer (lr opt) ss)
        (with_log_ent_coef (fun p => hd p ps) self)
  end.

Definition optimizer_zero_grad (o : optimizer_id) : M unit :=
  modify (zero_grads o).

Definition optimizer_step (o : optimizer_id) : M unit :=
  modify (adam_update o).

Definition apply_gradients (g : Gradients) (self : TorchSACOptimizer)
  : TorchSACOptimizer :=
  with_log_ent_coef (fun p => accumulate p (g_log_ent_coef g))
    (with_value_network (fun vn =>
       mkPolicyValueNetwork
         (with_parameters (fun ps => accumulate_all ps (g_q1_network g))
            (q1_network vn))
         (with_parameters (fun ps => accumulate_all ps (g_q2_network g))
            (q2_network vn)))
       (with_policy (fun p =>
          with_critic
            (with_parameters (fun ps => accumulate_all ps (g_critic g)))
            (with_distribution (fun ps => accumulate_all ps (g_distribution g))
               (with_network_body
                  (with_parameters
                     (fun ps => accumulate_all ps (g_network_body g))) p)))
          self)).

(** [loss.backward()]: the gradients of [loss], taken through the graph
    recorded at the forward pass ([ctx] is the object as it was then),
    are added to the [.grad] buffers; torch refuses a loss that requires
    no gradient. *)
Definition backward (l : loss_id) (loss : tensor)
    (ctx : TorchSACOptimizer) (batch : AgentBuffer) : M unit :=
  fun self =>
    if requires_grad loss
    then Done tt (apply_gradients (autograd l loss ctx batch) self)
    else Raised RuntimeError self.

(** [self.soft_update(self.policy.actor_critic.critic,
                      self.target_network, tau)]. *)
Definition soft_update_target (tau : R) : M unit :=
  fun self =>
    let (target, e) :=
      soft_update_modules (critic (actor_critic (policy self)))
        (target_network self) tau in
    let self' := with_target_network (fun _ => target) self in
    match e with
    | None => Done tt self'
    | Some e => Raised e self'
    end.

Definition string_of_nat (n : nat) : string :=
  DecimalString.NilZero.string_of_uint (Nat.to_uint n).

(** *** [update] *)

(** "Copy normalizers from policy": the three [copy_normalization] calls
    on the two Q-networks and on the body of the target network. *)
Definition copy_normalizers (self : TorchSACOptimizer) : TorchSACOptimizer :=
  let body := network_body (actor_critic (policy self)) in
  with_target_network (fun t => copy_normalization t body)
    (with_value_network (fun vn =>
       mkPolicyValueNetwork (copy_normalization (q1_network vn) body)
                            (copy_normalization (q2_network vn) body))
       self).

(** The calls [update] makes into torch once the losses are known. *)
Inductive torch_call : Type :=
| ZeroGrad (o : optimizer_id)
| Backward (l : loss_id) (loss : tensor)
| Step (o : optimizer_id)
| SoftUpdate (tau : R).

Definition run_call (ctx : TorchSACOptimizer) (batch : AgentBuffer)
    (c : torch_call) : M unit :=
  match c with
  | ZeroGrad o => optimizer_zero_grad o
  | Backward l loss => backward l loss ctx batch
  | Step o => optimizer_step o
  | SoftUpdate tau => soft_update_target tau
  end.

Fixpoint run_calls (ctx : TorchSACOptimizer) (batch : AgentBuffer)
    (cs : list torch_call) : M unit :=
  match cs with
  | [] => ret tt
  | c :: cs' => bindM (run_call ctx batch c) (fun _ => run_calls ctx batch cs')
  end.

Definition update (batch : AgentBuffer) (num_sequences : Z) : M (dict tval) :=
  (self <- get ;;
   let rewards :=
     map (fun name => (name, mkT (field batch (name ++ "_rewards")) false))
         (keys (reward_signals self)) in
   let vec_obs := [obs_field batch "vector_obs"] in
   let next_vec_obs := [obs_field batch "next_vector_in"] in
   let act_masks := field batch "action_mask" in
   let actions := field batch "actions" in
   starts <- lift (range_step (length (memory batch))
                     (sequence_length (policy self))) ;;
   memories <- lift (mapM (fun i => list_get i (memory batch)) starts) ;;
   memories <- lift (match memories with
                     | [] => Ok None
                     | _ :: _ => (m <- stack memories ;; Ok (Some m))%result
                     end) ;;
   let cameras :=
     if use_vis_obs (policy self)
     then seq 0 (visual_encoders (actor_critic (policy self)))
     else [] in
   let vis_obs :=
     map (fun idx => obs_field batch ("visual_obs" ++ string_of_nat idx))
         cameras in
   let next_vis_obs :=
     map (fun idx => obs_field batch ("next_visual_obs" ++ string_of_nat idx))
         cameras in
   modify copy_normalizers ;;
   self <- get ;;
   let continuous := use_continuous_act (policy self) in
   let sample :=
     sample_actions (policy self) vec_obs vis_obs act_masks memories
       (sequence_length (policy self)) (negb continuous) in
   let log_probs := log_probs sample in
   let sampled_values := sampled_values sample in
   '(q1p_out, q2p_out, q1_stream, q2_stream) <-
     (if continuous then
        let squeezed_actions := mkT actions false in
        let '(q1p_out, q2p_out) :=
          PolicyValueNetwork_forward (value_network self) vec_obs vis_obs
            (Some (sampled_actions sample)) in
        let '(q1_out, q2_out) :=
          PolicyValueNetwork_forward (value_network self) vec_obs vis_obs
            (Some squeezed_actions) in
        ret (q1p_out, q2p_out, q1_out, q2_out)
      else
        let '(q1p_out, q2p_out) :=
          PolicyValueNetwork_forward (value_network self) vec_obs vis_obs None in
        let '(q1_out, q2_out) :=
          PolicyValueNetwork_forward (value_network self) vec_obs vis_obs None in
        q1_stream <- lift (_condense_q_streams (act_size self) q1_out
                             (to_long actions)) ;;
        q2_stream <- lift (_condense_q_streams (act_size self) q2_out
                             (to_long actions)) ;;
        ret (detach_all q1p_out, detach_all q2p_out, q1_stream, q2_stream)) ;;
   let target_values :=
     detach_all (Critic_forward (target_network self) next_vec_obs next_vis_obs) in
   let masks := to_int32 (field batch "masks") in
   let use_discrete := negb continuous in
   let dones := mkT (field batch "done") false in
   let ent := param_tensor (_log_ent_coef self) in
   '(q1_loss, q2_loss) <-
     lift (sac_q_loss (use_dones_in_backup self) (gammas self)
             q1_stream q2_stream target_values dones rewards masks) ;;
   value_loss <-
     lift (sac_value_loss (act_size self) ent torch_isinf torch_isnan
             log_probs sampled_values q1p_out q2p_out masks use_discrete) ;;
   policy_loss <-
     lift (sac_policy_loss (act_size self) ent log_probs q1p_out masks
             use_discrete) ;;
   entropy_loss <-
     lift (sac_entropy_loss (act_size self) ent (target_entropy self)
             log_probs masks use_discrete) ;;
   q_losses <- lift (t_add q1_loss q2_loss) ;;
   total_value_loss <- lift (t_add q_losses value_loss) ;;

   optimizer_zero_grad PolicyOptimizer ;;
   backward PolicyLoss policy_loss self batch ;;
   optimizer_step PolicyOptimizer ;;

   optimizer_zero_grad ValueOptimizer ;;
   backward TotalValueLoss total_value_loss self batch ;;
   optimizer_step ValueOptimizer ;;

   optimizer_zero_grad EntropyOptimizer ;;
   backward EntropyLoss entropy_loss self batch ;;
   optimizer_step EntropyOptimizer ;;

   (* Update target network *)
   soft_update_target (tau self) ;;
   self <- get ;;
   let update_stats :=
     [ ("Losses/Policy Loss", map_tval Rabs (data policy_loss));
       ("Losses/Value Loss", data value_loss);
       ("Losses/Q1 Loss", data q1_loss);
       ("Losses/Q2 Loss", data q2_loss);
       ("Policy/Entropy Coeff", map_tval exp (p_data (_log_ent_coef self))) ] in
   ret update_stats)%update.

Definition update_reward_signals
    (reward_signal_minibatches : dict AgentBuffer) (num_sequences : Z)
  : M (dict tval) :=
  ret [].

End Optimizer.

Arguments mkAgentBuffer {Obs}.
Arguments field {Obs}.
Arguments obs_field {Obs}.
Arguments memory {Obs}.
Arguments mkOptimizer {AdamState}.
Arguments lr {AdamState}.
Arguments adam_state {AdamState}.
Arguments mkTorchSACOptimizer {AdamState}.
Arguments tau {AdamState}.
Arguments init_entcoef {AdamState}.
Arguments policy {AdamState}.
Arguments act_size {AdamState}.
Arguments burn_in_ratio {AdamState}.
Arguments discrete_target_entropy_scale {AdamState}.
Arguments continuous_target_entropy_scale {AdamState}.
Arguments reward_signals {AdamState}.
Arguments stream_names {AdamState}.
Arguments gammas {AdamState}.
Arguments use_dones_in_backup {AdamState}.
Arguments value_network {AdamState}.
Arguments target_network {AdamState}.
Arguments _log_ent_coef {AdamState}.
Arguments target_entropy {AdamState}.
Arguments policy_optimizer {AdamState}.
Arguments value_optimizer {AdamState}.
Arguments entropy_optimizer {AdamState}.
Arguments Done {AdamState A}.
Arguments Raised {AdamState A}.
Arguments __init__ {AdamState}.
Arguments update {Obs AdamState}.
Arguments update_reward_signals {Obs AdamState}.
Arguments policy_params {AdamState}.
Arguments value_params {AdamState}.
Arguments zero_grads {AdamState}.
Arguments adam_update {AdamState}.
Arguments optimizer_zero_grad {AdamState}.
Arguments optimizer_step {AdamState}.
Arguments backward {Obs AdamState}.
Arguments soft_update_target {AdamState}.
Arguments apply_gradients {AdamState}.
Arguments bindM {AdamState A B}.
Arguments ret {AdamState A}.
Arguments lift {AdamState A}.
Arguments get {AdamState}.
Arguments modify {AdamState}.
Arguments copy_normalizers {AdamState}.
Arguments run_call {Obs AdamState}.
Arguments run_calls {Obs AdamState}.

(** The calls of a successful [update], in the order the specification
    gives them: each optimizer is zeroed, fed by its own backward pass
    and stepped, and the target network is updated last. *)
Definition gradient_calls
    (policy_loss total_value_loss entropy_loss : tensor) : list torch_call :=
  [ ZeroGrad PolicyOptimizer; Backward PolicyLoss policy_loss;
    Step PolicyOptimizer;
    ZeroGrad ValueOptimizer; Backward TotalValueLoss total_value_loss;
    Step ValueOptimizer;
    ZeroGrad EntropyOptimizer; Backward EntropyLoss entropy_loss;
    Step EntropyOptimizer ].

Definition update_calls (tau : R)
    (policy_loss total_value_loss entropy_loss : tensor) : list torch_call :=
  gradient_calls policy_loss total_value_loss entropy_loss ++ [SoftUpdate tau].

(** Everything an optimizer step or a target update could change: the
    policy with its critic, the parameters of the twin Q-networks and of
    the target network, the entropy coefficient and the three optimizers.
    Only the normalization statistics are left out. *)
Definition same_learnable_state {AdamState : Type}
    (before after : TorchSACOptimizer AdamState) : Prop :=
  policy after = policy before
  /\ parameters (q1_network (value_network after))
     = parameters (q1_network (value_network before))
  /\ parameters (q2_network (value_network after))
     = parameters (q2_network (value_network before))
  /\ parameters (target_network after) = parameters (target_network before)
  /\ _log_ent_coef after = _log_ent_coef before
  /\ policy_optimizer after = policy_optimizer before
  /\ value_optimizer after = value_optimizer before
  /\ entropy_optimizer after = entropy_optimizer before.

(** Every real number is finite: the two tests of exact arithmetic. *)
Definition never (_ : R) : bool := false.

(** * The claims' own words *)

(** ** The Q-loss as the specification writes it *)

Definition mean (l : list R) : R := Rsum l / IZR (Z.of_nat (length l)).

(** The mean squared error between two vectors. *)
Definition mse (a b : list R) : R :=
  mean (map2 (fun x y => (x - y) * (x - y)) a b).

(** [backup = reward + (1 - u*d) * gamma * target_value], per time-step. *)
Fixpoint q_backup_spec (gamma u : R) (reward dones target_value : list R)
  : list R :=
  match reward, dones, target_value with
  | r :: reward', d :: dones', v :: target_value' =>
      (r + (1 - u * d) * gamma * v)
        :: q_backup_spec gamma u reward' dones' target_value'
  | _, _, _ => []
  end.

(** The squared errors of a batch, one per time-step. *)
Definition squared_errors (a b : list R) : list R :=
  map2 (fun x y => (x - y) * (x - y)) a b.

(** [loss_j = 0.5 * mean(mask * mse(backup, Q_j))], each time-step's
    squared error weighted by its own mask before the mean is taken, so
    that a step with mask 0 contributes nothing. *)
Definition q_stream_loss_spec (mask backup q : list R) : R :=
  0.5 * mean (map2 Rmult mask (squared_errors backup q)).

(** What the code computes instead: [mse_loss] has reduced the squared
    errors of all time-steps to their mean when the mask multiplies it. *)
Definition masked_mean_mse (mask backup q : list R) : R :=
  0.5 * mean (map (fun m => m * mse backup q) mask).

(** One reward stream: its name, discount, use-terminal flag, and the
    per-step rewards, target values and twin Q-estimates. *)
Record stream : Type := mkStream {
  s_name : string;
  s_gamma : R;
  s_use_dones : Z;
  s_reward : list R;
  s_target_value : list R;
  s_q1 : list R;
  s_q2 : list R
}.

(** A per-step quantity reaches [sac_q_loss] with shape [B] (continuous
    actions) or [B, 1] (condensed discrete Q-outputs). *)
Inductive layout : Type := Flat | Column.

Definition lay (l : layout) (v : list R) : tval :=
  match l with
  | Flat => T1 v
  | Column => T2 (map (fun x => [x]) v)
  end.

Definition stream_backup (dones : list R) (s : stream) : list R :=
  q_backup_spec (s_gamma s) (IZR (s_use_dones s)) (s_reward s) dones
    (s_target_value s).

Definition stream_dict {V : Type} (f : stream -> V) (ss : list stream)
  : dict V :=
  map (fun s => (s_name s, f s)) ss.

(** The loss of one stream as the specification writes it. *)
Definition stream_q1_loss_spec (masks dones : list R) (s : stream) : R :=
  q_stream_loss_spec masks (stream_backup dones s) (s_q1 s).

Definition stream_q2_loss_spec (masks dones : list R) (s : stream) : R :=
  q_stream_loss_spec masks (stream_backup dones s) (s_q2 s).

(** The loss of one stream as [sac_q_loss] computes it. *)
Definition stream_q1_loss (masks dones : list R) (s : stream) : R :=
  masked_mean_mse masks (stream_backup dones s) (s_q1 s).

Definition stream_q2_loss (masks dones : list R) (s : stream) : R :=
  masked_mean_mse masks (stream_backup dones s) (s_q2 s).

(** ** Polyak averaging as the specification writes it *)

(** [(1 - tau) * target + tau * source]. *)
Definition polyak (tau target source : R) : R :=
  (1 - tau) * target + tau * source.

(** Entry by entry on two tensors of one shape. *)
Definition zip_with (f : R -> R -> R) (a b : tval) : tval :=
  match a, b with
  | T0 x, T0 y => T0 (f x y)
  | T1 u, T1 v => T1 (map2 f u v)
  | T2 m, T2 n => T2 (map2 (map2 f) m n)
  | _, _ => a
  end.

Definition polyak_tensor (tau : R) (target source : tval) : tval :=
  zip_with (polyak tau) target source.

(** Two parameter tensors match when they have the same shape. *)
Definition same_shape (a b : tval) : Prop :=
  match a, b with
  | T0 _, T0 _ => True
  | T1 u, T1 v => length u = length v
  | T2 m, T2 n => Forall2 (fun r r' => length r = length r') m n
  | _, _ => False
  end.

(** ** Condensed Q-values as the specification writes them *)

(** The number of columns of a per-action tensor. *)
Definition total_actions (act_size : list Z) : nat :=
  fold_right (fun n acc => (Z.to_nat n + acc)%nat) 0%nat act_size.

(** The Q-value at the action selected in each branch: branch [i] starts
    at column [offsets[i]] of the row. *)
Definition selected_qs (act_size : list Z) (row : list R) (acts : list Z)
  : list R :=
  map (fun p => nth (fst p + Z.to_nat (snd p)) row 0)
      (zip (offsets act_size) acts).

(** Their mean over the branches. *)
Definition condensed_q (act_size : list Z) (row : list R) (acts : list Z)
  : R :=
  mean (selected_qs act_size row acts).

(** Branches with their index, column offset and cardinality. *)
Fixpoint branches_from (i o : nat) (act_size : list Z)
  : list (nat * nat * Z) :=
  match act_size with
  | [] => []
  | n :: act_size' =>
      (i, o, n) :: branches_from (S i) (o + Z.to_nat n) act_size'
  end.

Definition branches (act_size : list Z) : list (nat * nat * Z) :=
  branches_from 0 0 act_size.

(** The Q-value one sample selects in one branch. *)
Definition selected (b : nat * nat * Z) (p : list R * list Z) : R :=
  let '(i, o, _) := b in nth (o + Z.to_nat (nth i (snd p) 0%Z)) (fst p) 0.

(** A column tensor of shape [B, 1] holding one number per sample. *)
Definition column {A : Type} (f : A -> R) (samples : list A) : tval :=
  T2 (map (fun p => [f p]) samples).

(** What a valid sample offers to one branch: an index below its
    cardinality. *)
Definition action_ok (acts : list Z) (b : nat * nat * Z) : Prop :=
  exists a, nth_error acts (fst (fst b)) = Some a /\ (0 <= a < snd b)%Z.

Definition one_hot_row (n a : Z) : list R :=
  map (fun k => if Nat.eqb k (Z.to_nat a) then 1 else 0) (seq 0 (Z.to_nat n)).

Definition q_tensors (flag : bool) (q_rows : dict (list (list R)))
  : dict tensor :=
  map (fun kv => (fst kv, mkT (T2 (snd kv)) flag)) q_rows.

Definition datas (d : dict tensor) : dict tval :=
  map (fun kv => (fst kv, data (snd kv))) d.

(** * Concrete inputs *)

Definition vec (l : list R) : tensor := mkT (T1 l) false.
Definition out_vec (l : list R) : tensor := mkT (T1 l) true.

(** Two reward streams over a batch of two steps. *)
Definition demo_streams : list stream :=
  [ mkStream "extrinsic" 0.99 1 [1; 0] [2; 3] [1; 1] [0; 2];
    mkStream "curiosity" 0.9 0 [0; 1] [1; 1] [0; 0] [1; 0] ].

(** One stream, two steps, the second one padded: its mask is 0.  Both
    critics predict 0 everywhere and the target values are 0, so the
    backup is the reward; [padded_reward] is the reward of the padded
    step. *)
Definition q_loss_with_padded_reward (padded_reward : R)
  : result (tensor * tensor) :=
  sac_q_loss [("extrinsic", 1%Z)] [0.99]
    [("extrinsic", out_vec [0; 0])] [("extrinsic", out_vec [0; 0])]
    [("extrinsic", vec [0; 0])] (vec [0; 0])
    [("extrinsic", vec [0; padded_reward])]
    (vec [1; 0]).

(** One stream over two steps, the second one padded (mask 0) and
    terminal.  The backup is [2; 3]; the first critic predicts 0 and the
    second one 1 on both steps. *)
Definition demo_padded_batch : list stream :=
  [ mkStream "extrinsic" 0.5 1 [1; 3] [2; 4] [0; 0] [1; 1] ].

Definition q_loss_of_padded_batch : result (tensor * tensor) :=
  sac_q_loss (stream_dict s_use_dones demo_padded_batch)
    (map s_gamma demo_padded_batch)
    (stream_dict (fun s => out_vec (s_q1 s)) demo_padded_batch)
    (stream_dict (fun s => out_vec (s_q2 s)) demo_padded_batch)
    (stream_dict (fun s => vec (s_target_value s)) demo_padded_batch)
    (vec [0; 1])
    (stream_dict (fun s => vec (s_reward s)) demo_padded_batch)
    (vec [1; 0]).

(** A continuous-action optimizer with one reward stream and a batch of
    two steps.  The collaborators are stubs: the critics answer [q]
    everywhere, the policy's value head answers [v], every action has
    log-probability 0, a plain gradient step stands in for Adam, and only
    the entropy coefficient receives a gradient. *)
Definition demo_policy_of (continuous : bool) (act_size : list Z)
  : TorchPolicy :=
  mkTorchPolicy
    (mkActorCritic
       (mkNetwork [mkParam (T1 [1; 2]) None] [T1 [0; 0]])
       0
       [mkParam (T0 0) None]
       (mkNetwork [mkParam (T1 [3; 4]) None; mkParam (T0 1) None] []))
    act_size continuous false 1.

Definition demo_policy : TorchPolicy := demo_policy_of true [1%Z].

Definition demo_settings : TrainerSettings :=
  mkTrainerSettings (mkSACSettings 0.0003 0.005 1.0)
    [("extrinsic", mkRewardSignalSettings 0.99)].

Definition demo_reward_signals : dict RewardSignal :=
  [("extrinsic", mkRewardSignal true)].

Definition demo_q_network : Network :=
  mkNetwork [mkParam (T1 [0; 0]) None] [].

Definition demo_target_network : Network :=
  mkNetwork [mkParam (T1 [0; 0]) None; mkParam (T0 0) None] [].

Definition demo_init (continuous : bool) (act_size : list Z)
  : result (TorchSACOptimizer unit) :=
  __init__ (demo_policy_of continuous act_size) demo_settings
    demo_reward_signals demo_q_network demo_q_network demo_target_network.

Definition demo_log_ent_coef (n : nat) : TorchParameter :=
  mkParam (T1 (repeat 0 n)) None.

Definition demo_optimizer : TorchSACOptimizer unit :=
  mkTorchSACOptimizer 0.005 1.0 demo_policy [1%Z] 0.0 0.2 1.0
    demo_reward_signals ["extrinsic"] [0.99] [("extrinsic", 1%Z)]
    (mkPolicyValueNetwork demo_q_network demo_q_network)
    demo_target_network (demo_log_ent_coef 1)
    (TargetEntropyTensor (const (-1)))
    (mkOptimizer 0.0003 []) (mkOptimizer 0.0003 []) (mkOptimizer 0.0003 []).

Definition demo_batch : AgentBuffer unit :=
  mkAgentBuffer
    (fun key =>
       if String.eqb key "extrinsic_rewards" then T1 [1; 0]
       else if String.eqb key "masks" then T1 [1; 1]
       else if String.eqb key "done" then T1 [0; 1]
       else if String.eqb key "actions" then T2 [[0]; [0]]
       else T1 [])
    (fun _ => tt)
    [].

Definition demo_adam (lr : R) (s : unit) (p g : tval) : unit * tval :=
  (s, zip_with (fun x gx => x - lr * gx) p g).

Definition demo_QNetwork_forward (q : R) (_ : Network) (_ _ : list unit)
    (_ : option tensor) : dict tensor :=
  [("extrinsic", out_vec [q; q])].

Definition demo_Critic_forward (_ : Network) (_ _ : list unit)
  : dict tensor :=
  [("extrinsic", out_vec [0; 0])].

Definition demo_sample_actions (v : R) (_ : TorchPolicy) (_ _ : list unit)
    (_ : tval) (_ : option tval) (_ : Z) (_ : bool) : Sample :=
  mkSample (mkT (T2 [[0]; [0]]) true) (mkT (T2 [[0]; [0]]) true)
    (out_vec [0; 0]) [("extrinsic", out_vec [v; v])].

Definition demo_autograd (l : loss_id) (_ : tensor)
    (_ : TorchSACOptimizer unit) (_ : AgentBuffer unit) : Gradients :=
  mkGradients [] [] [] [] []
    (match l with EntropyLoss => Some (T1 [1]) | _ => None end).

(** The largest finite [float32]; a result beyond it is infinite. *)
Definition float32_max : R := 340282346638528859811704183484516925440.

Definition float32_isinf (x : R) : bool :=
  if Rlt_dec float32_max (Rabs x) then true else false.

Abbreviation demo_update isinf q v :=
  (update tt demo_adam isinf never (demo_QNetwork_forward q)
     demo_Critic_forward (demo_sample_actions v) demo_autograd
     demo_batch 1).

(** Discrete Q-outputs of one stream for two samples and five actions,
    read as two branches of 2 and 3 actions or as one branch of 5. *)
Definition demo_q_rows : dict (list (list R)) :=
  [("extrinsic", [[1; 2; 3; 4; 5]; [6; 7; 8; 9; 10]])].

Definition demo_actions_two_branches : list (list Z) :=
  [[0%Z; 2%Z]; [1%Z; 0%Z]].

Definition demo_actions_one_branch : list (list Z) := [[3%Z]; [0%Z]].

(** A discrete-action optimizer with two branches of two actions each,
    hence two entropy coefficients, on a batch of two steps.  The stub
    policy gives every action probability 1/2. *)
Definition demo_discrete_optimizer : TorchSACOptimizer unit :=
  mkTorchSACOptimizer 0.005 1.0 (demo_policy_of false [2%Z; 2%Z])
    [2%Z; 2%Z] 0.0 0.2 1.0
    demo_reward_signals ["extrinsic"] [0.99] [("extrinsic", 1%Z)]
    (mkPolicyValueNetwork demo_q_network demo_q_network)
    demo_target_network (demo_log_ent_coef 2)
    (TargetEntropyList [0.2 * ln 2; 0.2 * ln 2])
    (mkOptimizer 0.0003 []) (mkOptimizer 0.0003 []) (mkOptimizer 0.0003 []).

Definition demo_discrete_batch : AgentBuffer unit :=
  mkAgentBuffer
    (fun key =>
       if String.eqb key "extrinsic_rewards" then T1 [1; 0]
       else if String.eqb key "masks" then T1 [1; 1]
       else if String.eqb key "done" then T1 [0; 1]
       else if String.eqb key "actions" then T2 [[0; 1]; [1; 0]]
       else T1 [])
    (fun _ => tt)
    [].

Definition demo_discrete_QNetwork_forward (_ : Network) (_ _ : list unit)
    (_ : option tensor) : dict tensor :=
  [("extrinsic", mkT (T2 [[1; 2; 3; 4]; [5; 6; 7; 8]]) true)].

Definition demo_discrete_sample_actions (_ : TorchPolicy) (_ _ : list unit)
    (_ : tval) (_ : option tval) (_ : Z) (_ : bool) : Sample :=
  let lp := - ln 2 in
  mkSample (mkT (T2 [[0; 1]; [1; 0]]) false)
    (mkT (T2 [[lp; lp; lp; lp]; [lp; lp; lp; lp]]) true)
    (out_vec [0; 0]) [("extrinsic", out_vec [0; 0])].

Definition demo_no_gradients (_ : loss_id) (_ : tensor)
    (_ : TorchSACOptimizer unit) (_ : AgentBuffer unit) : Gradients :=
  mkGradients [] [] [] [] [] None.

Abbreviation demo_discrete_update :=
  (update tt demo_adam never never demo_discrete_QNetwork_forward
     demo_Critic_forward demo_discrete_sample_actions demo_no_gradients
     demo_discrete_batch 1).

(** ** Reading one entry of a parameter list *)

(** Entry [i] (in row-major order) of parameter [k]; [0] outside the
    list or the tensor. *)
Definition entry (params : list tval) (k i : nat) : R :=
  nth i (elems (nth k params (T0 0))) 0.

(** ** A batch seen step by step *)

(** A per-step quantity as a tensor of shape [B], and a per-step row as
    a tensor of shape [B, n]: entry [b] is the value at step [b]. *)
Definition vector {A : Type} (f : A -> R) (steps : list A) : tval :=
  T1 (map f steps).

Definition matrix {A : Type} (f : A -> list R) (steps : list A) : tval :=
  T2 (map f steps).

(** What one reward stream contributes to the value and policy losses:
    the value estimate and the twin Q-estimates of the sampled action,
    each as a function of the time-step. *)
Record value_stream (A : Type) : Type := mkValueStream {
  vs_name : string;
  vs_value : A -> R;
  vs_q1p : A -> R;
  vs_q2p : A -> R
}.
Arguments mkValueStream {A}.
Arguments vs_name {A}.
Arguments vs_value {A}.
Arguments vs_q1p {A}.
Arguments vs_q2p {A}.

Definition stream_tensors {A : Type} (f : value_stream A -> A -> R)
    (flag : bool) (steps : list A) (streams : list (value_stream A))
  : dict tensor :=
  map (fun s => (vs_name s, mkT (vector (f s) steps) flag)) streams.

(** A batch of two steps, the second one padded, for a continuous policy
    with two action dimensions and one reward stream.  [steps] lists the
    rewards that identify the steps. *)
Definition demo_steps : list R := [1; 5].

Definition demo_padded_steps : list R := [1; 7].

Definition demo_mask (p : R) : R := if Req_dec_T p 1 then 1 else 0.

Definition demo_lps (p : R) : list R := [- p; -2].

Definition demo_value_streams : list (value_stream R) :=
  [mkValueStream "extrinsic" (fun p => p) (fun p => 2 * p) (fun p => 3)].

(** ** What [update] leaves alone *)

(** The hyperparameters, the reward streams, the target entropy, the
    kind of action space and the learning rates of the optimizers. *)
Definition same_configuration {AdamState : Type}
    (before after : TorchSACOptimizer AdamState) : Prop :=
  tau after = tau before
  /\ init_entcoef after = init_entcoef before
  /\ act_size after = act_size before
  /\ reward_signals after = reward_signals before
  /\ stream_names after = stream_names before
  /\ gammas after = gammas before
  /\ use_dones_in_backup after = use_dones_in_backup before
  /\ target_entropy after = target_entropy before
  /\ policy_act_size (policy after) = policy_act_size (policy before)
  /\ use_continuous_act (policy after) = use_continuous_act (policy before)
  /\ sequence_length (policy after) = sequence_length (policy before)
  /\ lr (policy_optimizer after) = lr (policy_optimizer before)
  /\ lr (value_optimizer after) = lr (value_optimizer before)
  /\ lr (entropy_optimizer after) = lr (entropy_optimizer before).

(** The continuous-action optimizer for a policy whose
    [sequence_length] is 0. *)
Definition demo_optimizer_no_sequence : TorchSACOptimizer unit :=
  mkTorchSACOptimizer 0.005 1.0
    (mkTorchPolicy (actor_critic demo_policy) [1%Z] true false 0)
    [1%Z] 0.0 0.2 1.0
    demo_reward_signals ["extrinsic"] [0.99] [("extrinsic", 1%Z)]
    (mkPolicyValueNetwork demo_q_network demo_q_network)
    demo_target_network (demo_log_ent_coef 1)
    (TargetEntropyTensor (const (-1)))
    (mkOptimizer 0.0003 []) (mkOptimizer 0.0003 []) (mkOptimizer 0.0003 []).

(** ** Discrete actions, branch by branch *)

(** The entries of a per-action row that belong to one branch. *)
Definition branch_slice (b : nat * nat * Z) (row : list R) : list R :=
  firstn (Z.to_nat (snd b)) (skipn (snd (fst b)) row).

(** [sum_a p_a * log(p_a)] over the actions of one branch, from the row of
    log-probabilities: the negative of the branch's entropy. *)
Definition branch_neg_entropy (b : nat * nat * Z) (log_probs : list R) : R :=
  Rsum (map (fun l => l * exp l) (branch_slice b log_probs)).

(** Log-probabilities of a discrete policy with two branches of two
    actions each, every action having probability 1/2. *)
Definition demo_discrete_lps (p : R) : list R :=
  [- ln 2; - ln 2; - ln 2; - ln 2].

(** What one reward stream contributes to the losses for discrete
    actions: the value estimate per step, and the twin Q-estimates of
    every action per step. *)
Record discrete_stream (A : Type) : Type := mkDiscreteStream {
  ds_name : string;
  ds_value : A -> R;
  ds_q1p : A -> list R;
  ds_q2p : A -> list R
}.
Arguments mkDiscreteStream {A}.
Arguments ds_name {A}.
Arguments ds_value {A}.
Arguments ds_q1p {A}.
Arguments ds_q2p {A}.

(** [sum_a q_a * p_a] over the actions of one branch: the expectation
    of the Q-estimates under the policy, from the log-probabilities. *)
Definition expected_q (b : nat * nat * Z) (q log_probs : list R) : R :=
  Rsum (map2 Rmult (branch_slice b q) (map exp (branch_slice b log_probs))).

(** The log-coefficient of a branch is the entry at the branch's index. *)
Definition branch_log_coef (lcs : list R) (b : nat * nat * Z) : R :=
  nth (fst (fst b)) lcs 0.

(** The entrywise mean of rows that all have [n] entries. *)
Definition entrywise_mean (n : nat) (rows : list (list R)) : list R :=
  map (fun a => mean (map (fun r => nth a r 0) rows)) (seq 0 n).

(** One reward stream for the discrete policy with four actions. *)
Definition demo_discrete_streams : list (discrete_stream R) :=
  [mkDiscreteStream "extrinsic" (fun p => p)
     (fun p => [1; 2; 3; 4]) (fun p => [4; 3; 2; 1])].

(** * Facts about the tensor operations *)

(** A decimal literal such as [0.5] is read as [Q2R (5 # 10)]. *)
Ltac decimals := cbv [Q2R QArith_base.Qnum QArith_base.Qden].

Ltac tensor_eval :=
  cbv -[Rplus Rmult Rminus Rdiv Ropp Rinv IZR exp ln Rmin Rabs
        Rlt_dec Rle_dec trunc Q2R].

Lemma bind_ok {A B : Type} (m : result A) (k : A -> result B) (b : B) :
  bind m k = Ok b -> exists a, m = Ok a /\ k a = Ok b.
Proof. destruct m as [a|e]; simpl; [eauto | discriminate]. Qed.

Lemma map2_length {A B C : Type} (f : A -> B -> C) (l1 : list A) :
  forall l2, length l1 = length l2 -> length (map2 f l1 l2) = length l1.
Proof.
  induction l1 as [|a l1 IH]; intros [|b l2] H; simpl in *; try congruence.
  now rewrite IH by congruence.
Qed.

Lemma expand_same {A : Type} (l : list A) : expand (length l) l = Ok l.
Proof. unfold expand. now rewrite Nat.eqb_refl. Qed.

Lemma bsize_same (n : nat) : bsize n n = n.
Proof. unfold bsize. destruct (Nat.eqb_spec n 1); congruence. Qed.

Lemma bcast_vec_same (f : R -> R -> R) (u v : list R) :
  length u = length v -> bcast_vec f u v = Ok (map2 f u v).
Proof.
  intros H. unfold bcast_vec. rewrite <- H, bsize_same, expand_same.
  simpl. rewrite H at 1. now rewrite expand_same.
Qed.

Lemma map2_repeat_r {A B C : Type} (f : A -> B -> C) (y : B) (u : list A) :
  map2 f u (repeat y (length u)) = map (fun x => f x y) u.
Proof. induction u as [|a u IH]; simpl; [reflexivity | now rewrite IH]. Qed.

(** A vector against a one-element vector: the element is repeated. *)
Lemma bcast_vec_scalar_r (f : R -> R -> R) (u : list R) (y : R) :
  bcast_vec f u [y] = Ok (map (fun x => f x y) u).
Proof.
  unfold bcast_vec, bsize. simpl length.
  destruct (Nat.eqb_spec (length u) 1) as [E|E].
  - destruct u as [|a [|b u]]; simpl in E; try discriminate. reflexivity.
  - rewrite expand_same. simpl. unfold expand. simpl length.
    destruct (Nat.eqb_spec 1 (length u)) as [E'|_]; [congruence|].
    simpl. now rewrite map2_repeat_r.
Qed.

Lemma bcast2_T1_T1 (f : R -> R -> R) (u v : list R) :
  length u = length v -> bcast2 f (T1 u) (T1 v) = Ok (T1 (map2 f u v)).
Proof.
  intros H. unfold bcast2, bcast_rows. simpl.
  now rewrite bcast_vec_same by assumption.
Qed.

Lemma bcast2_T1_T0 (f : R -> R -> R) (u : list R) (y : R) :
  bcast2 f (T1 u) (T0 y) = Ok (T1 (map (fun x => f x y) u)).
Proof.
  unfold bcast2, bcast_rows. simpl. now rewrite bcast_vec_scalar_r.
Qed.

Lemma bcast2_T0_T0 (f : R -> R -> R) (x y : R) :
  bcast2 f (T0 x) (T0 y) = Ok (T0 (f x y)).
Proof. reflexivity. Qed.

(** * The Q-loss *)

Lemma elems_T1 (v : list R) : elems (T1 v) = v.
Proof. unfold elems. simpl. apply app_nil_r. Qed.

Lemma mean_all_T1 (v : list R) : mean_all (T1 v) = mean v.
Proof. unfold mean_all, numel, mean. now rewrite elems_T1. Qed.

Lemma concat_singletons (v : list R) : concat (map (fun x => [x]) v) = v.
Proof. induction v as [|x v IH]; simpl; [reflexivity | now rewrite IH]. Qed.

Lemma is_column_singletons (v : list R) :
  is_column (map (fun x => [x]) v) = true.
Proof. induction v as [|x v IH]; simpl; [reflexivity | exact IH]. Qed.

(** Whatever its layout, a squeezed per-step tensor meets a vector of the
    same length entry by entry. *)
Lemma bcast2_squeeze (f : R -> R -> R) (l : layout) (b v : list R) :
  length b = length v ->
  exists d, bcast2 f (T1 b) (squeeze (lay l v)) = Ok d
            /\ elems d = map2 f b v.
Proof.
  intros H.
  assert (Hsq : squeeze (lay l v) = match v with [x] => T0 x | _ => T1 v end).
  { destruct l; simpl.
    - destruct v as [|x [|y v]]; reflexivity.
    - destruct v as [|x [|y v]]; try reflexivity.
      simpl. rewrite is_column_singletons.
      now rewrite concat_singletons. }
  rewrite Hsq. destruct v as [|x [|y v]].
  - exists (T1 (map2 f b [])). split; [now apply bcast2_T1_T1 | apply elems_T1].
  - destruct b as [|b0 [|b1 b]]; simpl in H; try discriminate.
    exists (T1 [f b0 x]). split; reflexivity.
  - exists (T1 (map2 f b (x :: y :: v))).
    split; [now apply bcast2_T1_T1 | apply elems_T1].
Qed.

Lemma masked_half_mse_spec (l : layout) (fm fb fq : bool)
    (masks b v : list R) :
  length b = length v ->
  exists t, masked_half_mse (mkT (T1 masks) fm) (mkT (T1 b) fb)
              (t_squeeze (mkT (lay l v) fq)) = Ok t
            /\ data t = T0 (masked_mean_mse masks b v).
Proof.
  intros H.
  destruct (bcast2_squeeze (fun x y => (x - y) * (x - y)) l b v H)
    as (d & Hd & He).
  unfold masked_half_mse, mse_loss, lift2, t_squeeze. simpl.
  rewrite Hd. simpl. unfold t_mul, lift2. simpl.
  rewrite bcast2_T1_T0. simpl.
  eexists. split; [reflexivity|]. simpl.
  rewrite mean_all_T1. unfold masked_mean_mse, mse.
  unfold mean_all, numel, mean. now rewrite He.
Qed.

Lemma dict_get_stream {V : Type} (f : stream -> V) (ss : list stream) :
  NoDup (map s_name ss) ->
  forall s, In s ss -> dict_get (s_name s) (stream_dict f ss) = Ok (f s).
Proof.
  induction ss as [|a ss IH]; intros Hnd s Hin; [destruct Hin|].
  inversion Hnd as [|? ? Hnotin Hnd']; subst.
  simpl. destruct (String.eqb_spec (s_name s) (s_name a)) as [E|E].
  - destruct Hin as [->|Hin]; [reflexivity|].
    exfalso. apply Hnotin. rewrite <- E. now apply in_map.
  - destruct Hin as [->|Hin]; [congruence | now apply IH].
Qed.

Lemma q_backup_values (g u : R) (r d v : list R) :
  length r = length d -> length v = length d ->
  map2 Rplus r
    (map2 Rmult
       (map (fun x => x * g)
          (map (fun x => 1.0 - x) (map (fun x => u * x) d))) v)
  = q_backup_spec g u r d v.
Proof.
  revert d v. induction r as [|r0 r IH]; intros [|d0 d] [|v0 v] H1 H2;
    simpl in *; try discriminate; try reflexivity.
  f_equal; [lra | apply IH; congruence].
Qed.

Section QLoss.

Variable ss : list stream.
Variables dones masks : list R.
Variables l1 l2 : layout.
Variables f1 f2 ft fd fr fm : bool.

Hypothesis names_unique : NoDup (map s_name ss).
Hypothesis shapes :
  Forall (fun s => length (s_reward s) = length dones
                   /\ length (s_target_value s) = length dones
                   /\ length (s_q1 s) = length dones
                   /\ length (s_q2 s) = length dones) ss.

Let use_dones_in_backup := stream_dict s_use_dones ss.
Let gammas := map s_gamma ss.
Let q1_out := stream_dict (fun s => mkT (lay l1 (s_q1 s)) f1) ss.
Let q2_out := stream_dict (fun s => mkT (lay l2 (s_q2 s)) f2) ss.
Let target_values := stream_dict (fun s => mkT (T1 (s_target_value s)) ft) ss.
Let rewards := stream_dict (fun s => mkT (T1 (s_reward s)) fr) ss.
Let dones_t := mkT (T1 dones) fd.
Let masks_t := mkT (T1 masks) fm.

Lemma q_backup_stream (i : nat) (s : stream) :
  nth_error ss i = Some s ->
  q_backup use_dones_in_backup gammas target_values dones_t rewards i
    (s_name s)
  = Ok (mkT (T1 (stream_backup dones s)) false).
Proof.
  intros Hi. assert (Hin : In s ss) by (eapply nth_error_In; eauto).
  pose proof (proj1 (Forall_forall _ _) shapes s Hin) as (Hr & Hv & _).
  unfold q_backup, no_grad, rewards, use_dones_in_backup, target_values, gammas.
  rewrite (dict_get_stream _ ss names_unique s Hin). simpl.
  rewrite (dict_get_stream _ ss names_unique s Hin). simpl.
  unfold list_get. rewrite nth_error_map, Hi. simpl.
  rewrite (dict_get_stream _ ss names_unique s Hin). simpl.
  unfold t_mul, t_add, lift2. simpl.
  rewrite bcast2_T1_T1 by (rewrite !length_map; congruence). simpl.
  rewrite bcast2_T1_T1
    by (rewrite map2_length; rewrite !length_map; congruence).
  simpl. unfold stream_backup. now rewrite q_backup_values.
Qed.

Lemma q_backup_spec_length (g u : R) (r d v : list R) :
  length r = length d -> length v = length d ->
  length (q_backup_spec g u r d v) = length d.
Proof.
  revert d v. induction r as [|r0 r IH]; intros [|d0 d] [|v0 v] H1 H2;
    simpl in *; try discriminate; try reflexivity.
  f_equal. apply IH; congruence.
Qed.

Lemma sac_q_loss_loop_spec (suffix : list stream) :
  forall (pre : list stream) (acc1 acc2 : list tensor),
    ss = pre ++ suffix ->
    exists new1 new2,
      sac_q_loss_loop use_dones_in_backup gammas q1_out q2_out target_values
        dones_t rewards masks_t
        (enumerate_from (length pre) (map s_name suffix)) acc1 acc2
      = Ok (acc1 ++ new1, acc2 ++ new2)
      /\ map data new1 = map (fun s => T0 (stream_q1_loss masks dones s)) suffix
      /\ map data new2 = map (fun s => T0 (stream_q2_loss masks dones s)) suffix.
Proof.
  induction suffix as [|s suffix IH]; intros pre acc1 acc2 Hss.
  - exists [], []. simpl. rewrite !app_nil_r. auto.
  - assert (Hi : nth_error ss (length pre) = Some s).
    { rewrite Hss, nth_error_app2, Nat.sub_diag by lia. reflexivity. }
    assert (Hin : In s ss) by (eapply nth_error_In; eauto).
    pose proof (proj1 (Forall_forall _ _) shapes s Hin) as (Hr & Hv & H1 & H2).
    assert (Hb : length (stream_backup dones s) = length dones)
      by (apply q_backup_spec_length; assumption).
    simpl. unfold q1_out at 1, q2_out at 1.
    rewrite (dict_get_stream _ ss names_unique s Hin). simpl.
    rewrite (dict_get_stream _ ss names_unique s Hin). simpl.
    rewrite (q_backup_stream _ _ Hi). simpl.
    destruct (masked_half_mse_spec l1 fm false f1 masks
                (stream_backup dones s) (s_q1 s)) as (t1 & Ht1 & Hd1);
      [congruence|].
    destruct (masked_half_mse_spec l2 fm false f2 masks
                (stream_backup dones s) (s_q2 s)) as (t2 & Ht2 & Hd2);
      [congruence|].
    unfold masks_t at 1 2. rewrite Ht1. simpl. rewrite Ht2. simpl.
    destruct (IH (pre ++ [s]) (acc1 ++ [t1]) (acc2 ++ [t2]))
      as (n1 & n2 & Hloop & Hn1 & Hn2).
    { rewrite <- app_assoc. exact Hss. }
    rewrite length_app, Nat.add_comm in Hloop. simpl in Hloop.
    rewrite Hloop. exists (t1 :: n1), (t2 :: n2).
    rewrite <- !app_assoc. simpl.
    split; [reflexivity|]. rewrite Hd1, Hd2, Hn1, Hn2. auto.
Qed.

End QLoss.

Lemma stack_scalars (xs : list R) :
  xs <> [] -> stack (map T0 xs) = Ok (T1 xs).
Proof.
  intros Hne.
  assert (H : scalars_of (map T0 xs) = Ok xs).
  { clear Hne. induction xs as [|x xs IH]; simpl; [reflexivity|].
    now rewrite IH. }
  destruct xs as [|x xs]; [congruence|].
  change (stack (map T0 (x :: xs)))
    with (bind (scalars_of (map T0 (x :: xs))) (fun xs => Ok (T1 xs))).
  now rewrite H.
Qed.

Lemma t_stack_scalars (ts : list tensor) (xs : list R) :
  xs <> [] -> map data ts = map T0 xs ->
  exists t, t_stack ts = Ok t /\ data t = T1 xs.
Proof.
  intros Hne H. unfold t_stack. rewrite H, stack_scalars by assumption.
  simpl. eauto.
Qed.

(** For reward streams with unique names whose per-step tensors all
    have one entry per time-step, the bootstrap target of stream [i] is
    [reward_i + (1 - u_i*d) * gamma_i * v_i] and carries no gradient, and
    [sac_q_loss] returns, for each of the twin critics, the mean over the
    streams of [0.5 * mean(mask * MSE)], where [MSE] is the mean squared
    error over all the time-steps of the batch. *)
Lemma sac_q_loss_value (ss : list stream) (dones masks : list R)
    (l1 l2 : layout) (f1 f2 ft fd fr fm : bool) :
  ss <> [] ->
  NoDup (map s_name ss) ->
  Forall (fun s => length (s_reward s) = length dones
                   /\ length (s_target_value s) = length dones
                   /\ length (s_q1 s) = length dones
                   /\ length (s_q2 s) = length dones) ss ->
  let use_dones_in_backup := stream_dict s_use_dones ss in
  let gammas := map s_gamma ss in
  let q1_out := stream_dict (fun s => mkT (lay l1 (s_q1 s)) f1) ss in
  let q2_out := stream_dict (fun s => mkT (lay l2 (s_q2 s)) f2) ss in
  let target_values :=
    stream_dict (fun s => mkT (T1 (s_target_value s)) ft) ss in
  let rewards := stream_dict (fun s => mkT (T1 (s_reward s)) fr) ss in
  (forall i s,
      nth_error ss i = Some s ->
      q_backup use_dones_in_backup gammas target_values (mkT (T1 dones) fd)
        rewards i (s_name s)
      = Ok (mkT (T1 (q_backup_spec (s_gamma s) (IZR (s_use_dones s))
                       (s_reward s) dones (s_target_value s))) false))
  /\ exists q1_loss q2_loss,
      sac_q_loss use_dones_in_backup gammas q1_out q2_out target_values
        (mkT (T1 dones) fd) rewards (mkT (T1 masks) fm)
      = Ok (q1_loss, q2_loss)
      /\ data q1_loss = T0 (mean (map (stream_q1_loss masks dones) ss))
      /\ data q2_loss = T0 (mean (map (stream_q2_loss masks dones) ss)).
Proof.
  intros Hne Hnd Hsh. cbv zeta. split.
  - intros i s Hi.
    exact (q_backup_stream ss dones ft fd fr Hnd Hsh i s Hi).
  - destruct (sac_q_loss_loop_spec ss dones masks l1 l2 f1 f2 ft fd fr fm
                Hnd Hsh ss [] [] [] eq_refl) as (n1 & n2 & Hloop & H1 & H2).
    unfold sac_q_loss, enumerate, keys.
    replace (map fst (stream_dict (fun s => mkT (lay l1 (s_q1 s)) f1) ss))
      with (map s_name ss)
      by (unfold stream_dict; rewrite map_map; reflexivity).
    simpl in Hloop. rewrite Hloop. simpl.
    rewrite <- (map_map (stream_q1_loss masks dones) T0) in H1.
    rewrite <- (map_map (stream_q2_loss masks dones) T0) in H2.
    assert (Hne' : forall f : stream -> R, map f ss <> []).
    { intros f E. apply Hne. destruct ss; [reflexivity | discriminate]. }
    destruct (t_stack_scalars n1 _ (Hne' _) H1) as (t1 & Ht1 & Hd1).
    destruct (t_stack_scalars n2 _ (Hne' _) H2) as (t2 & Ht2 & Hd2).
    rewrite Ht1. simpl. rewrite Ht2. simpl.
    eexists _, _. split; [reflexivity|]. simpl.
    now rewrite Hd1, Hd2, !mean_all_T1.
Qed.

Lemma map2_ones_l (l : list R) (mask : list R) :
  length mask = length l -> Forall (fun m => m = 1) mask ->
  map2 Rmult mask l = l.
Proof.
  revert l. induction mask as [|m mask IH]; intros [|x l] H Hm;
    simpl in *; try discriminate; try reflexivity.
  inversion Hm as [|? ? H1 H2]; subst.
  f_equal; [lra | apply IH; [congruence | assumption]].
Qed.

Lemma Rsum_const (c : R) (mask : list R) :
  Forall (fun m => m = 1) mask ->
  Rsum (map (fun m => m * c) mask) = IZR (Z.of_nat (length mask)) * c.
Proof.
  induction 1 as [|m mask Hm _ IH].
  - simpl. lra.
  - cbn [map Rsum fold_right length]. fold (Rsum (map (fun m => m * c) mask)).
    rewrite IH, Nat2Z.inj_succ, succ_IZR, Hm. lra.
Qed.

(** On a batch without padding the two formulas agree: with every mask
    at 1, weighting the mean is weighting each step. *)
Lemma masked_mean_mse_unmasked (mask backup q : list R) :
  mask <> [] ->
  Forall (fun m => m = 1) mask ->
  length backup = length mask -> length q = length mask ->
  masked_mean_mse mask backup q = q_stream_loss_spec mask backup q.
Proof.
  intros Hne Hm Hb Hq. unfold masked_mean_mse, q_stream_loss_spec.
  f_equal. unfold squared_errors.
  rewrite map2_ones_l by (rewrite ?map2_length; try assumption; congruence).
  unfold mean at 1. rewrite Rsum_const, length_map by assumption.
  assert (Hn : IZR (Z.of_nat (length mask)) <> 0).
  { apply not_0_IZR. destruct mask; [congruence | simpl; lia]. }
  unfold mse. field. exact Hn.
Qed.

(** C3 (the code departs from the claim).  On a batch of two steps whose
    second step is padded, the bootstrap target is the one the claim
    gives, [reward + (1 - u*d) * gamma * v], here [2; 3], and carries no
    gradient; but the loss of the stream is not
    [0.5 * mean(mask * squared error)]: [mse_loss] has averaged the
    squared errors of both steps, the padded one included, when the mask
    multiplies it.  [sac_q_loss] returns 13/8 and 5/8 where the claim's
    formula gives 1 and 1/4. *)
Theorem sac_q_loss_masks_the_mean :
  q_backup (stream_dict s_use_dones demo_padded_batch)
    (map s_gamma demo_padded_batch)
    (stream_dict (fun s => vec (s_target_value s)) demo_padded_batch)
    (vec [0; 1])
    (stream_dict (fun s => vec (s_reward s)) demo_padded_batch)
    0 "extrinsic"
  = Ok (mkT (T1 (q_backup_spec 0.5 1 [1; 3] [0; 1] [2; 4])) false)
  /\ q_backup_spec 0.5 1 [1; 3] [0; 1] [2; 4] = [2; 3]
  /\ (exists q1_loss q2_loss,
         q_loss_of_padded_batch = Ok (q1_loss, q2_loss)
         /\ data q1_loss = T0 (13 / 8) /\ data q2_loss = T0 (5 / 8))
  /\ mean (map (stream_q1_loss_spec [1; 0] [0; 1]) demo_padded_batch) = 1
  /\ mean (map (stream_q2_loss_spec [1; 0] [0; 1]) demo_padded_batch) = 1 / 4.
Proof.
  split; [|split; [|split; [|split]]].
  - tensor_eval. apply (f_equal (fun l => Ok (mkT (T1 l) false))).
    f_equal; [|f_equal]; decimals; field.
  - simpl. f_equal; [|f_equal]; decimals; field.
  - eexists _, _. split; [tensor_eval; reflexivity|].
    split; simpl; f_equal; decimals; field.
  - cbv [demo_padded_batch map stream_q1_loss_spec q_stream_loss_spec
         squared_errors stream_backup q_backup_spec map2 mean Rsum
         fold_right length s_gamma s_use_dones s_reward s_target_value
         s_q1 s_q2].
    simpl. decimals. field.
  - cbv [demo_padded_batch map stream_q2_loss_spec q_stream_loss_spec
         squared_errors stream_backup q_backup_spec map2 mean Rsum
         fold_right length s_gamma s_use_dones s_reward s_target_value
         s_q1 s_q2].
    simpl. decimals. field.
Qed.

(** C1 (the code departs from the claim).  The Q-loss of a batch changes
    with the reward of a step whose loss mask is 0: [mse_loss] has already
    averaged the squared errors of all steps, padded ones included, when
    the mask is applied.  With the padded reward at 0 the loss is 0, with
    the padded reward at 5 it is 25/8. *)
Theorem sac_q_loss_padded_step_counts :
  (exists q1 q2, q_loss_with_padded_reward 0 = Ok (q1, q2)
                 /\ data q1 = T0 0 /\ data q2 = T0 0)
  /\ (exists q1 q2, q_loss_with_padded_reward 5 = Ok (q1, q2)
                    /\ data q1 = T0 (25 / 8) /\ data q2 = T0 (25 / 8)).
Proof.
  split; eexists _, _; (split; [tensor_eval; reflexivity|]);
    split; simpl; f_equal; decimals; field.
Qed.

(** * Polyak averaging *)

Lemma mapM_zip_rows (f : R -> R -> R) (m n : list (list R)) :
  Forall2 (fun r r' => length r = length r') m n ->
  mapM (fun p => bcast_vec f (fst p) (snd p)) (zip m n)
  = Ok (map2 (map2 f) m n).
Proof.
  induction 1 as [|r r' m n Hr _ IH]; simpl; [reflexivity|].
  now rewrite bcast_vec_same, IH by assumption.
Qed.

Lemma bcast2_T2_T2 (f : R -> R -> R) (m n : list (list R)) :
  Forall2 (fun r r' => length r = length r') m n ->
  bcast2 f (T2 m) (T2 n) = Ok (T2 (map2 (map2 f) m n)).
Proof.
  intros H. unfold bcast2, bcast_rows. simpl.
  rewrite <- (Forall2_length H), bsize_same, expand_same. simpl.
  rewrite (Forall2_length H) at 1. rewrite expand_same. simpl.
  now rewrite mapM_zip_rows.
Qed.

Lemma same_shape_refl (a : tval) : same_shape a a.
Proof.
  destruct a as [x|v|m]; simpl; auto.
  induction m; constructor; auto.
Qed.

Lemma same_shape_map_l (f : R -> R) (a b : tval) :
  same_shape a b -> same_shape (map_tval f a) b.
Proof.
  destruct a as [x|u|m], b as [y|v|n]; simpl; auto.
  - now rewrite length_map.
  - intros H. induction H; simpl; constructor; auto.
    now rewrite length_map.
Qed.

Lemma same_shape_sym (a b : tval) : same_shape a b -> same_shape b a.
Proof.
  destruct a as [x|u|m], b as [y|v|n]; simpl; auto.
  intros H. induction H; constructor; auto.
Qed.

Lemma bcast2_same (f : R -> R -> R) (a b : tval) :
  same_shape a b -> bcast2 f a b = Ok (zip_with f a b).
Proof.
  destruct a as [x|u|m], b as [y|v|n]; simpl; try contradiction; intros H.
  - reflexivity.
  - now apply bcast2_T1_T1.
  - now apply bcast2_T2_T2.
Qed.

Lemma map2_rows_length (f : R -> R -> R) (m n : list (list R)) :
  Forall2 (fun r r' => length r = length r') m n ->
  Forall2 (fun r r' => length r = length r') (map2 (map2 f) m n) m.
Proof.
  induction 1; simpl; constructor; auto. now apply map2_length.
Qed.

Lemma same_shape_zip_with (f : R -> R -> R) (a b : tval) :
  same_shape a b -> same_shape (zip_with f a b) a.
Proof.
  destruct a as [x|u|m], b as [y|v|n]; simpl; try contradiction; intros H.
  - exact I.
  - now apply map2_length.
  - now apply map2_rows_length.
Qed.

Lemma shape_eqb_refl (s : list nat) : shape_eqb s s = true.
Proof. induction s; simpl; [reflexivity | now rewrite Nat.eqb_refl]. Qed.

Lemma same_shape_shape (a b : tval) : same_shape a b -> shape a = shape b.
Proof.
  destruct a as [x|u|m], b as [y|v|n]; simpl; try contradiction; intros H.
  - reflexivity.
  - congruence.
  - destruct H as [|r r' m n Hr Hm]; simpl; [reflexivity|].
    now rewrite Hr, (Forall2_length Hm).
Qed.

Lemma map2_snd_blend (f g : R -> R) (t : list R) :
  forall s, length s = length t ->
    map2 (fun _ y => y) t (map2 Rplus (map f t) (map g s))
    = map2 (fun a b => f a + g b) t s.
Proof.
  induction t as [|a t IH]; intros [|b s] H; simpl in *; try discriminate;
    try reflexivity.
  f_equal. apply IH. congruence.
Qed.

Lemma map2_ext {A B C : Type} (f g : A -> B -> C) :
  (forall a b, f a b = g a b) ->
  forall l1 l2, map2 f l1 l2 = map2 g l1 l2.
Proof.
  intros H. induction l1 as [|a l1 IH]; intros [|b l2]; simpl; try reflexivity.
  now rewrite H, IH.
Qed.

Lemma polyak_code (tau a b : R) : a * (1.0 - tau) + b * tau = polyak tau a b.
Proof. unfold polyak. decimals. field. Qed.

(** One round of the loop on a matched pair. *)
Lemma soft_update_param_spec (source_param target_param : tval) (tau : R) :
  same_shape source_param target_param ->
  soft_update_param source_param target_param tau
  = Ok (polyak_tensor tau target_param source_param).
Proof.
  intros H. unfold soft_update_param, copy_.
  set (t' := map_tval (fun x => x * (1.0 - tau)) target_param).
  set (s' := map_tval (fun x => x * tau) source_param).
  assert (Hts : same_shape t' s').
  { apply same_shape_map_l, same_shape_sym, same_shape_map_l. exact H. }
  rewrite (bcast2_same _ _ _ Hts). simpl.
  assert (Htb : same_shape target_param (zip_with Rplus t' s')).
  { apply same_shape_sym.
    assert (Ht : same_shape t' target_param)
      by apply same_shape_map_l, same_shape_refl.
    pose proof (same_shape_zip_with Rplus _ _ Hts) as Hz.
    destruct (zip_with Rplus t' s') as [x|u|m], t' as [y|v|n],
      target_param as [z|w|o]; simpl in *; try contradiction; auto;
      try congruence.
    clear - Hz Ht. revert n o Hz Ht.
    induction m; intros n o Hz Ht; inversion Hz; subst;
      inversion Ht; subst; constructor; eauto. congruence. }
  rewrite (bcast2_same _ _ _ Htb). simpl.
  rewrite (same_shape_shape _ _ (same_shape_zip_with _ _ _ Htb)).
  rewrite shape_eqb_refl. f_equal.
  subst t' s'. unfold polyak_tensor.
  destruct source_param as [x|u|m], target_param as [z|w|o];
    simpl in *; try contradiction.
  - now rewrite polyak_code.
  - rewrite map2_snd_blend by assumption. f_equal.
    apply map2_ext. intros; apply polyak_code.
  - f_equal. clear Hts Htb. induction H as [|r r' m o Hr _ IH]; simpl;
      [reflexivity|].
    rewrite map2_snd_blend by assumption. f_equal; [|exact IH].
    apply map2_ext. intros; apply polyak_code.
Qed.

Lemma soft_update_matched (source target : list tval) (tau : R) :
  Forall2 same_shape source target ->
  soft_update source target tau = (map2 (polyak_tensor tau) target source, None).
Proof.
  induction 1 as [|s t source target Hst _ IH]; simpl; [reflexivity|].
  now rewrite soft_update_param_spec, IH by assumption.
Qed.

Lemma map2_fst {A B : Type} (l1 : list A) :
  forall l2 : list B, length l1 = length l2 -> map2 (fun a _ => a) l1 l2 = l1.
Proof.
  induction l1 as [|a l1 IH]; intros [|b l2] H; simpl in *; try discriminate;
    try reflexivity.
  f_equal. apply IH. congruence.
Qed.

Lemma map2_snd {A B : Type} (l1 : list A) :
  forall l2 : list B, length l1 = length l2 -> map2 (fun _ b => b) l1 l2 = l2.
Proof.
  induction l1 as [|a l1 IH]; intros [|b l2] H; simpl in *; try discriminate;
    try reflexivity.
  f_equal. apply IH. congruence.
Qed.

Lemma polyak_tensor_1 (t s : tval) :
  same_shape s t -> polyak_tensor 1.0 t s = s.
Proof.
  assert (E : forall a b, polyak 1.0 a b = b) by (intros; unfold polyak; decimals; field).
  destruct s as [x|u|m], t as [z|w|o]; simpl; try contradiction; intros H.
  - now rewrite E.
  - rewrite (map2_ext _ (fun _ b => b) E). f_equal. apply map2_snd. congruence.
  - f_equal. induction H as [|r r' m o Hr _ IH]; simpl; [reflexivity|].
    rewrite (map2_ext _ (fun _ b => b) E), map2_snd by congruence.
    now rewrite IH.
Qed.

Lemma polyak_tensor_0 (t s : tval) :
  same_shape s t -> polyak_tensor 0.0 t s = t.
Proof.
  assert (E : forall a b, polyak 0.0 a b = a) by (intros; unfold polyak; decimals; field).
  destruct s as [x|u|m], t as [z|w|o]; simpl; try contradiction; intros H.
  - now rewrite E.
  - rewrite (map2_ext _ (fun a _ => a) E). f_equal. apply map2_fst. congruence.
  - f_equal. induction H as [|r r' m o Hr _ IH]; simpl; [reflexivity|].
    rewrite (map2_ext _ (fun a _ => a) E), map2_fst by congruence.
    now rewrite IH.
Qed.

Lemma map2_polyak_1 (source target : list tval) :
  Forall2 same_shape source target ->
  map2 (polyak_tensor 1.0) target source = source.
Proof.
  induction 1 as [|s t source target Hst _ IH]; simpl; [reflexivity|].
  now rewrite polyak_tensor_1, IH.
Qed.

Lemma map2_polyak_0 (source target : list tval) :
  Forall2 same_shape source target ->
  map2 (polyak_tensor 0.0) target source = target.
Proof.
  induction 1 as [|s t source target Hst _ IH]; simpl; [reflexivity|].
  now rewrite polyak_tensor_0, IH.
Qed.

Lemma set_datas_data (ps : list TorchParameter) :
  forall ds, length ds = length ps -> map p_data (set_datas ps ds) = ds.
Proof.
  induction ps as [|p ps IH]; intros [|d ds] H; simpl in *; try discriminate;
    try reflexivity.
  f_equal. apply IH. congruence.
Qed.

(** C4.  On parameter-matched networks [soft_update] never raises and
    sets every target parameter, entry by entry, to
    [(1 - tau) * target + tau * source]; with [tau = 1.0] the new target
    equals the source, which is how [__init__] copies the initial critic
    weights into the target network, and with [tau = 0.0] the target is
    unchanged. *)
Theorem soft_update_spec (source target : list tval) (tau : R) :
  Forall2 same_shape source target ->
  soft_update source target tau
  = (map2 (polyak_tensor tau) target source, None)
  /\ soft_update source target 1.0 = (source, None)
  /\ soft_update source target 0.0 = (target, None)
  /\ forall (AdamState : Type) policy trainer_params reward_signals
            q1 q2 fresh (self : TorchSACOptimizer AdamState),
      map p_data (parameters (critic (actor_critic policy))) = source ->
      map p_data (parameters fresh) = target ->
      __init__ policy trainer_params reward_signals q1 q2 fresh = Ok self ->
      map p_data (parameters (target_network self)) = source.
Proof.
  intros H.
  assert (H1 : soft_update source target 1.0 = (source, None))
    by now rewrite soft_update_matched, map2_polyak_1.
  repeat split.
  - now apply soft_update_matched.
  - exact H1.
  - now rewrite soft_update_matched, map2_polyak_0.
  - intros AdamState policy trainer_params reward_signals q1 q2 fresh self
      Hs Ht Hinit.
    unfold __init__ in Hinit.
    apply bind_ok in Hinit. destruct Hinit as (ud & _ & Hinit).
    apply bind_ok in Hinit. destruct Hinit as (tn & Htn & Hinit).
    apply bind_ok in Hinit. destruct Hinit as (te & _ & Hinit).
    injection Hinit as <-. simpl.
    unfold soft_update_modules in Htn. rewrite Hs, Ht, H1 in Htn.
    injection Htn as <-. simpl.
    apply set_datas_data.
    rewrite (Forall2_length H), <- Ht. apply length_map.
Qed.

Lemma soft_update_spec_witness :
  let source := map p_data (parameters (critic (actor_critic demo_policy))) in
  let target := map p_data (parameters demo_target_network) in
  Forall2 same_shape source target
  /\ soft_update source target 1.0 = (source, None)
  /\ exists self,
      demo_init true [1%Z] = Ok self
      /\ map p_data (parameters (target_network self)) = source.
Proof.
  cbv zeta.
  assert (H : Forall2 same_shape
                (map p_data (parameters (critic (actor_critic demo_policy))))
                (map p_data (parameters demo_target_network))).
  { simpl. repeat constructor. }
  split; [exact H|].
  destruct (soft_update_spec _ _ 0.005 H) as (_ & H1 & _ & Hinit).
  split; [exact H1|].
  destruct (demo_init true [1%Z]) as [self|e] eqn:E.
  - exists self. split; [reflexivity|].
    exact (Hinit unit demo_policy _ _ _ _ _ self eq_refl eq_refl E).
  - exfalso. revert E. unfold demo_init. tensor_eval. discriminate.
Defined.

(** * The target entropy *)

(** C5.  The target entropy fixed by [__init__] is [-1.0 * d] for a
    continuous action space whose [act_size] starts with the
    dimensionality [d], and for discrete actions it is the list holding
    [0.2 * log(n)] for each branch of cardinality [n]. *)
Theorem target_entropy_spec (AdamState : Type) (policy : TorchPolicy)
    (trainer_params : TrainerSettings) (reward_signals : dict RewardSignal)
    (q1 q2 fresh : Network) (self : TorchSACOptimizer AdamState) :
  __init__ policy trainer_params reward_signals q1 q2 fresh = Ok self ->
  (use_continuous_act policy = true ->
   forall d rest, policy_act_size policy = d :: rest ->
     target_entropy self = TargetEntropyTensor (const (-1.0 * IZR d)))
  /\ (use_continuous_act policy = false ->
      Forall (fun n => (0 < n)%Z) (policy_act_size policy) ->
      target_entropy self
      = TargetEntropyList
          (map (fun n => 0.2 * ln (IZR n)) (policy_act_size policy))).
Proof.
  intros Hinit. unfold __init__ in Hinit.
  apply bind_ok in Hinit. destruct Hinit as (ud & _ & Hinit).
  apply bind_ok in Hinit. destruct Hinit as (tn & _ & Hinit).
  apply bind_ok in Hinit. destruct Hinit as (te & Hte & Hinit).
  injection Hinit as <-. simpl. split.
  - intros Hc d rest Hact. rewrite Hc, Hact in Hte. simpl in Hte.
    injection Hte as <-. do 2 f_equal. unfold const. f_equal. f_equal.
    decimals. field.
  - intros Hc _. rewrite Hc in Hte. now injection Hte as <-.
Qed.

Lemma target_entropy_spec_witness :
  (exists self,
      demo_init true [3%Z] = Ok self
      /\ target_entropy self = TargetEntropyTensor (const (-1.0 * 3)))
  /\ (exists self,
         demo_init false [2%Z; 3%Z] = Ok self
         /\ target_entropy self
            = TargetEntropyList [0.2 * ln 2; 0.2 * ln 3]).
Proof.
  split.
  - destruct (demo_init true [3%Z]) as [self|e] eqn:E.
    + exists self. split; [reflexivity|]. unfold demo_init in E.
      exact (proj1 (target_entropy_spec unit _ _ _ _ _ _ self E)
               eq_refl 3%Z [] eq_refl).
    + exfalso. revert E. unfold demo_init. tensor_eval. discriminate.
  - destruct (demo_init false [2%Z; 3%Z]) as [self|e] eqn:E.
    + exists self. split; [reflexivity|]. unfold demo_init in E.
      refine (proj2 (target_entropy_spec unit _ _ _ _ _ _ self E) eq_refl _).
      simpl. repeat constructor.
    + exfalso. revert E. unfold demo_init. tensor_eval. discriminate.
Defined.

(** * Condensing discrete Q-outputs *)

Lemma Rsum_zero_products (slice : list R) :
  forall s j, (j < s)%nat ->
    Rsum (map2 Rmult
            (map (fun k => if Nat.eqb k j then 1 else 0) (seq s (length slice)))
            slice) = 0.
Proof.
  induction slice as [|x slice IH]; intros s j Hj; simpl; [reflexivity|].
  destruct (Nat.eqb_spec s j); [lia|].
  rewrite IH by lia. lra.
Qed.

(** The sum of a one-hot row times a slice picks one entry of the slice. *)
Lemma one_hot_dot (slice : list R) :
  forall s j, (s <= j < s + length slice)%nat ->
    Rsum (map2 Rmult
            (map (fun k => if Nat.eqb k j then 1 else 0) (seq s (length slice)))
            slice) = nth (j - s) slice 0.
Proof.
  induction slice as [|x slice IH]; intros s j Hj; simpl in *; [lia|].
  destruct (Nat.eqb_spec s j) as [->|Hne].
  - rewrite Nat.sub_diag, Rsum_zero_products by lia. lra.
  - rewrite IH by lia.
    replace (j - s)%nat with (S (j - S s)) by lia. simpl. lra.
Qed.

Lemma nth_firstn_lt (l : list R) :
  forall n a, (a < n)%nat -> nth a (firstn n l) 0 = nth a l 0.
Proof.
  induction l as [|x l IH]; intros n a Ha.
  - now rewrite firstn_nil.
  - destruct n as [|n]; [lia|]. destruct a as [|a]; simpl; [reflexivity|].
    apply IH. lia.
Qed.

Lemma nth_skipn_add (o : nat) :
  forall (l : list R) a, nth a (skipn o l) 0 = nth (o + a) l 0.
Proof.
  induction o as [|o IH]; intros l a; [reflexivity|].
  destruct l as [|x l]; simpl; [now destruct a | apply IH].
Qed.

Lemma nth_slice (o n a : nat) (row : list R) :
  (a < n)%nat -> nth a (firstn n (skipn o row)) 0 = nth (o + a) row 0.
Proof. intros Ha. now rewrite nth_firstn_lt, nth_skipn_add. Qed.

Lemma length_slice (o n : nat) (row : list R) :
  (o + n <= length row)%nat -> length (firstn n (skipn o row)) = n.
Proof. intros H. rewrite length_firstn, length_skipn. lia. Qed.

Lemma zip_map {A B C : Type} (f : A -> B) (g : A -> C) (l : list A) :
  zip (map f l) (map g l) = map (fun x => (f x, g x)) l.
Proof. induction l as [|a l IH]; simpl; [reflexivity | now rewrite IH]. Qed.

Lemma map2_zip {A B C : Type} (f : A -> B -> C) (l1 : list A) :
  forall l2, map2 f l1 l2 = map (fun p => f (fst p) (snd p)) (zip l1 l2).
Proof.
  induction l1 as [|a l1 IH]; intros [|b l2]; simpl; try reflexivity.
  now rewrite IH.
Qed.

Lemma mapM_ok {A B : Type} (f : A -> result B) (g : A -> B) (l : list A) :
  (forall a, In a l -> f a = Ok (g a)) -> mapM f l = Ok (map g l).
Proof.
  induction l as [|a l IH]; intros H; simpl; [reflexivity|].
  rewrite (H a) by now left. simpl.
  rewrite IH by (intros; apply H; now right). reflexivity.
Qed.

Lemma mapM_map {A B C : Type} (h : A -> B) (f : B -> result C) (l : list A) :
  mapM f (map h l) = mapM (fun a => f (h a)) l.
Proof. induction l as [|a l IH]; simpl; [reflexivity | now rewrite IH]. Qed.

Lemma enumerate_branches (act_size : list Z) :
  forall i o, enumerate_from i act_size
              = map (fun b => (fst (fst b), snd b)) (branches_from i o act_size).
Proof.
  induction act_size as [|n l IH]; intros i o; simpl; [reflexivity|].
  now rewrite (IH (S i) (o + Z.to_nat n)%nat).
Qed.

Lemma offsets_branches (act_size : list Z) :
  forall i o, zip (cumsum_from o (map Z.to_nat act_size)) act_size
              = map (fun b => (snd (fst b), snd b)) (branches_from i o act_size).
Proof.
  induction act_size as [|n l IH]; intros i o; simpl; [reflexivity|].
  now rewrite (IH (S i) (o + Z.to_nat n)%nat).
Qed.

Lemma length_branches (act_size : list Z) :
  forall i o, length (branches_from i o act_size) = length act_size.
Proof.
  induction act_size as [|n l IH]; intros i o; simpl; [reflexivity|].
  now rewrite IH.
Qed.

Lemma actions_ok (act_size : list Z) :
  forall pre acts o,
    Forall2 (fun a n => (0 <= a < n)%Z) acts act_size ->
    Forall (action_ok (pre ++ acts)) (branches_from (length pre) o act_size).
Proof.
  induction act_size as [|n l IH]; intros pre acts o H; simpl; [constructor|].
  inversion H as [|a ? acts' ? Ha H']; subst. constructor.
  - exists a. simpl. split; [|exact Ha].
    rewrite nth_error_app2, Nat.sub_diag by lia. reflexivity.
  - specialize (IH (pre ++ [a]) acts' (o + Z.to_nat n)%nat H').
    rewrite <- app_assoc, length_app, Nat.add_comm in IH. exact IH.
Qed.

Lemma rows_fit (act_size : list Z) :
  forall i o, Forall (fun b => snd (fst b) + Z.to_nat (snd b)
                               <= o + total_actions act_size)%nat
                (branches_from i o act_size).
Proof.
  induction act_size as [|n l IH]; intros i o; simpl; [constructor|].
  constructor; [simpl; lia|].
  eapply Forall_impl; [|apply (IH (S i) (o + Z.to_nat n)%nat)].
  intros b Hb. simpl in Hb. lia.
Qed.

Lemma selected_branches (act_size : list Z) (row : list R) :
  forall pre acts o,
    length acts = length act_size ->
    map (fun b => selected b (row, pre ++ acts))
        (branches_from (length pre) o act_size)
    = map (fun p => nth (fst p + Z.to_nat (snd p)) row 0)
          (zip (cumsum_from o (map Z.to_nat act_size)) acts).
Proof.
  induction act_size as [|n l IH]; intros pre [|a acts] o H; simpl in *;
    try discriminate; try reflexivity.
  f_equal.
  - rewrite nth_middle. reflexivity.
  - specialize (IH (pre ++ [a]) acts (o + Z.to_nat n)%nat).
    rewrite <- app_assoc, length_app, Nat.add_comm in IH. simpl in IH.
    apply IH. congruence.
Qed.

Lemma mapM_ok_ex {A B : Type} (f : A -> result B) (P : A -> B -> Prop)
    (l : list A) :
  (forall a, In a l -> exists b, f a = Ok b /\ P a b) ->
  exists bs, mapM f l = Ok bs /\ Forall2 P l bs.
Proof.
  induction l as [|a l IH]; intros H; simpl.
  - exists []. split; [reflexivity | constructor].
  - destruct (H a (or_introl eq_refl)) as (b & Hb & HP).
    destruct IH as (bs & Hbs & HF); [intros; apply H; now right|].
    exists (b :: bs). rewrite Hb. simpl. rewrite Hbs. simpl.
    split; [reflexivity | now constructor].
Qed.

Lemma actions_to_onehot_ok (act_size : list Z) (discrete_actions : list (list Z)) :
  Forall (fun acts => Forall2 (fun a n => (0 <= a < n)%Z) acts act_size)
    discrete_actions ->
  actions_to_onehot discrete_actions act_size
  = Ok (map (fun b =>
               mkT (T2 (map (fun acts =>
                               one_hot_row (snd b)
                                 (nth (fst (fst b)) acts 0%Z))
                            discrete_actions)) false)
            (branches act_size)).
Proof.
  intros H. unfold actions_to_onehot, enumerate, branches.
  rewrite (enumerate_branches act_size 0 0), mapM_map.
  apply mapM_ok. intros b Hb. simpl.
  rewrite (mapM_ok _ (fun acts => one_hot_row (snd b)
                                    (nth (fst (fst b)) acts 0%Z))).
  - reflexivity.
  - intros acts Hacts.
    pose proof (proj1 (Forall_forall _ _) H acts Hacts) as Hv.
    pose proof (actions_ok act_size [] acts 0 Hv) as Hok.
    destruct (proj1 (Forall_forall _ _) Hok b Hb) as (a & Ha & Hr).
    unfold list_get. simpl in Ha. rewrite Ha. simpl.
    rewrite (nth_error_nth _ _ _ Ha). unfold one_hot.
    destruct (Z.leb_spec 0 a); [|lia].
    destruct (Z.ltb_spec a (snd b)); [|lia]. reflexivity.
Qed.

Lemma break_into_branches_ok (rows : list (list R)) (f : bool)
    (act_size : list Z) :
  break_into_branches (mkT (T2 rows) f) act_size
  = Ok (map (fun b =>
               mkT (T2 (map (fun row => firstn (Z.to_nat (snd b))
                                          (skipn (snd (fst b)) row)) rows)) f)
            (branches act_size)).
Proof.
  unfold break_into_branches, offsets, branches. simpl.
  now rewrite (offsets_branches act_size 0 0), map_map.
Qed.

Lemma length_one_hot_row (n a : Z) : length (one_hot_row n a) = Z.to_nat n.
Proof. unfold one_hot_row. now rewrite length_map, length_seq. Qed.

Section Branch.

Variable b : nat * nat * Z.
Let i := fst (fst b).
Let o := snd (fst b).
Let n := snd b.

Let hot (acts : list Z) : list R := one_hot_row n (nth i acts 0%Z).
Let slice (row : list R) : list R := firstn (Z.to_nat n) (skipn o row).

Lemma dot_rows (rows : list (list R)) :
  forall actions,
    Forall (fun acts => action_ok acts b) actions ->
    Forall (fun row => o + Z.to_nat n <= length row)%nat rows ->
    map (fun r => [Rsum r]) (map2 (map2 Rmult) (map hot actions) (map slice rows))
    = map (fun p => [selected b p]) (zip rows actions).
Proof.
  induction rows as [|row rows IH]; intros [|acts actions] Ha Hr; simpl;
    try reflexivity.
  inversion Ha as [|? ? (a & Hnth & Hrange) Ha']; subst.
  inversion Hr as [|? ? Hfit Hr']; subst.
  rewrite IH by assumption. do 2 f_equal.
  unfold hot, slice, one_hot_row.
  fold i in Hnth. rewrite (nth_error_nth _ _ _ Hnth).
  assert (Hlen : length (firstn (Z.to_nat n) (skipn o row)) = Z.to_nat n)
    by now apply length_slice.
  rewrite <- Hlen at 1. rewrite one_hot_dot by (rewrite Hlen; fold n in Hrange; lia).
  rewrite Nat.sub_0_r, nth_slice by (fold n in Hrange; lia).
  unfold selected. destruct b as [[i' o'] n']. simpl in *.
  now rewrite (nth_error_nth _ _ _ Hnth).
Qed.

Lemma rows_agree (rows : list (list R)) :
  forall actions,
    length rows = length actions ->
    Forall (fun row => o + Z.to_nat n <= length row)%nat rows ->
    Forall2 (fun r r' => length r = length r')
      (map hot actions) (map slice rows).
Proof.
  induction rows as [|row rows IH]; intros [|acts actions] Hl Hr; simpl in *;
    try discriminate; constructor.
  - inversion Hr; subst. unfold hot, slice.
    now rewrite length_one_hot_row, length_slice.
  - inversion Hr; subst. apply IH; [congruence | assumption].
Qed.

Lemma branch_term (rows : list (list R)) (actions : list (list Z)) (f : bool) :
  length rows = length actions ->
  Forall (fun acts => action_ok acts b) actions ->
  Forall (fun row => o + Z.to_nat n <= length row)%nat rows ->
  bind (t_mul (mkT (T2 (map hot actions)) false) (mkT (T2 (map slice rows)) f))
       t_sum_dim1_keepdim
  = Ok (mkT (column (selected b) (zip rows actions)) f).
Proof.
  intros Hl Ha Hr. unfold t_mul, lift2. simpl.
  rewrite bcast2_T2_T2 by now apply rows_agree. simpl.
  unfold t_sum_dim1_keepdim, lift_r. simpl.
  now rewrite dot_rows.
Qed.

End Branch.

Lemma shape_column {A : Type} (f : A -> R) (samples : list A) :
  shape (column f samples)
  = [length samples; match samples with [] => 0 | _ :: _ => 1 end]%nat.
Proof. unfold column. simpl. rewrite length_map. now destruct samples. Qed.

Lemma add_columns {A : Type} (f g : A -> R) (samples : list A) :
  bcast2 Rplus (column f samples) (column g samples)
  = Ok (column (fun p => f p + g p) samples).
Proof.
  unfold column. rewrite bcast2_T2_T2.
  - do 2 f_equal. induction samples as [|p l IH]; simpl; [reflexivity|].
    now rewrite IH.
  - induction samples; simpl; constructor; auto.
Qed.

Lemma sum_columns {A : Type} (samples : list A) (sels : list (A -> R)) :
  forall acc,
    sum_slices (column acc samples) (map (fun s => column s samples) sels)
    = Ok (column (fun p => fold_left (fun x s => x + s p) sels (acc p))
            samples).
Proof.
  induction sels as [|s sels IH]; intros acc; simpl; [reflexivity|].
  rewrite add_columns. simpl. now rewrite IH.
Qed.

Lemma fold_left_Rsum {A : Type} (p : A) (sels : list (A -> R)) :
  forall acc,
    fold_left (fun x s => x + s p) sels acc
    = acc + Rsum (map (fun s => s p) sels).
Proof.
  induction sels as [|s sels IH]; intros acc; simpl; [lra|].
  rewrite IH. lra.
Qed.

Lemma stack_columns {A : Type} (samples : list A) (sels : list (A -> R)) :
  sels <> [] ->
  stack_slices (map (fun s => column s samples) sels)
  = Ok (map (fun s => column s samples) sels).
Proof.
  destruct sels as [|s0 sels]; [congruence|]. intros _.
  assert (E : forallb (fun u => shape_eqb (shape u)
                                 (shape (column s0 samples)))
                (map (fun s => column s samples) sels) = true).
  { apply forallb_forall. intros t Ht.
    apply in_map_iff in Ht. destruct Ht as (s & <- & _).
    rewrite !shape_column. apply shape_eqb_refl. }
  unfold stack_slices. simpl map. cbv iota beta. now rewrite E.
Qed.

(** The mean over dimension 0 of stacked columns is the column of means. *)
Lemma mean_columns {A : Type} (samples : list A) (sels : list (A -> R)) :
  sels <> [] ->
  mean_dim0 (map (fun s => column s samples) sels)
  = Ok (column (fun p => mean (map (fun s => s p) sels)) samples).
Proof.
  destruct sels as [|s0 sels]; [congruence|]. intros _.
  simpl map. unfold mean_dim0. rewrite sum_columns. simpl.
  unfold column. simpl. do 2 f_equal. rewrite map_map.
  apply map_ext. intros p. f_equal. unfold mean. simpl.
  rewrite fold_left_Rsum, !length_map. reflexivity.
Qed.

Lemma in_zip {A B : Type} (l1 : list A) :
  forall (l2 : list B) p, In p (zip l1 l2) -> In (fst p) l1 /\ In (snd p) l2.
Proof.
  induction l1 as [|a l1 IH]; intros [|b l2] p H; simpl in *; try contradiction.
  destruct H as [<-|H]; [simpl; auto|].
  destruct (IH l2 p H). auto.
Qed.

Section Condense.

Variable act_size : list Z.
Variable discrete_actions : list (list Z).
Hypothesis some_branch : act_size <> [].
Hypothesis valid_actions :
  Forall (fun acts => Forall2 (fun a n => (0 <= a < n)%Z) acts act_size)
    discrete_actions.

Lemma condense_item (key : string) (rows : list (list R)) (flag : bool) :
  length rows = length discrete_actions ->
  Forall (fun row => length row = total_actions act_size) rows ->
  exists t,
    (branched_q <- break_into_branches (mkT (T2 rows) flag) act_size ;;
     terms <- mapM (fun p => prod <- t_mul (fst p) (snd p) ;;
                             t_sum_dim1_keepdim prod)
                (zip (map (fun b =>
                             mkT (T2 (map (fun acts =>
                                             one_hot_row (snd b)
                                               (nth (fst (fst b)) acts 0%Z))
                                          discrete_actions)) false)
                          (branches act_size))
                     branched_q) ;;
     only_action_qs <- t_stack_slices terms ;;
     condensed <- t_mean_dim0 only_action_qs ;;
     Ok (key, condensed)) = Ok (key, t)
    /\ data t = T2 (map2 (fun row acts => [condensed_q act_size row acts])
                      rows discrete_actions).
Proof.
  intros Hlen Hrows.
  set (samples := zip rows discrete_actions).
  assert (Hne : map selected (branches act_size) <> []).
  { unfold branches. destruct act_size; [congruence | discriminate]. }
  rewrite break_into_branches_ok. simpl bind.
  rewrite zip_map, mapM_map.
  rewrite (mapM_ok _ (fun b => mkT (column (selected b) samples) flag)).
  2: { intros b Hb. simpl. apply branch_term; [exact Hlen | |].
       - apply Forall_forall. intros acts Hacts.
         pose proof (proj1 (Forall_forall _ _) valid_actions acts Hacts) as Hv.
         exact (proj1 (Forall_forall _ _)
                  (actions_ok act_size [] acts 0 Hv) b Hb).
       - apply Forall_forall. intros row Hrow.
         rewrite (proj1 (Forall_forall _ _) Hrows row Hrow).
         exact (proj1 (Forall_forall _ _) (rows_fit act_size 0 0) b Hb). }
  simpl bind. unfold t_stack_slices. rewrite map_map. simpl data.
  rewrite <- (map_map selected (fun s => column s samples)).
  rewrite stack_columns by exact Hne. simpl bind.
  unfold t_mean_dim0. rewrite !map_map. simpl data.
  rewrite <- (map_map selected (fun s => column s samples)).
  rewrite mean_columns by exact Hne. simpl bind.
  eexists. split; [reflexivity|]. simpl data.
  unfold column. f_equal. rewrite map2_zip. fold samples.
  apply map_ext_in. intros p Hp. f_equal.
  destruct (in_zip _ _ _ Hp) as (_ & Hacts).
  pose proof (proj1 (Forall_forall _ _) valid_actions _ Hacts) as Hv.
  unfold condensed_q, selected_qs, offsets. f_equal.
  rewrite map_map.
  rewrite <- (selected_branches act_size (fst p) [] (snd p) 0
                (Forall2_length Hv)).
  simpl. now destruct p.
Qed.

End Condense.

(** C6.  For action indices that are valid in every branch and Q-outputs
    with one column per action, [_condense_q_streams] gives, for each
    stream and each sample, the mean over the branches of the Q-value at
    the selected action; with a single branch this is the Q-value at the
    selected index itself. *)
Theorem condense_q_streams_spec (act_size : list Z)
    (q_rows : dict (list (list R))) (flag : bool)
    (discrete_actions : list (list Z)) :
  act_size <> [] ->
  Forall (fun acts => Forall2 (fun a n => (0 <= a < n)%Z) acts act_size)
    discrete_actions ->
  Forall (fun kv =>
            length (snd kv) = length discrete_actions
            /\ Forall (fun row => length row = total_actions act_size)
                 (snd kv)) q_rows ->
  exists out,
    _condense_q_streams act_size (q_tensors flag q_rows) discrete_actions
    = Ok out
    /\ datas out
       = map (fun kv =>
                (fst kv,
                 T2 (map2 (fun row acts => [condensed_q act_size row acts])
                       (snd kv) discrete_actions))) q_rows
    /\ (forall n, act_size = [n] ->
          datas out
          = map (fun kv =>
                   (fst kv,
                    T2 (map2 (fun row acts =>
                                [nth (Z.to_nat (hd 0%Z acts)) row 0])
                          (snd kv) discrete_actions))) q_rows).
Proof.
  intros Hne Hacts Hrows.
  unfold _condense_q_streams.
  rewrite actions_to_onehot_ok by exact Hacts. simpl bind.
  unfold q_tensors. rewrite mapM_map. simpl.
  destruct (mapM_ok_ex
              (fun kv : string * list (list R) =>
                 branched_q <- break_into_branches (mkT (T2 (snd kv)) flag)
                                 act_size ;;
                 terms <- mapM (fun p => prod <- t_mul (fst p) (snd p) ;;
                                         t_sum_dim1_keepdim prod)
                            (zip (map (fun b =>
                                         mkT (T2 (map (fun acts =>
                                                one_hot_row (snd b)
                                                  (nth (fst (fst b)) acts 0%Z))
                                              discrete_actions)) false)
                                      (branches act_size))
                                 branched_q) ;;
                 only_action_qs <- t_stack_slices terms ;;
                 condensed <- t_mean_dim0 only_action_qs ;;
                 Ok (fst kv, condensed))
              (fun kv out =>
                 (fst out, data (snd out))
                 = (fst kv,
                    T2 (map2 (fun row acts => [condensed_q act_size row acts])
                          (snd kv) discrete_actions)))
              q_rows) as (out & Hout & HF).
  { intros kv Hkv.
    destruct (proj1 (Forall_forall _ _) Hrows kv Hkv) as (Hl & Hr).
    destruct (condense_item act_size discrete_actions Hne Hacts
                (fst kv) (snd kv) flag Hl Hr) as (t & Ht & Hd).
    exists (fst kv, t). split; [exact Ht|]. simpl. now rewrite Hd. }
  exists out. split; [exact Hout|].
  assert (Hd : datas out
               = map (fun kv =>
                        (fst kv,
                         T2 (map2 (fun row acts =>
                                     [condensed_q act_size row acts])
                               (snd kv) discrete_actions))) q_rows).
  { clear Hout. unfold datas.
    induction HF as [|kv o q_rows' out' H _ IH]; simpl; [reflexivity|].
    rewrite H. f_equal. apply IH.
    inversion Hrows; assumption. }
  split; [exact Hd|].
  intros n Hn. rewrite Hd. apply map_ext. intros kv. do 2 f_equal.
  rewrite !map2_zip. apply map_ext_in. intros p Hp. f_equal.
  destruct (in_zip _ _ _ Hp) as (_ & Hin).
  pose proof (proj1 (Forall_forall _ _) Hacts _ Hin) as Hv.
  rewrite Hn in Hv. inversion Hv as [|a ? acts' ? _ Hv']; subst.
  inversion Hv'; subst.
  unfold condensed_q, selected_qs, offsets, mean. simpl. field.
Qed.

Lemma condense_q_streams_spec_witness :
  (exists out,
      _condense_q_streams [2%Z; 3%Z] (q_tensors true demo_q_rows)
        demo_actions_two_branches = Ok out
      /\ datas out
         = [("extrinsic",
             T2 [[condensed_q [2%Z; 3%Z] [1; 2; 3; 4; 5] [0%Z; 2%Z]];
                 [condensed_q [2%Z; 3%Z] [6; 7; 8; 9; 10] [1%Z; 0%Z]]])])
  /\ (exists out,
         _condense_q_streams [5%Z] (q_tensors true demo_q_rows)
           demo_actions_one_branch = Ok out
         /\ datas out = [("extrinsic", T2 [[4]; [6]])]).
Proof.
  split.
  - destruct (condense_q_streams_spec [2%Z; 3%Z] demo_q_rows true
                demo_actions_two_branches) as (out & Hout & Hd & _).
    + discriminate.
    + repeat constructor; lia.
    + repeat constructor.
    + exists out. split; [exact Hout | exact Hd].
  - destruct (condense_q_streams_spec [5%Z] demo_q_rows true
                demo_actions_one_branch) as (out & Hout & _ & Hd).
    + discriminate.
    + repeat constructor; lia.
    + repeat constructor.
    + exists out. split; [exact Hout | exact (Hd 5%Z eq_refl)].
Defined.

(** * The update step *)

(** Each of the four losses is a 0-dim tensor. *)
Lemma sac_q_loss_scalar ud g q1 q2 tv d r m a b :
  sac_q_loss ud g q1 q2 tv d r m = Ok (a, b) ->
  exists x y, data a = T0 x /\ data b = T0 y.
Proof.
  unfold sac_q_loss. intros H.
  apply bind_ok in H. destruct H as ([l1 l2] & _ & H).
  apply bind_ok in H. destruct H as (s1 & _ & H).
  apply bind_ok in H. destruct H as (s2 & _ & H).
  injection H as <- <-. simpl. eauto.
Qed.

Lemma sac_value_loss_scalar a e isinf isnan lp v q1 q2 m d t :
  sac_value_loss a e isinf isnan lp v q1 q2 m d = Ok t ->
  exists x, data t = T0 x.
Proof.
  unfold sac_value_loss. intros H.
  apply bind_ok in H. destruct H as (c & _ & H).
  apply bind_ok in H. destruct H as (mq & _ & H).
  apply bind_ok in H. destruct H as (vl & _ & H).
  apply bind_ok in H. destruct H as (st & _ & H).
  destruct (_ || _) in H; [discriminate|].
  injection H as <-. simpl. eauto.
Qed.

Lemma sac_policy_loss_scalar a e lp q m d t :
  sac_policy_loss a e lp q m d = Ok t -> exists x, data t = T0 x.
Proof.
  unfold sac_policy_loss. intros H.
  apply bind_ok in H. destruct H as (st & _ & H).
  apply bind_ok in H. destruct H as (mq & _ & H).
  apply bind_ok in H. destruct H as (bl & _ & H).
  apply bind_ok in H. destruct H as (mk & _ & H).
  injection H as <-. simpl. eauto.
Qed.

Lemma sac_entropy_loss_scalar a e te lp m d t :
  sac_entropy_loss a e te lp m d = Ok t -> exists x, data t = T0 x.
Proof.
  unfold sac_entropy_loss. intros H. destruct (negb d).
  - apply bind_ok in H. destruct H as (tc & _ & H).
    apply bind_ok in H. destruct H as (w & _ & H).
    apply bind_ok in H. destruct H as (pr & _ & H).
    injection H as <-. simpl. eauto.
  - apply bind_ok in H. destruct H as (tc & _ & H).
    apply bind_ok in H. destruct H as (w & _ & H).
    apply bind_ok in H. destruct H as (ps & _ & H).
    apply bind_ok in H. destruct H as (mk & _ & H).
    injection H as <-. simpl. eauto.
Qed.


Lemma existsb_never (l : list R) : existsb never l = false.
Proof. induction l; simpl; auto. Qed.

(** With the two tests answering [false] the guard never fires, and
    [sac_value_loss] returns the averaged loss as computed: the checked
    function raises exactly when a test flags that value. *)
Lemma sac_value_loss_check a e isinf isnan lp v q1 q2 m d :
  sac_value_loss a e isinf isnan lp v q1 q2 m d
  = match sac_value_loss a e never never lp v q1 q2 m d with
    | Ok value_loss =>
        if t_any isinf value_loss || t_any isnan value_loss
        then Raise (UnityTrainerException "Inf found")
        else Ok value_loss
    | Raise e => Raise e
    end.
Proof.
  unfold sac_value_loss.
  destruct (no_grad _) as [c|]; simpl; [|reflexivity].
  destruct (mapM _ (keys v)) as [mq|]; simpl; [|reflexivity].
  match goal with
  | |- bind ?x _ = _ => destruct x as [vl|]; simpl; [|reflexivity]
  end.
  destruct (t_stack vl) as [st|]; simpl; [|reflexivity].
  reflexivity.
Qed.

Section UpdateFacts.

Variables Obs AdamState : Type.
Variable adam_init : AdamState.
Variable adam : R -> AdamState -> tval -> tval -> AdamState * tval.
Variable QNetwork_forward :
  Network -> list Obs -> list Obs -> option tensor -> dict tensor.
Variable Critic_forward : Network -> list Obs -> list Obs -> dict tensor.
Variable sample_actions :
  TorchPolicy -> list Obs -> list Obs -> tval -> option tval -> Z -> bool ->
  Sample.
Variable autograd :
  loss_id -> tensor -> TorchSACOptimizer AdamState -> AgentBuffer Obs ->
  Gradients.

Local Abbreviation run_update isinf isnan :=
  (update adam_init adam isinf isnan QNetwork_forward Critic_forward
     sample_actions autograd).

Lemma Done_inj {A : Type} (a b : A) (s t : TorchSACOptimizer AdamState) :
  Done a s = Done b t -> a = b /\ s = t.
Proof. intros H. now injection H. Qed.

Ltac run_step H :=
  match type of H with
  | match (match (match ?r with Ok _ => _ | Raise _ => _ end) with
           | Done _ _ => _ | Raised _ _ => _ end) with
    | Done _ _ => _ | Raised _ _ => _ end = _ =>
      let E := fresh "E" in
      destruct r eqn:E; [|discriminate H]
  | match (match ?r with Ok _ => _ | Raise _ => _ end) with
    | Done _ _ => _ | Raised _ _ => _ end = _ =>
      let E := fresh "E" in
      destruct r eqn:E; [|discriminate H]
  | match (if ?b then _ else _) with
    | Done _ _ => _ | Raised _ _ => _ end = _ =>
      let E := fresh "E" in destruct b eqn:E; [|discriminate H]
  | match (if ?b then _ else _) _ with
    | Done _ _ => _ | Raised _ _ => _ end = _ =>
      let E := fresh "E" in destruct b eqn:E
  | match (let '(_, _) := ?p in _) with
    | Done _ _ => _ | Raised _ _ => _ end = _ =>
      let E := fresh "E" in destruct p eqn:E
  | match (let '(_, _) := ?p in _) _ with
    | Done _ _ => _ | Raised _ _ => _ end = _ =>
      let E := fresh "E" in destruct p eqn:E
  | match ?p with (_, _) => _ end = _ =>
      let E := fresh "E" in destruct p eqn:E
  | (let '(_, _) := ?p in _) _ = _ =>
      let E := fresh "E" in destruct p eqn:E
  | match (match ?e with Some _ => _ | None => _ end) with
    | Done _ _ => _ | Raised _ _ => _ end = _ =>
      let E := fresh "E" in destruct e eqn:E; [discriminate H|]
  end; cbv beta iota in H.

Ltac unfold_run H :=
  cbv beta iota zeta delta
    [bindM lift get modify ret optimizer_zero_grad optimizer_step
     backward soft_update_target run_calls run_call update_calls
       gradient_calls app] in H.

(** A successful [update], taken apart. *)
Lemma update_done isinf isnan batch n self stats self' :
  run_update isinf isnan batch n self = Done stats self' ->
  let ctx := copy_normalizers self in
  let coef := param_tensor (_log_ent_coef ctx) in
  exists q1_loss q2_loss value_loss policy_loss entropy_loss total_value_loss,
    (exists q1 q2 tv d r m,
        sac_q_loss (use_dones_in_backup ctx) (gammas ctx) q1 q2 tv d r m
        = Ok (q1_loss, q2_loss))
    /\ (exists lp v q1p q2p m d,
           sac_value_loss (act_size ctx) coef isinf isnan lp v q1p q2p m d
           = Ok value_loss)
    /\ (exists lp q m d,
           sac_policy_loss (act_size ctx) coef lp q m d = Ok policy_loss)
    /\ (exists lp m d,
           sac_entropy_loss (act_size ctx) coef (target_entropy ctx) lp m d
           = Ok entropy_loss)
    /\ bind (t_add q1_loss q2_loss) (fun s => t_add s value_loss)
       = Ok total_value_loss
    /\ run_calls adam_init adam autograd ctx batch
         (update_calls (tau self) policy_loss total_value_loss entropy_loss)
         ctx = Done tt self'
    /\ stats
       = [ ("Losses/Policy Loss", map_tval Rabs (data policy_loss));
           ("Losses/Value Loss", data value_loss);
           ("Losses/Q1 Loss", data q1_loss);
           ("Losses/Q2 Loss", data q2_loss);
           ("Policy/Entropy Coeff",
            map_tval exp (p_data (_log_ent_coef self'))) ].
Proof.
  intros H. unfold update in H. unfold_run H.
  do 3 run_step H.
  run_step H; repeat run_step H; apply Done_inj in H; destruct H as [<- <-]; cbv zeta;
    match goal with
    | Eq : sac_q_loss _ _ _ _ _ _ _ _ = Ok (?q1, ?q2),
      Ev : sac_value_loss _ _ _ _ _ _ _ _ _ _ = Ok ?v,
      Ep : sac_policy_loss _ _ _ _ _ _ = Ok ?p,
      Ee : sac_entropy_loss _ _ _ _ _ _ = Ok ?e,
      E1 : t_add ?q1 ?q2 = Ok ?s,
      E2 : t_add ?s ?v = Ok ?t |- _ =>
        exists q1, q2, v, p, e, t;
        split; [do 6 eexists; exact Eq|];
        split; [do 6 eexists; exact Ev|];
        split; [do 4 eexists; exact Ep|];
        split; [do 3 eexists; exact Ee|];
        split; [rewrite E1; exact E2|]
    end;
    (split; [|reflexivity]);
    cbv beta iota zeta delta
      [bindM lift get modify ret optimizer_zero_grad optimizer_step
       backward soft_update_target run_calls run_call update_calls
       gradient_calls app];
    repeat match goal with
           | E : requires_grad _ = true |- _ => rewrite E; clear E
           end;
    match goal with
    | E : soft_update_modules _ _ _ = _ |- _ =>
        change (tau (copy_normalizers self)) with (tau self) in E; rewrite E
    end;
    reflexivity.
Qed.



(** C10.  [update_reward_signals] returns the empty dictionary and leaves
    the optimizer object as it was, whatever it is given. *)
Theorem update_reward_signals_noop
    (reward_signal_minibatches : dict (AgentBuffer Obs)) (num_sequences : Z)
    (self : TorchSACOptimizer AdamState) :
  update_reward_signals reward_signal_minibatches num_sequences self
  = Done [] self.
Proof. reflexivity. Qed.




(** What a successful [update] returns: four 0-dim losses, the policy
    loss in absolute value, and [exp] of the whole log-coefficient
    parameter. *)
Lemma update_stats isinf isnan batch n self stats self' :
  run_update isinf isnan batch n self = Done stats self' ->
  exists pl v q1 q2,
    stats = [ ("Losses/Policy Loss", T0 (Rabs pl));
              ("Losses/Value Loss", T0 v);
              ("Losses/Q1 Loss", T0 q1);
              ("Losses/Q2 Loss", T0 q2);
              ("Policy/Entropy Coeff",
               map_tval exp (p_data (_log_ent_coef self'))) ].
Proof.
  intros H.
  destruct (update_done _ _ _ _ _ _ _ H)
    as (q1l & q2l & vl & pl & el & tl & Hq & Hv & Hp & _ & _ & _ & Hs).
  destruct Hq as (? & ? & ? & ? & ? & ? & Hq).
  destruct Hv as (? & ? & ? & ? & ? & ? & Hv).
  destruct Hp as (? & ? & ? & ? & Hp).
  destruct (sac_q_loss_scalar _ _ _ _ _ _ _ _ _ _ Hq) as (q1 & q2 & Hq1 & Hq2).
  destruct (sac_value_loss_scalar _ _ _ _ _ _ _ _ _ _ _ Hv) as (v & Hvd).
  destruct (sac_policy_loss_scalar _ _ _ _ _ _ _ Hp) as (p & Hpd).
  exists p, v, q1, q2. rewrite Hs, Hpd, Hvd, Hq1, Hq2. reflexivity.
Qed.

Lemma copy_normalizers_learnable (self : TorchSACOptimizer AdamState) :
  same_learnable_state self (copy_normalizers self).
Proof. repeat split. Qed.

Lemma same_learnable_refl (self : TorchSACOptimizer AdamState) :
  same_learnable_state self self.
Proof. repeat split. Qed.

(** [soft_update] can only fail on a shape mismatch. *)
Lemma expand_raises {A : Type} (n : nat) (l : list A) (e : exn) :
  expand n l = Raise e -> e = RuntimeError.
Proof.
  unfold expand. destruct (Nat.eqb _ _); [discriminate|].
  destruct l as [|x [|y l]]; intros H; now inversion H.
Qed.

Lemma bcast_vec_raises (f : R -> R -> R) (u v : list R) (e : exn) :
  bcast_vec f u v = Raise e -> e = RuntimeError.
Proof.
  unfold bcast_vec. intros H.
  destruct (expand _ u) eqn:Eu; simpl in H;
    [|injection H as <-; eapply expand_raises; eauto].
  destruct (expand _ v) eqn:Ev; simpl in H; [discriminate|].
  injection H as <-. eapply expand_raises; eauto.
Qed.

Lemma mapM_raises {A B : Type} (f : A -> result B) (l : list A) (e : exn) :
  mapM f l = Raise e -> exists a, f a = Raise e.
Proof.
  induction l as [|a l IH]; simpl; [discriminate|]. intros H.
  destruct (f a) eqn:Ea; simpl in H; [|injection H as <-; eauto].
  destruct (mapM f l); simpl in H; [discriminate|].
  injection H as <-. now apply IH.
Qed.

Lemma bcast2_raises (f : R -> R -> R) (a b : tval) (e : exn) :
  bcast2 f a b = Raise e -> e = RuntimeError.
Proof.
  unfold bcast2, bcast_rows. intros H.
  destruct (expand _ (rows_of a)) eqn:Ea; simpl in H;
    [|injection H as <-; eapply expand_raises; eauto].
  destruct (expand _ (rows_of b)) eqn:Eb; simpl in H;
    [|injection H as <-; eapply expand_raises; eauto].
  destruct (mapM _ _) eqn:Em; simpl in H; [discriminate|].
  injection H as <-. apply mapM_raises in Em. destruct Em as (p & Hp).
  eapply bcast_vec_raises; eauto.
Qed.

Lemma soft_update_param_raises (s t : tval) (tau : R) (e : exn) :
  soft_update_param s t tau = Raise e -> e = RuntimeError.
Proof.
  unfold soft_update_param, copy_. intros H.
  destruct (bcast2 Rplus _ _) eqn:E1; simpl in H;
    [|injection H as <-; eapply bcast2_raises; eauto].
  destruct (bcast2 _ t _) eqn:E2; simpl in H;
    [|injection H as <-; eapply bcast2_raises; eauto].
  destruct (shape_eqb _ _); [discriminate | now injection H].
Qed.

Lemma soft_update_raises (source : list tval) :
  forall target tau new e,
    soft_update source target tau = (new, Some e) -> e = RuntimeError.
Proof.
  induction source as [|s source IH]; intros [|t target] tau new e H;
    simpl in H; try discriminate.
  destruct (soft_update_param s t tau) eqn:Ep.
  - destruct (soft_update source target tau) as [rest e'] eqn:Er.
    injection H as _ ->. eapply IH; eauto.
  - injection H as _ <-. eapply soft_update_param_raises; eauto.
Qed.

Lemma soft_update_modules_raises (source target : Network) (tau : R)
    (new : Network) (e : exn) :
  soft_update_modules source target tau = (new, Some e) -> e = RuntimeError.
Proof.
  unfold soft_update_modules.
  destruct (soft_update _ _ tau) as [ds e'] eqn:Es. intros H.
  injection H as _ ->. eapply soft_update_raises; eauto.
Qed.

Lemma Raised_inj {A : Type} (e1 e2 : exn) (s t : TorchSACOptimizer AdamState) :
  @Raised AdamState A e1 s = Raised e2 t -> e1 = e2 /\ s = t.
Proof. intros H. now injection H. Qed.

Ltac raise_step H :=
  match type of H with
  | match (match (match ?r with Ok _ => _ | Raise _ => _ end) with
           | Done _ _ => _ | Raised _ _ => _ end) with
    | Done _ _ => _ | Raised _ _ => _ end = _ =>
      let E := fresh "E" in destruct r eqn:E
  | match (match ?r with Ok _ => _ | Raise _ => _ end) with
    | Done _ _ => _ | Raised _ _ => _ end = _ =>
      let E := fresh "E" in destruct r eqn:E
  | match (if ?b then _ else _) with
    | Done _ _ => _ | Raised _ _ => _ end = _ =>
      let E := fresh "E" in destruct b eqn:E
  | match (if ?b then _ else _) _ with
    | Done _ _ => _ | Raised _ _ => _ end = _ =>
      let E := fresh "E" in destruct b eqn:E
  | match (let '(_, _) := ?p in _) with
    | Done _ _ => _ | Raised _ _ => _ end = _ =>
      let E := fresh "E" in destruct p eqn:E
  | match (let '(_, _) := ?p in _) _ with
    | Done _ _ => _ | Raised _ _ => _ end = _ =>
      let E := fresh "E" in destruct p eqn:E
  | match ?p with (_, _) => _ end = _ =>
      let E := fresh "E" in destruct p eqn:E
  | (let '(_, _) := ?p in _) _ = _ =>
      let E := fresh "E" in destruct p eqn:E
  | match (match ?e with Some _ => _ | None => _ end) with
    | Done _ _ => _ | Raised _ _ => _ end = _ =>
      let E := fresh "E" in destruct e eqn:E
  end; cbv beta iota in H.

(** The exception met is not the trainer's, or it was raised early. *)
Ltac raised H :=
  match type of H with
  | Raised _ _ = Raised _ _ =>
      let He := fresh "He" in
      let Hs := fresh "Hs" in
      apply Raised_inj in H; destruct H as [He Hs];
      first
        [ discriminate He
        | rewrite <- Hs;
          lazymatch goal with
          | |- same_learnable_state ?a ?x =>
              first
                [ constr_eq x a; apply same_learnable_refl
                | lazymatch x with
                  | copy_normalizers ?y =>
                      constr_eq y a; apply copy_normalizers_learnable
                  end ]
          end
        | match goal with
          | E : soft_update_modules _ _ _ = (_, Some _) |- _ =>
              apply soft_update_modules_raises in E;
              rewrite He in E; discriminate E
          end ]
  | Done _ _ = Raised _ _ => discriminate H
  end.

(** An exception raised before the first optimizer call finds every
    parameter as it was; the later calls raise [RuntimeError] only. *)
Lemma update_trainer_exception isinf isnan batch n self msg self' :
  run_update isinf isnan batch n self
  = Raised (UnityTrainerException msg) self' ->
  same_learnable_state self self'.
Proof.
  intros H. unfold update in H. unfold_run H.
  repeat (raise_step H; try solve [raised H]).
Qed.

(** The run with the two tests switched off shows the value loss that
    [update] computes; when a test flags it, the checked run stops at
    the guard. *)
Lemma update_nonfinite isinf isnan batch n self stats ok d :
  run_update never never batch n self = Done stats ok ->
  dict_get "Losses/Value Loss" stats = Ok d ->
  existsb isinf (elems d) || existsb isnan (elems d) = true ->
  run_update isinf isnan batch n self
  = Raised (UnityTrainerException "Inf found") (copy_normalizers self).
Proof.
  intros H Hd Hbad. unfold update in H |- *. unfold_run H.
  cbv beta iota zeta delta
    [bindM lift get modify ret optimizer_zero_grad optimizer_step
     backward soft_update_target].
  repeat (try rewrite (sac_value_loss_check _ _ isinf isnan);
          run_step H; cbv beta iota).
  all: apply Done_inj in H; destruct H as [<- _];
    simpl in Hd; injection Hd as <-;
    unfold t_any; rewrite Hbad; reflexivity.
Qed.


(** C2.  When the value loss that [update] computes is flagged by
    [torch.isinf] or [torch.isnan], the call raises
    [UnityTrainerException] from the guard of [sac_value_loss], before
    any [zero_grad], [backward], [step] or target update: the policy and
    its critic, the parameters of the twin Q-networks and of the target
    network, the entropy coefficient and the optimizers are as they were
    before the call. *)
Theorem update_aborts_on_nonfinite_value_loss
    isinf isnan batch n self stats ok d :
  run_update never never batch n self = Done stats ok ->
  dict_get "Losses/Value Loss" stats = Ok d ->
  existsb isinf (elems d) || existsb isnan (elems d) = true ->
  exists self',
    run_update isinf isnan batch n self
    = Raised (UnityTrainerException "Inf found") self'
    /\ same_learnable_state self self'.
Proof.
  intros H Hd Hbad. exists (copy_normalizers self).
  pose proof (update_nonfinite isinf isnan _ _ _ _ _ _ H Hd Hbad) as Hr.
  split; [exact Hr|]. exact (update_trainer_exception _ _ _ _ _ _ _ Hr).
Qed.


(** X23.  The start indices of the memories come from
    [range(0, len(batch["memory"]), sequence_length)]: with a policy
    whose [sequence_length] is 0, [update] raises [ValueError] before it
    has touched anything, normalizers included. *)
Theorem update_rejects_zero_sequence_length isinf isnan batch n
    (self : TorchSACOptimizer AdamState) :
  sequence_length (policy self) = 0%Z ->
  run_update isinf isnan batch n self = Raised ValueError self.
Proof.
  intros H. unfold update.
  cbv beta iota zeta delta [bindM get lift]. rewrite H. reflexivity.
Qed.

(** The exception met was raised before the first optimizer call, or it
    is a [RuntimeError]. *)
Ltac raised_early Hne H :=
  match type of H with
  | Raised _ _ = Raised _ _ =>
      let He := fresh "He" in
      let Hs := fresh "Hs" in
      apply Raised_inj in H; destruct H as [He Hs];
      first
        [ exfalso; apply Hne; symmetry; exact He
        | rewrite <- Hs;
          lazymatch goal with
          | |- same_learnable_state ?a ?x =>
              first
                [ constr_eq x a; apply same_learnable_refl
                | lazymatch x with
                  | copy_normalizers ?y =>
                      constr_eq y a; apply copy_normalizers_learnable
                  end ]
          end
        | match goal with
          | E : soft_update_modules _ _ _ = (_, Some _) |- _ =>
              apply soft_update_modules_raises in E;
              exfalso; apply Hne; rewrite <- He; exact E
          end ]
  | Done _ _ = Raised _ _ => discriminate H
  end.

(** X24.  Whatever makes [update] fail before its first optimizer call
    leaves every parameter, gradient buffer and optimizer state as it
    was: only a [RuntimeError], which a refused backward pass or a shape
    mismatch in the target update raise, can come with parameters
    already changed. *)
Theorem update_exception_keeps_parameters isinf isnan batch n self e self' :
  run_update isinf isnan batch n self = Raised e self' ->
  e <> RuntimeError ->
  same_learnable_state self self'.
Proof.
  intros H Hne. unfold update in H. unfold_run H.
  repeat (raise_step H; try solve [raised_early Hne H]).
Qed.

Lemma same_configuration_trans (a b c : TorchSACOptimizer AdamState) :
  same_configuration a b -> same_configuration b c -> same_configuration a c.
Proof.
  unfold same_configuration. intros H1 H2.
  repeat match goal with
         | H : _ /\ _ |- _ => destruct H
         end.
  repeat split; congruence.
Qed.

Lemma run_call_configuration ctx batch (c : torch_call)
    (s s' : TorchSACOptimizer AdamState) :
  run_call adam_init adam autograd ctx batch c s = Done tt s' ->
  same_configuration s s'.
Proof.
  destruct c as [o|l loss|o|t]; simpl.
  - unfold optimizer_zero_grad, modify. intros H.
    apply Done_inj in H. destruct H as [_ <-].
    destruct o; repeat split.
  - unfold backward. destruct (requires_grad loss); [|discriminate].
    intros H. apply Done_inj in H. destruct H as [_ <-]. repeat split.
  - unfold optimizer_step, modify. intros H.
    apply Done_inj in H. destruct H as [_ <-].
    destruct o; unfold adam_update;
      destruct (adam_steps _ _ _ _ _) as [ss ps]; repeat split.
  - unfold soft_update_target.
    destruct (soft_update_modules _ _ _) as [tn [e|]]; [discriminate|].
    intros H. apply Done_inj in H. destruct H as [_ <-]. repeat split.
Qed.

Lemma run_calls_configuration ctx batch (cs : list torch_call) :
  forall s s' : TorchSACOptimizer AdamState,
    run_calls adam_init adam autograd ctx batch cs s = Done tt s' ->
    same_configuration s s'.
Proof.
  induction cs as [|c cs IH]; intros s s' H; simpl in H.
  - unfold ret in H. apply Done_inj in H. destruct H as [_ <-].
    repeat split.
  - unfold bindM in H.
    destruct (run_call adam_init adam autograd ctx batch c s)
      as [[] s1|e s1] eqn:E; [|discriminate].
    eapply same_configuration_trans;
      [eapply run_call_configuration; eauto | now apply IH].
Qed.

(** X25.  A successful [update] changes parameters, gradient buffers,
    optimizer states and normalization statistics, and nothing else: the
    hyperparameters, the reward streams with their discounts, the target
    entropy, the kind of action space and the learning rates are as they
    were. *)
Theorem update_keeps_configuration isinf isnan batch n self stats self' :
  run_update isinf isnan batch n self = Done stats self' ->
  same_configuration self self'.
Proof.
  intros H.
  destruct (update_done _ _ _ _ _ _ _ H)
    as (q1l & q2l & vl & pl & el & tl & _ & _ & _ & _ & _ & Hrun & _).
  apply run_calls_configuration in Hrun.
  eapply same_configuration_trans; [|exact Hrun]. repeat split.
Qed.
End UpdateFacts.

(** * The concrete runs *)

Lemma trunc_IZR (z : Z) : trunc (IZR z) = z.
Proof.
  unfold trunc. destruct (Rle_dec 0 (IZR z)) as [H|H].
  - symmetry. apply Int_part_spec. lra.
  - rewrite <- opp_IZR. rewrite <- (Int_part_spec (IZR (- z)) (- z)%Z) by lra.
    lia.
Qed.

(** The stub run goes through whatever the critics and the value head
    answer, as long as the tests find every number finite. *)
Lemma demo_update_succeeds (q v : R) (e : exn) (s : TorchSACOptimizer unit) :
  demo_update never q v demo_optimizer <> Raised e s.
Proof. tensor_eval. discriminate. Qed.



Lemma update_aborts_on_nonfinite_value_loss_witness :
  exists self',
    demo_update float32_isinf 0 100000000000000000000 demo_optimizer
    = Raised (UnityTrainerException "Inf found") self'
    /\ same_learnable_state demo_optimizer self'.
Proof.
  destruct (demo_update never 0 100000000000000000000 demo_optimizer)
    as [stats ok|e s] eqn:E.
  - pose proof E as E'.
    cbv -[Rplus Rmult Rminus Rdiv Ropp Rinv IZR exp ln Rmin Rabs
          Rlt_dec Rle_dec trunc Q2R] in E'.
    apply Done_inj in E'. destruct E' as [Hstats _].
    eapply (update_aborts_on_nonfinite_value_loss _ _ _ _ _ _ _ _
              float32_isinf never _ _ _ _ _ _ E).
    + rewrite <- Hstats. reflexivity.
    + cbv [elems rows_of concat app existsb never orb].
      rewrite trunc_IZR, (Rmin_left 0 0) by lra.
      unfold float32_isinf.
      match goal with
      | |- context [Rabs ?x] =>
          replace x with 5000000000000000000000000000000000000000
            by (decimals; field)
      end.
      rewrite Rabs_right by lra.
      destruct (Rlt_dec float32_max _) as [_|Hn]; [reflexivity|].
      exfalso. apply Hn. unfold float32_max. lra.
  - exfalso. exact (demo_update_succeeds _ _ _ _ E).
Defined.

Lemma demo_discrete_actions :
  to_long (field demo_discrete_batch "actions") = [[0; 1]; [1; 0]]%Z.
Proof. cbv -[trunc IZR]. now rewrite !trunc_IZR. Qed.

Lemma demo_discrete_masks :
  to_int32 (field demo_discrete_batch "masks") = mkT (T1 [1; 1]) false.
Proof. cbv -[trunc IZR]. now rewrite !trunc_IZR. Qed.

(** C9 (the code departs from the claim).  On a discrete action space
    with two branches a successful [update] returns the five keys, but
    the entry ["Policy/Entropy Coeff"] is the vector [exp] of the whole
    log-coefficient parameter, one number per branch, not a scalar. *)
Theorem update_entropy_coeff_metric_is_vector :
  exists stats self',
    demo_discrete_update demo_discrete_optimizer = Done stats self'
    /\ keys stats
       = [ "Losses/Policy Loss"; "Losses/Value Loss"; "Losses/Q1 Loss";
           "Losses/Q2 Loss"; "Policy/Entropy Coeff" ]
    /\ dict_get "Policy/Entropy Coeff" stats = Ok (T1 [exp 0; exp 0]).
Proof.
  eexists _, _. split.
  - unfold update. cbv beta iota zeta delta [bindM lift get modify ret].
    rewrite !demo_discrete_actions, !demo_discrete_masks.
    tensor_eval. reflexivity.
  - split; reflexivity.
Qed.

(** * More on Polyak averaging *)

Lemma expand_single {A : Type} (n : nat) (z : A) :
  expand n [z] = Ok (repeat z n).
Proof.
  unfold expand. simpl length.
  destruct (Nat.eqb_spec 1 n) as [<-|_]; reflexivity.
Qed.

Lemma mapM_rows_scalar_r (f : R -> R -> R) (y : R) (m : list (list R)) :
  mapM (fun p => bcast_vec f (fst p) (snd p)) (zip m (repeat [y] (length m)))
  = Ok (map (map (fun a => f a y)) m).
Proof.
  induction m as [|r m IH]; simpl; [reflexivity|].
  now rewrite bcast_vec_scalar_r, IH.
Qed.

(** A 0-dim right operand is broadcast over the whole left operand. *)
Lemma bcast2_T0_r (f : R -> R -> R) (d : tval) (y : R) :
  bcast2 f d (T0 y) = Ok (map_tval (fun a => f a y) d).
Proof.
  destruct d as [x|v|m].
  - reflexivity.
  - apply bcast2_T1_T0.
  - unfold bcast2, bcast_rows. simpl rows_of. simpl length.
    assert (E : bsize (length m) 1 = length m).
    { unfold bsize. destruct (Nat.eqb_spec (length m) 1); congruence. }
    rewrite E, expand_same, expand_single. simpl bind.
    now rewrite mapM_rows_scalar_r.
Qed.

Lemma zip_with_snd_map (g : R -> R) (t : tval) :
  zip_with (fun _ y => y) t (map_tval g t) = map_tval g t.
Proof.
  destruct t as [x|v|m]; simpl; try reflexivity.
  - f_equal. apply map2_snd. now rewrite length_map.
  - f_equal. induction m as [|r m IH]; simpl; [reflexivity|].
    rewrite map2_snd by now rewrite length_map. now rewrite IH.
Qed.

Lemma copy_same_shape (dst src : tval) :
  same_shape dst src -> copy_ dst src = Ok (zip_with (fun _ y => y) dst src).
Proof.
  intros H. unfold copy_. rewrite (bcast2_same _ _ _ H). simpl.
  rewrite (same_shape_shape _ _ (same_shape_zip_with _ _ _ H)).
  now rewrite shape_eqb_refl.
Qed.

Lemma soft_update_param_scalar_source (x : R) (t : tval) (tau : R) :
  soft_update_param (T0 x) t tau
  = Ok (map_tval (fun a => polyak tau a x) t).
Proof.
  unfold soft_update_param. simpl map_tval at 2.
  rewrite bcast2_T0_r. simpl bind.
  assert (E : map_tval (fun a => a + x * tau)
                (map_tval (fun a => a * (1.0 - tau)) t)
              = map_tval (fun a => polyak tau a x) t).
  { destruct t as [y|v|m]; simpl.
    - now rewrite polyak_code.
    - f_equal. rewrite map_map. apply map_ext. intros; apply polyak_code.
    - f_equal. rewrite map_map. apply map_ext. intros r.
      rewrite map_map. apply map_ext. intros; apply polyak_code. }
  rewrite E, copy_same_shape
    by apply same_shape_sym, same_shape_map_l, same_shape_refl.
  now rewrite zip_with_snd_map.
Qed.

Lemma expand_mismatch {A : Type} (n : nat) (l : list A) :
  length l <> n -> length l <> 1%nat -> expand n l = Raise RuntimeError.
Proof.
  intros Hn H1. unfold expand.
  destruct (Nat.eqb_spec (length l) n) as [E|_]; [contradiction|].
  destruct l as [|x [|y l]]; try reflexivity. now elim H1.
Qed.

Lemma bcast_vec_mismatch (f : R -> R -> R) (u v : list R) :
  length u <> length v -> length u <> 1%nat -> length v <> 1%nat ->
  bcast_vec f u v = Raise RuntimeError.
Proof.
  intros Hl Hu Hv. unfold bcast_vec, bsize.
  destruct (Nat.eqb_spec (length u) 1) as [E|_]; [contradiction|].
  rewrite expand_same. simpl bind.
  rewrite expand_mismatch by congruence. reflexivity.
Qed.

Lemma copy_vector_mismatch (v w : list R) :
  length w <> length v -> length w <> 1%nat ->
  copy_ (T1 v) (T1 w) = Raise RuntimeError.
Proof.
  intros Hl H1. unfold copy_, bcast2, bcast_rows. simpl.
  destruct (Nat.eq_dec (length v) 1) as [Ev|Ev].
  - destruct v as [|y [|z v]]; simpl in Ev; try discriminate.
    unfold bcast_vec, bsize. simpl length. simpl Nat.eqb. cbv iota.
    rewrite expand_single, expand_same. simpl.
    rewrite map2_length by now rewrite repeat_length.
    rewrite repeat_length.
    destruct (Nat.eqb_spec (length w) 1) as [E|_]; [contradiction|].
    reflexivity.
  - rewrite bcast_vec_mismatch by congruence. reflexivity.
Qed.

Lemma soft_update_param_vector_mismatch (u v : list R) (tau : R) :
  length u <> length v -> length u <> 1%nat ->
  soft_update_param (T1 u) (T1 v) tau = Raise RuntimeError.
Proof.
  intros Hl H1. unfold soft_update_param.
  destruct (Nat.eq_dec (length v) 1) as [Ev|Ev].
  - destruct v as [|y [|z v]]; simpl in Ev; try discriminate.
    unfold bcast2, bcast_rows. simpl.
    unfold bcast_vec, bsize. simpl length. simpl Nat.eqb. cbv iota.
    rewrite expand_single, expand_same. simpl bind.
    apply copy_vector_mismatch;
      rewrite map2_length, repeat_length, ?length_map;
      try assumption; now rewrite repeat_length.
  - unfold bcast2, bcast_rows. simpl.
    rewrite bcast_vec_mismatch; rewrite ?length_map; try congruence.
    reflexivity.
Qed.

(** X1.  [zip] pairs the parameters and stops at the shorter module:
    target parameters without a source partner are left as they are,
    and source parameters without a target partner are ignored. *)
Theorem soft_update_unpaired_parameters
    (source target rest : list tval) (tau : R) :
  length source = length target ->
  soft_update source (target ++ rest) tau
  = (fst (soft_update source target tau) ++ rest,
     snd (soft_update source target tau))
  /\ soft_update (source ++ rest) target tau = soft_update source target tau.
Proof.
  revert target.
  induction source as [|s source IH]; intros [|t target] H; simpl in *;
    try discriminate.
  - split; [reflexivity | now destruct rest].
  - destruct (soft_update_param s t tau); [|split; reflexivity].
    destruct (IH target) as [H1 H2]; [congruence|]. rewrite H1, H2.
    destruct (soft_update source target tau). split; reflexivity.
Qed.

Lemma soft_update_unpaired_parameters_witness :
  soft_update [T0 1] ([T0 0] ++ [T1 [5; 6]]) 0.5
  = (fst (soft_update [T0 1] [T0 0] 0.5) ++ [T1 [5; 6]],
     snd (soft_update [T0 1] [T0 0] 0.5))
  /\ soft_update ([T0 1] ++ [T1 [5; 6]]) [T0 0] 0.5
     = soft_update [T0 1] [T0 0] 0.5.
Proof.
  apply (soft_update_unpaired_parameters [T0 1] [T0 0] [T1 [5; 6]] 0.5).
  reflexivity.
Defined.

(** X2.  A failing round does not undo the earlier ones.  When the
    parameters of some pair are vectors of different lengths (the source
    not being a single element, which would be broadcast), [soft_update]
    raises [RuntimeError]; the targets before that pair have already been
    blended, the target of the pair and the later ones are untouched. *)
Theorem soft_update_stops_at_mismatch
    (s1 t1 s2 t2 : list tval) (u v : list R) (tau : R) :
  Forall2 same_shape s1 t1 ->
  length u <> length v -> length u <> 1%nat ->
  soft_update (s1 ++ T1 u :: s2) (t1 ++ T1 v :: t2) tau
  = (map2 (polyak_tensor tau) t1 s1 ++ T1 v :: t2, Some RuntimeError).
Proof.
  intros H Hl H1. induction H as [|s t s1 t1 Hst _ IH]; simpl.
  - now rewrite soft_update_param_vector_mismatch.
  - now rewrite soft_update_param_spec, IH.
Qed.

Lemma soft_update_stops_at_mismatch_witness :
  soft_update ([T0 1] ++ T1 [1; 2; 3] :: [T0 5])
    ([T0 0] ++ T1 [0; 0] :: [T0 7]) 0.5
  = (map2 (polyak_tensor 0.5) [T0 0] [T0 1] ++ T1 [0; 0] :: [T0 7],
     Some RuntimeError).
Proof.
  apply (soft_update_stops_at_mismatch [T0 1] [T0 0] [T0 5] [T0 7]
           [1; 2; 3] [0; 0] 0.5).
  - repeat constructor.
  - simpl. lia.
  - simpl. lia.
Defined.

(** X3.  A 0-dim source parameter is not refused: it is broadcast, and
    every entry of the target parameter is blended with that one number. *)
Theorem soft_update_broadcasts_scalar_source
    (x : R) (t : tval) (source target : list tval) (tau : R) :
  soft_update (T0 x :: source) (t :: target) tau
  = (map_tval (fun a => polyak tau a x) t
       :: fst (soft_update source target tau),
     snd (soft_update source target tau)).
Proof.
  simpl. rewrite soft_update_param_scalar_source.
  now destruct (soft_update source target tau).
Qed.

Lemma nth_map2 (f : R -> R -> R) (l1 : list R) :
  forall l2 i, length l1 = length l2 -> f 0 0 = 0 ->
    nth i (map2 f l1 l2) 0 = f (nth i l1 0) (nth i l2 0).
Proof.
  induction l1 as [|a l1 IH]; intros [|b l2] i H H0; simpl in *;
    try discriminate.
  - destruct i; now rewrite H0.
  - destruct i; [reflexivity|]. apply IH; congruence.
Qed.

(** * Construction *)

Lemma dict_get_in {V : Type} (name : string) (d : dict V) :
  In name (keys d) -> exists v, dict_get name d = Ok v.
Proof.
  induction d as [|[k v] d IH]; simpl; [contradiction|]. intros H.
  destruct (String.eqb_spec name k) as [E|E]; [eauto|].
  apply IH. destruct H as [H|H]; [congruence | exact H].
Qed.

Lemma dict_get_ok_in {V : Type} (name : string) (d : dict V) (v : V) :
  dict_get name d = Ok v -> In name (keys d).
Proof.
  induction d as [|[k w] d IH]; simpl; [discriminate|].
  destruct (String.eqb_spec name k) as [E|E]; auto.
Qed.

Lemma dict_get_map_keys {V : Type} (g : string -> V) (name : string)
    (names : list string) :
  In name names -> dict_get name (map (fun n => (n, g n)) names) = Ok (g name).
Proof.
  induction names as [|k names IH]; simpl; [contradiction|]. intros H.
  destruct (String.eqb_spec name k) as [E|E]; [now subst|].
  apply IH. destruct H as [H|H]; [congruence | exact H].
Qed.

(** The dict comprehension that builds [use_dones_in_backup]. *)
Lemma use_dones_comprehension (d : dict RewardSignal) (names : list string) :
  (forall name, In name names -> In name (keys d)) ->
  mapM (fun name => rs <- dict_get name d ;;
                    Ok (name, Z.b2z (use_terminal_states rs))) names
  = Ok (map (fun name =>
               (name, match dict_get name d with
                      | Ok rs => Z.b2z (use_terminal_states rs)
                      | Raise _ => 0%Z
                      end)) names).
Proof.
  induction names as [|k names IH]; intros H; simpl; [reflexivity|].
  destruct (dict_get_in k d (H k (or_introl eq_refl))) as (rs & E).
  rewrite E. simpl. rewrite IH by (intros; apply H; now right).
  reflexivity.
Qed.

(** X8.  [__init__] takes the stream names from the keys of
    [reward_signals], in their order, the discounts from the values of
    the trainer settings' reward signals, in theirs, and maps every
    stream name to 1 when its reward signal uses terminal states and to 0
    when it does not. *)
Theorem init_reward_streams (AdamState : Type) (policy : TorchPolicy)
    (trainer_params : TrainerSettings) (reward_signals : dict RewardSignal)
    (q1 q2 fresh : Network) (self : TorchSACOptimizer AdamState) :
  __init__ policy trainer_params reward_signals q1 q2 fresh = Ok self ->
  stream_names self = keys reward_signals
  /\ gammas self = map gamma (values (settings_reward_signals trainer_params))
  /\ keys (use_dones_in_backup self) = keys reward_signals
  /\ forall name rs,
      dict_get name reward_signals = Ok rs ->
      dict_get name (use_dones_in_backup self)
      = Ok (if use_terminal_states rs then 1%Z else 0%Z).
Proof.
  intros Hinit. unfold __init__ in Hinit.
  apply bind_ok in Hinit. destruct Hinit as (ud & Hud & Hinit).
  apply bind_ok in Hinit. destruct Hinit as (tn & _ & Hinit).
  apply bind_ok in Hinit. destruct Hinit as (te & _ & Hinit).
  injection Hinit as <-. simpl.
  rewrite use_dones_comprehension in Hud by auto. injection Hud as <-.
  repeat split.
  - unfold keys at 1. rewrite map_map. simpl. apply map_id.
  - intros name rs Hrs.
    rewrite (dict_get_map_keys
               (fun name => match dict_get name reward_signals with
                            | Ok rs => Z.b2z (use_terminal_states rs)
                            | Raise _ => 0%Z
                            end))
      by (eapply dict_get_ok_in; eauto).
    rewrite Hrs. now destruct (use_terminal_states rs).
Qed.

Lemma init_reward_streams_witness :
  exists self,
    demo_init true [1%Z] = Ok self
    /\ stream_names self = ["extrinsic"]
    /\ gammas self = [0.99]
    /\ dict_get "extrinsic" (use_dones_in_backup self) = Ok 1%Z.
Proof.
  destruct (demo_init true [1%Z]) as [self|e] eqn:E.
  - exists self. split; [reflexivity|]. unfold demo_init in E.
    destruct (init_reward_streams unit _ _ _ _ _ _ self E)
      as (Hn & Hg & _ & Hu).
    split; [exact Hn|]. split; [exact Hg|].
    exact (Hu "extrinsic" (mkRewardSignal true) eq_refl).
  - exfalso. revert E. unfold demo_init. tensor_eval. discriminate.
Defined.

(** * Signs of the losses *)

Lemma expand_in {A : Type} (n : nat) (l l' : list A) :
  expand n l = Ok l' -> forall x, In x l' -> In x l.
Proof.
  unfold expand. destruct (Nat.eqb _ _).
  - intros H. now injection H as <-.
  - destruct l as [|z [|z' l]]; try discriminate.
    intros H. injection H as <-. intros x Hx.
    apply repeat_spec in Hx. subst. now left.
Qed.

Lemma in_map2 {A B C : Type} (f : A -> B -> C) (l1 : list A) :
  forall l2 z, In z (map2 f l1 l2) ->
    exists x y, In x l1 /\ In y l2 /\ z = f x y.
Proof.
  induction l1 as [|a l1 IH]; intros [|b l2] z H; simpl in *;
    try contradiction.
  destruct H as [<-|H]; [exists a, b; auto|].
  destruct (IH l2 z H) as (x & y & Hx & Hy & E). exists x, y. auto.
Qed.

Lemma bcast_vec_in (f : R -> R -> R) (u v w : list R) :
  bcast_vec f u v = Ok w ->
  forall z, In z w -> exists x y, In x u /\ In y v /\ z = f x y.
Proof.
  unfold bcast_vec. intros H.
  apply bind_ok in H. destruct H as (u' & Hu & H).
  apply bind_ok in H. destruct H as (v' & Hv & H).
  injection H as <-. intros z Hz.
  destruct (in_map2 _ _ _ _ Hz) as (x & y & Hx & Hy & E).
  exists x, y. split; [eapply expand_in; eauto|].
  split; [eapply expand_in; eauto | exact E].
Qed.

Lemma mapM_in {A B : Type} (f : A -> result B) (l : list A) :
  forall bs, mapM f l = Ok bs ->
    forall b, In b bs -> exists a, In a l /\ f a = Ok b.
Proof.
  induction l as [|a l IH]; simpl; intros bs H.
  - injection H as <-. contradiction.
  - apply bind_ok in H. destruct H as (b0 & Hb0 & H).
    apply bind_ok in H. destruct H as (bs' & Hbs & H).
    injection H as <-. intros b [<-|Hb]; [eauto|].
    destruct (IH bs' Hbs b Hb) as (a' & Ha & E). eauto.
Qed.

Lemma bcast_rows_in (f : R -> R -> R) (a b m : list (list R)) :
  bcast_rows f a b = Ok m ->
  forall z, In z (concat m) ->
    exists x y, In x (concat a) /\ In y (concat b) /\ z = f x y.
Proof.
  unfold bcast_rows. intros H.
  apply bind_ok in H. destruct H as (a' & Ha & H).
  apply bind_ok in H. destruct H as (b' & Hb & H).
  intros z Hz. apply in_concat in Hz. destruct Hz as (w & Hw & Hz).
  destruct (mapM_in _ _ _ H w Hw) as ([r r'] & Hp & Hr).
  destruct (in_zip _ _ _ Hp) as (Hin & Hin'). simpl in *.
  destruct (bcast_vec_in _ _ _ _ Hr z Hz) as (x & y & Hx & Hy & E).
  exists x, y. split; [|split; [|exact E]]; apply in_concat.
  - exists r. split; [eapply expand_in; eauto | exact Hx].
  - exists r'. split; [eapply expand_in; eauto | exact Hy].
Qed.

(** Every entry of a broadcast result is [f x y] for an entry [x] of the
    left operand and an entry [y] of the right one. *)
Lemma bcast2_in (f : R -> R -> R) (a b d : tval) :
  bcast2 f a b = Ok d ->
  forall z, In z (elems d) ->
    exists x y, In x (elems a) /\ In y (elems b) /\ z = f x y.
Proof.
  unfold bcast2. intros H.
  apply bind_ok in H. destruct H as (m & Hm & H). injection H as <-.
  intros z Hz. apply (bcast_rows_in _ _ _ _ Hm).
  destruct a as [x|u|ma], b as [y|v|mb]; simpl in Hz;
    try exact Hz;
    try (unfold elems in Hz; simpl in Hz; rewrite app_nil_r in Hz;
         destruct m as [|w m]; [contradiction|];
         simpl; apply in_or_app; now left).
  simpl in Hm. injection Hm as <-. exact Hz.
Qed.

Lemma Rsum_nonneg (l : list R) : Forall (fun x => 0 <= x) l -> 0 <= Rsum l.
Proof. induction 1; simpl; lra. Qed.

Lemma mean_all_nonneg (d : tval) :
  Forall (fun x => 0 <= x) (elems d) -> 0 <= mean_all d.
Proof.
  intros H. unfold mean_all, numel.
  destruct (elems d) as [|x l] eqn:E.
  - simpl. unfold Rdiv. lra.
  - apply Rsum_nonneg in H. unfold Rdiv.
    apply Rmult_le_pos; [exact H|].
    left. apply Rinv_0_lt_compat. apply IZR_lt. simpl length. lia.
Qed.

(** A per-stream loss [0.5 * mean(loss_masks * mse_loss(a, b))] is a
    non-negative number when no mask is negative. *)
Lemma masked_half_mse_nonneg (loss_masks a b t : tensor) :
  Forall (fun m => 0 <= m) (elems (data loss_masks)) ->
  masked_half_mse loss_masks a b = Ok t ->
  exists x, data t = T0 x /\ 0 <= x.
Proof.
  intros Hm H. unfold masked_half_mse, mse_loss in H.
  apply bind_ok in H. destruct H as (mse & Hmse & H).
  apply bind_ok in Hmse. destruct Hmse as (sq & Hsq & Hmse).
  injection Hmse as <-.
  apply bind_ok in H. destruct H as (masked & Hmasked & H).
  injection H as <-. simpl. eexists. split; [reflexivity|].
  assert (H0 : 0 <= mean_all (data sq)).
  { apply mean_all_nonneg, Forall_forall. intros z Hz.
    unfold lift2 in Hsq. apply bind_ok in Hsq.
    destruct Hsq as (d & Hd & Hsq). injection Hsq as <-. simpl in Hz.
    destruct (bcast2_in _ _ _ _ Hd z Hz) as (x & y & _ & _ & ->).
    exact (Rle_0_sqr (x - y)). }
  assert (H1 : 0 <= mean_all (data masked)).
  { apply mean_all_nonneg, Forall_forall. intros z Hz.
    unfold t_mul, lift2 in Hmasked. apply bind_ok in Hmasked.
    destruct Hmasked as (d & Hd & Hmasked). injection Hmasked as <-.
    simpl in Hz, Hd.
    destruct (bcast2_in _ _ _ _ Hd z Hz) as (x & y & Hx & Hy & ->).
    pose proof (proj1 (Forall_forall _ _) Hm x Hx) as Hx0.
    destruct Hy as [<-|[]]. now apply Rmult_le_pos. }
  lra.
Qed.

Lemma mapM_Forall {A B : Type} (f : A -> result B) (P : B -> Prop)
    (l : list A) :
  (forall a b, f a = Ok b -> P b) ->
  forall bs, mapM f l = Ok bs -> Forall P bs.
Proof.
  intros Hf bs H. apply Forall_forall. intros b Hb.
  destruct (mapM_in _ _ _ H b Hb) as (a & _ & E). eauto.
Qed.

Lemma scalars_of_nonneg (ts : list tval) :
  Forall (fun d => exists x, d = T0 x /\ 0 <= x) ts ->
  forall xs, scalars_of ts = Ok xs -> Forall (fun x => 0 <= x) xs.
Proof.
  induction 1 as [|d ts (x & -> & Hx) _ IH]; simpl; intros xs H.
  - injection H as <-. constructor.
  - apply bind_ok in H. destruct H as (xs' & Hxs & H). injection H as <-.
    constructor; auto.
Qed.

(** The mean of stacked non-negative 0-dim losses. *)
Lemma mean_of_stack_nonneg (losses : list tensor) (stacked : tensor) :
  Forall (fun t => exists x, data t = T0 x /\ 0 <= x) losses ->
  t_stack losses = Ok stacked ->
  0 <= mean_all (data stacked).
Proof.
  intros HF H. unfold t_stack in H.
  apply bind_ok in H. destruct H as (d & Hd & H). injection H as <-. simpl.
  apply mean_all_nonneg.
  assert (HF' : Forall (fun d => exists x, d = T0 x /\ 0 <= x)
                  (map data losses)).
  { apply Forall_forall. intros d' Hd'. apply in_map_iff in Hd'.
    destruct Hd' as (t & <- & Ht).
    exact (proj1 (Forall_forall _ _) HF t Ht). }
  destruct (map data losses) as [|d0 ds] eqn:E; [discriminate|].
  inversion HF' as [|? ? (x & -> & _) _]; subst.
  unfold stack in Hd. apply bind_ok in Hd. destruct Hd as (xs & Hxs & Hd).
  injection Hd as <-. rewrite elems_T1.
  eapply scalars_of_nonneg; eauto.
Qed.

(** X12.  With loss masks that are not negative, the value loss that
    [sac_value_loss] returns is a non-negative number, for continuous and
    for discrete actions. *)
Theorem sac_value_loss_nonneg act_size coef isinf isnan lp v q1p q2p
    (loss_masks : tensor) discrete (value_loss : tensor) :
  Forall (fun m => 0 <= m) (elems (data loss_masks)) ->
  sac_value_loss act_size coef isinf isnan lp v q1p q2p loss_masks discrete
  = Ok value_loss ->
  exists x, data value_loss = T0 x /\ 0 <= x.
Proof.
  intros Hm H. unfold sac_value_loss in H.
  apply bind_ok in H. destruct H as (c & _ & H).
  apply bind_ok in H. destruct H as (mq & _ & H).
  apply bind_ok in H. destruct H as (vl & Hvl & H).
  apply bind_ok in H. destruct H as (st & Hst & H).
  destruct (_ || _) in H; [discriminate|]. injection H as <-. simpl.
  eexists. split; [reflexivity|].
  eapply mean_of_stack_nonneg; [|exact Hst].
  destruct discrete; simpl in Hvl.
  - apply bind_ok in Hvl. destruct Hvl as (pe & _ & Hvl).
    apply bind_ok in Hvl. destruct Hvl as (br & _ & Hvl).
    apply bind_ok in Hvl. destruct Hvl as (bt & _ & Hvl).
    apply bind_ok in Hvl. destruct Hvl as (bb & _ & Hvl).
    eapply mapM_Forall; [|exact Hvl]. intros name t Ht. simpl in Ht.
    apply bind_ok in Ht. destruct Ht as (vb & _ & Ht).
    apply bind_ok in Ht. destruct Ht as (val & _ & Ht).
    eapply masked_half_mse_nonneg; eauto.
  - eapply mapM_Forall; [|exact Hvl]. intros name t Ht. simpl in Ht.
    apply bind_ok in Ht. destruct Ht as (vb & _ & Ht).
    apply bind_ok in Ht. destruct Ht as (val & _ & Ht).
    eapply masked_half_mse_nonneg; eauto.
Qed.

Lemma sac_value_loss_nonneg_witness :
  exists value_loss x,
    sac_value_loss [1%Z] (mkT (T1 [0]) true) never never
      (mkT (T2 [[0]; [0]]) true) [("extrinsic", out_vec [1; 2])]
      [("extrinsic", out_vec [0; 0])] [("extrinsic", out_vec [0; 0])]
      (vec [1; 1]) false = Ok value_loss
    /\ data value_loss = T0 x /\ 0 <= x.
Proof.
  destruct (sac_value_loss [1%Z] (mkT (T1 [0]) true) never never
              (mkT (T2 [[0]; [0]]) true) [("extrinsic", out_vec [1; 2])]
              [("extrinsic", out_vec [0; 0])] [("extrinsic", out_vec [0; 0])]
              (vec [1; 1]) false) as [value_loss|e] eqn:E.
  - exists value_loss.
    assert (Hm : Forall (fun m => 0 <= m) (elems (data (vec [1; 1]))))
      by (unfold vec, elems; simpl; repeat constructor; lra).
    destruct (sac_value_loss_nonneg _ _ _ _ _ _ _ _ _ _ value_loss Hm E)
      as (x & H).
    exists x. split; [reflexivity | exact H].
  - exfalso. revert E. tensor_eval. discriminate.
Defined.

(** * Streams *)

(** X13.  The per-stream losses are stacked before they are averaged,
    and [torch.stack] refuses an empty list: without any stream
    [sac_q_loss], [sac_policy_loss] and the continuous [sac_value_loss]
    raise [RuntimeError] instead of returning a zero loss. *)
Theorem losses_need_a_stream ud g q2 tv d r (loss_masks : tensor)
    act_size coef isinf isnan lp q1p q2p discrete :
  sac_q_loss ud g [] q2 tv d r loss_masks = Raise RuntimeError
  /\ sac_value_loss act_size coef isinf isnan lp [] q1p q2p loss_masks false
     = Raise RuntimeError
  /\ sac_policy_loss act_size coef lp [] loss_masks discrete
     = Raise RuntimeError.
Proof. repeat split; reflexivity. Qed.

Lemma enumerate_from_in {A : Type} (l : list A) :
  forall s a, In a l -> exists i, In (i, a) (enumerate_from s l).
Proof.
  induction l as [|b l IH]; intros s a H; [contradiction|]. simpl.
  destruct H as [->|H]; [eauto|].
  destruct (IH (S s) a H) as (i & Hi). eauto.
Qed.

Lemma enumerate_from_bound {A : Type} (n : nat) (l : list A) :
  forall s, (forall p, In p (enumerate_from s l) -> (fst p < n)%nat) ->
    l = [] \/ (s + length l <= n)%nat.
Proof.
  induction l as [|a l IH]; intros s H; [now left|]. right. simpl in *.
  pose proof (H (s, a) (or_introl eq_refl)) as Hs. simpl in Hs.
  destruct (IH (S s)) as [->|Hl]; [intros; apply H; now right | |];
    simpl; lia.
Qed.

Lemma sac_q_loss_loop_reads ud g q1 q2 tv d r m
    (todo : list (nat * string)) :
  forall acc1 acc2 out,
    sac_q_loss_loop ud g q1 q2 tv d r m todo acc1 acc2 = Ok out ->
    forall p, In p todo ->
      (fst p < length g)%nat
      /\ In (snd p) (keys q1) /\ In (snd p) (keys q2)
      /\ In (snd p) (keys r) /\ In (snd p) (keys tv)
      /\ In (snd p) (keys ud).
Proof.
  induction todo as [|[i name] todo IH]; intros acc1 acc2 out H p Hp;
    [contradiction|]. simpl in H.
  apply bind_ok in H. destruct H as (a1 & Hq1 & H).
  apply bind_ok in H. destruct H as (a2 & Hq2 & H).
  apply bind_ok in H. destruct H as (bk & Hbk & H).
  apply bind_ok in H. destruct H as (t1 & _ & H).
  apply bind_ok in H. destruct H as (t2 & _ & H).
  destruct Hp as [<-|Hp]; [|eapply IH; eauto]. simpl.
  unfold q_backup, no_grad in Hbk.
  apply bind_ok in Hbk. destruct Hbk as (bk' & Hbk & _).
  apply bind_ok in Hbk. destruct Hbk as (rw & Hr & Hbk).
  apply bind_ok in Hbk. destruct Hbk as (u & Hu & Hbk).
  apply bind_ok in Hbk. destruct Hbk as (gm & Hg & Hbk).
  apply bind_ok in Hbk. destruct Hbk as (tg & Ht & _).
  split.
  - unfold list_get in Hg. destruct (nth_error g i) eqn:E; [|discriminate].
    apply nth_error_Some. congruence.
  - repeat split; eapply dict_get_ok_in; eauto.
Qed.

(** X14.  [sac_q_loss] iterates over the keys of [q1_out] and reads, for
    each of them, the same key in [q2_out], [rewards], [target_values]
    and [use_dones_in_backup], and the discount at the key's position:
    it returns only if [q1_out] has a stream, every stream of [q1_out]
    is present in the four other dicts, and [gammas] has an entry for
    every stream. *)
Theorem sac_q_loss_needs_every_stream ud g q1 q2 tv d r (m a b : tensor) :
  sac_q_loss ud g q1 q2 tv d r m = Ok (a, b) ->
  q1 <> []
  /\ (length q1 <= length g)%nat
  /\ forall name, In name (keys q1) ->
       In name (keys q2) /\ In name (keys r) /\ In name (keys tv)
       /\ In name (keys ud).
Proof.
  intros H. unfold sac_q_loss in H.
  apply bind_ok in H. destruct H as ([l1 l2] & Hloop & H).
  pose proof (sac_q_loss_loop_reads _ _ _ _ _ _ _ _ _ _ _ _ Hloop) as Hreads.
  split; [|split].
  - intros ->. simpl in Hloop. injection Hloop as <- <-. discriminate H.
  - destruct (enumerate_from_bound (length g) (keys q1) 0) as [E|E].
    + intros p Hp. apply (Hreads p Hp).
    + unfold keys in E. destruct q1; [simpl; lia | discriminate].
    + unfold keys in E. rewrite length_map in E. exact E.
  - intros name Hin.
    destruct (enumerate_from_in (keys q1) 0 name Hin) as (i & Hi).
    destruct (Hreads (i, name) Hi) as (_ & _ & H2 & Hr & Ht & Hu). auto.
Qed.

Lemma sac_q_loss_needs_every_stream_witness :
  exists a b,
    q_loss_with_padded_reward 5 = Ok (a, b)
    /\ In "extrinsic" (keys [("extrinsic", vec [0; 5])]).
Proof.
  destruct (q_loss_with_padded_reward 5) as [[a b]|e] eqn:E.
  - exists a, b. split; [reflexivity|]. unfold q_loss_with_padded_reward in E.
    destruct (sac_q_loss_needs_every_stream _ _ _ _ _ _ _ _ _ _ E)
      as (_ & _ & H).
    apply (H "extrinsic"). now left.
  - exfalso. revert E. unfold q_loss_with_padded_reward. tensor_eval.
    discriminate.
Defined.

(** * The losses for continuous actions *)

Lemma map2_map_same {A B C D : Type} (f : B -> C -> D) (a : A -> B)
    (b : A -> C) (l : list A) :
  map2 f (map a l) (map b l) = map (fun p => f (a p) (b p)) l.
Proof. induction l as [|p l IH]; simpl; [reflexivity | now rewrite IH]. Qed.

Lemma bcast2_vectors {A : Type} (f : R -> R -> R) (a b : A -> R)
    (steps : list A) :
  bcast2 f (vector a steps) (vector b steps)
  = Ok (vector (fun p => f (a p) (b p)) steps).
Proof.
  unfold vector. rewrite bcast2_T1_T1 by now rewrite !length_map.
  now rewrite map2_map_same.
Qed.

Lemma sum_vectors {A : Type} (steps : list A) (sels : list (A -> R)) :
  forall acc,
    sum_slices (vector acc steps) (map (fun s => vector s steps) sels)
    = Ok (vector (fun p => fold_left (fun x s => x + s p) sels (acc p))
            steps).
Proof.
  induction sels as [|s sels IH]; intros acc; simpl; [reflexivity|].
  rewrite bcast2_vectors. simpl. now rewrite IH.
Qed.

Lemma stack_vectors {A : Type} (steps : list A) (sels : list (A -> R)) :
  sels <> [] ->
  stack_slices (map (fun s => vector s steps) sels)
  = Ok (map (fun s => vector s steps) sels).
Proof.
  destruct sels as [|s0 sels]; [congruence|]. intros _.
  assert (E : forallb (fun u => shape_eqb (shape u)
                                 (shape (vector s0 steps)))
                (map (fun s => vector s steps) sels) = true).
  { apply forallb_forall. intros t Ht.
    apply in_map_iff in Ht. destruct Ht as (s & <- & _).
    unfold vector. simpl. now rewrite !length_map, Nat.eqb_refl. }
  unfold stack_slices. simpl map. cbv iota beta. now rewrite E.
Qed.

(** The mean over dimension 0 of stacked vectors, entry by entry. *)
Lemma mean_vectors {A : Type} (steps : list A) (sels : list (A -> R)) :
  sels <> [] ->
  mean_dim0 (map (fun s => vector s steps) sels)
  = Ok (vector (fun p => mean (map (fun s => s p) sels)) steps).
Proof.
  destruct sels as [|s0 sels]; [congruence|]. intros _.
  simpl map. unfold mean_dim0. rewrite sum_vectors. simpl.
  unfold vector. simpl. do 2 f_equal. rewrite map_map.
  apply map_ext. intros p. unfold mean. simpl.
  rewrite fold_left_Rsum, !length_map. reflexivity.
Qed.

Lemma bcast_vec_scalar_l (f : R -> R -> R) (c : R) (v : list R) :
  bcast_vec f [c] v = Ok (map (f c) v).
Proof.
  unfold bcast_vec, bsize. simpl length. simpl Nat.eqb. cbv iota.
  rewrite expand_single, expand_same. simpl.
  f_equal. induction v as [|x v IH]; simpl; [reflexivity | now rewrite IH].
Qed.

Lemma mapM_rows_scalar_l (f : R -> R -> R) (c : R) (m : list (list R)) :
  mapM (fun p => bcast_vec f (fst p) (snd p)) (zip (repeat [c] (length m)) m)
  = Ok (map (map (f c)) m).
Proof.
  induction m as [|r m IH]; simpl; [reflexivity|].
  now rewrite bcast_vec_scalar_l, IH.
Qed.

(** A one-element vector against a matrix: the element meets every entry. *)
Lemma bcast2_single_matrix (f : R -> R -> R) (c : R) (m : list (list R)) :
  bcast2 f (T1 [c]) (T2 m) = Ok (T2 (map (map (f c)) m)).
Proof.
  unfold bcast2, bcast_rows. simpl rows_of. simpl length.
  unfold bsize. simpl Nat.eqb. cbv iota.
  rewrite expand_single, expand_same. simpl bind.
  now rewrite mapM_rows_scalar_l.
Qed.

(** A matrix against a column: each row meets its own entry. *)
Lemma bcast2_matrix_column {A : Type} (f : R -> R -> R) (rows : A -> list R)
    (c : A -> R) (steps : list A) :
  bcast2 f (matrix rows steps) (T2 (map (fun p => [c p]) steps))
  = Ok (matrix (fun p => map (fun x => f x (c p)) (rows p)) steps).
Proof.
  unfold matrix, bcast2, bcast_rows. simpl rows_of.
  rewrite !length_map, bsize_same.
  rewrite <- (length_map rows steps) at 1. rewrite expand_same. simpl bind.
  rewrite <- (length_map (fun p => [c p]) steps) at 1.
  rewrite expand_same. simpl bind.
  rewrite zip_map, mapM_map. simpl.
  rewrite (mapM_ok _ (fun p => map (fun x => f x (c p)) (rows p)));
    [reflexivity|].
  intros p _. apply bcast_vec_scalar_r.
Qed.

Lemma any_flag_streams {A : Type} (f : value_stream A -> A -> R)
    (flag : bool) (steps : list A) (streams : list (value_stream A)) :
  streams <> [] ->
  any_flag (map (fun s => mkT (vector (f s) steps) flag) streams) = flag.
Proof.
  unfold any_flag. destruct streams as [|s0 ss]; [congruence|]. intros _.
  simpl. destruct flag; [reflexivity|]. simpl.
  induction ss as [|s ss IH]; simpl; auto.
Qed.

(** [torch.mean(torch.stack(list(q1p_outs.values())), axis=0)]. *)
Lemma mean_q1_tensor {A : Type} (fq : bool) (steps : list A)
    (streams : list (value_stream A)) :
  streams <> [] ->
  bind (t_stack_slices (values (stream_tensors vs_q1p fq steps streams)))
    t_mean_dim0
  = Ok (mkT (vector (fun p => mean (map (fun s => vs_q1p s p) streams)) steps)
          fq).
Proof.
  intros Hne.
  unfold stream_tensors, values. rewrite map_map. simpl.
  unfold t_stack_slices. rewrite map_map. simpl.
  assert (Hne' : map vs_q1p streams <> [])
    by (destruct streams; [congruence | discriminate]).
  rewrite <- (map_map vs_q1p (fun s => vector s steps)).
  rewrite stack_vectors by exact Hne'. simpl bind.
  rewrite (any_flag_streams vs_q1p fq steps streams Hne).
  unfold t_mean_dim0. rewrite !map_map. simpl.
  rewrite <- (map_map vs_q1p (fun s => vector s steps)).
  rewrite mean_vectors by exact Hne'. simpl bind.
  rewrite (any_flag_streams vs_q1p fq steps streams Hne).
  unfold vector. do 3 f_equal. apply map_ext. intros p. now rewrite map_map.
Qed.

Lemma mean_dim1_matrix {A : Type} (rows : A -> list R) (steps : list A) :
  mean_dim1 (matrix rows steps)
  = Ok (vector (fun p => mean (rows p)) steps).
Proof. unfold matrix, vector, mean. simpl. now rewrite map_map. Qed.

Lemma sum_dim1_matrix {A : Type} (rows : A -> list R) (steps : list A) :
  sum_dim1 (matrix rows steps) = Ok (vector (fun p => Rsum (rows p)) steps).
Proof. unfold matrix, vector. simpl. now rewrite map_map. Qed.

Lemma mean_all_vector {A : Type} (f : A -> R) (steps : list A) :
  mean_all (vector f steps) = mean (map f steps).
Proof. apply mean_all_T1. Qed.

(** The policy loss for continuous actions, one entropy coefficient. *)
Lemma sac_policy_loss_continuous_value {A : Type} (steps : list A)
    (mask : A -> R) (lps : A -> list R) (streams : list (value_stream A))
    (lc : R) (act_size : list Z) (fc fl fq fm : bool) :
  streams <> [] ->
  sac_policy_loss act_size (mkT (T1 [lc]) fc) (mkT (matrix lps steps) fl)
    (stream_tensors vs_q1p fq steps streams) (mkT (vector mask steps) fm)
    false
  = Ok (mkT (T0 (mean (map (fun p =>
                   mask p
                   * mean (map (fun l =>
                                  exp lc * l
                                  - mean (map (fun s => vs_q1p s p) streams))
                             (lps p)))
                  steps)))
          (fm || (fc || fl || fq))).
Proof.
  intros Hne. unfold sac_policy_loss.
  pose proof (mean_q1_tensor fq steps streams Hne) as Hq.
  destruct (t_stack_slices _) as [stacked|e]; [|discriminate Hq].
  simpl in Hq. simpl bind at 1. rewrite Hq. simpl bind at 1.
  simpl negb. cbv iota.
  unfold t_mul, t_sub, t_exp, lift1, lift2, t_mean_dim1, lift_r, t_mean.
  simpl data. simpl requires_grad.
  unfold matrix at 1. rewrite bcast2_single_matrix. simpl bind.
  rewrite !map_map.
  change (T2 (map (fun p => map (Rmult (exp lc)) (lps p)) steps))
    with (matrix (fun p => map (Rmult (exp lc)) (lps p)) steps).
  rewrite bcast2_matrix_column. simpl bind.
  rewrite !map_map.
  repeat match goal with
         | |- context [T1 (map ?f steps)] =>
             change (T1 (map f steps)) with (vector f steps)
         end.
  repeat (rewrite bcast2_vectors; simpl bind; cbn [data requires_grad]).
  rewrite mean_all_vector. do 3 f_equal. apply (f_equal mean).
  apply map_ext. intros p. unfold mean. now rewrite !map_map.
Qed.


Lemma bcast2_single_vector (f : R -> R -> R) (c : R) (v : list R) :
  bcast2 f (T1 [c]) (T1 v) = Ok (T1 (map (f c) v)).
Proof.
  unfold bcast2, bcast_rows. simpl. now rewrite bcast_vec_scalar_l.
Qed.

(** The entropy loss for continuous actions, one log-coefficient. *)
Lemma sac_entropy_loss_continuous_value {A : Type} (steps : list A)
    (mask : A -> R) (lps : A -> list R) (lc te : R) (act_size : list Z)
    (fc ft fl fm : bool) :
  sac_entropy_loss act_size (mkT (T1 [lc]) fc)
    (TargetEntropyTensor (mkT (T0 te) ft))
    (mkT (matrix lps steps) fl) (mkT (vector mask steps) fm) false
  = Ok (mkT (T0 (- mean (map (fun p =>
                     lc * mask p * Rsum (map (fun l => l + te) (lps p)))
                    steps)))
          (fc || fm)).
Proof.
  unfold sac_entropy_loss. simpl negb. cbv iota.
  unfold t_add, t_mul, lift2, t_sum_dim1, lift_r, no_grad, t_neg, t_mean,
    lift1.
  cbn [data requires_grad].
  rewrite bcast2_T0_r. simpl bind. cbn [data requires_grad].
  unfold vector at 1. rewrite bcast2_single_vector. simpl bind.
  cbn [data requires_grad].
  rewrite !map_map.
  repeat match goal with
         | |- context [T1 (map ?f steps)] =>
             change (T1 (map f steps)) with (vector f steps)
         end.
  rewrite bcast2_vectors. simpl bind. cbn [data requires_grad map_tval].
  now rewrite mean_all_vector, orb_false_r.
Qed.

Lemma dict_get_by_name {A V : Type} (g : value_stream A -> V)
    (streams : list (value_stream A)) :
  NoDup (map vs_name streams) ->
  forall s, In s streams ->
    dict_get (vs_name s) (map (fun s => (vs_name s, g s)) streams) = Ok (g s).
Proof.
  induction streams as [|a ss IH]; intros Hnd s Hin; [destruct Hin|].
  inversion Hnd as [|? ? Hnotin Hnd']; subst.
  simpl. destruct (String.eqb_spec (vs_name s) (vs_name a)) as [E|E].
  - destruct Hin as [->|Hin]; [reflexivity|].
    exfalso. apply Hnotin. rewrite <- E. now apply in_map.
  - destruct Hin as [->|Hin]; [congruence | now apply IH].
Qed.

(** One per-stream loss on per-step vectors. *)
Lemma masked_half_mse_vectors {A : Type} (steps : list A) (m a b : A -> R)
    (fm fa fb : bool) :
  masked_half_mse (mkT (vector m steps) fm) (mkT (vector a steps) fa)
    (mkT (vector b steps) fb)
  = Ok (mkT (T0 (0.5 * mean (map (fun p =>
                                   m p * mse (map a steps) (map b steps))
                              steps)))
          (fm || (fa || fb))).
Proof.
  unfold masked_half_mse, mse_loss, t_mul, lift2, t_mean, s_mul, lift1.
  cbn [data requires_grad].
  rewrite bcast2_vectors. simpl bind. cbn [data requires_grad].
  unfold vector at 1. rewrite bcast2_T1_T0. simpl bind.
  cbn [data requires_grad map_tval].
  rewrite mean_all_T1, mean_all_vector, map_map.
  unfold mse. now rewrite map2_map_same.
Qed.

Lemma t_stack_scalar_list {B : Type} (g : B -> R) (flag : bool) (l : list B) :
  l <> [] ->
  t_stack (map (fun s => mkT (T0 (g s)) flag) l)
  = Ok (mkT (T1 (map g l)) flag).
Proof.
  intros Hne. unfold t_stack. rewrite map_map. simpl.
  rewrite <- (map_map g T0).
  rewrite stack_scalars by (destruct l; [congruence | discriminate]).
  simpl. do 2 f_equal.
  destruct l as [|b l]; [congruence|]. simpl.
  destruct flag; [reflexivity|]. simpl.
  induction l as [|c l IH]; simpl; auto.
  apply IH. discriminate.
Qed.

(** The value loss for continuous actions, one entropy coefficient. *)
Lemma sac_value_loss_continuous_value {A : Type} (steps : list A)
    (mask : A -> R) (lps : A -> list R) (streams : list (value_stream A))
    (lc : R) (act_size : list Z) (isinf isnan : R -> bool)
    (fc fl fv f1 f2 fm : bool) :
  streams <> [] ->
  NoDup (map vs_name streams) ->
  let backup s p :=
    Rmin (vs_q1p s p) (vs_q2p s p) - Rsum (map (fun l => exp lc * l) (lps p)) in
  let stream_loss s :=
    0.5 * mean (map (fun p => mask p * mse (map (vs_value s) steps)
                                         (map (backup s) steps)) steps) in
  let x := mean (map stream_loss streams) in
  sac_value_loss act_size (mkT (T1 [lc]) fc) isinf isnan
    (mkT (matrix lps steps) fl)
    (stream_tensors vs_value fv steps streams)
    (stream_tensors vs_q1p f1 steps streams)
    (stream_tensors vs_q2p f2 steps streams)
    (mkT (vector mask steps) fm) false
  = if isinf x || isnan x
    then Raise (UnityTrainerException "Inf found")
    else Ok (mkT (T0 x) (fm || fv)).
Proof.
  intros Hne Hnd backup stream_loss x. unfold sac_value_loss.
  unfold no_grad at 1. simpl bind at 1.
  assert (Hkeys : keys (stream_tensors vs_value fv steps streams)
                  = map vs_name streams).
  { unfold keys, stream_tensors. now rewrite map_map. }
  rewrite Hkeys. simpl negb. cbv iota.
  rewrite mapM_map.
  rewrite (mapM_ok _ (fun s => (vs_name s,
                                mkT (vector (fun p => Rmin (vs_q1p s p)
                                                        (vs_q2p s p)) steps)
                                  (f1 || f2)))).
  2:{ intros s Hs. unfold min_policy_q. simpl negb. cbv iota.
      unfold stream_tensors.
      rewrite !(dict_get_by_name _ streams Hnd s Hs). simpl bind.
      unfold t_min, lift2. cbn [data requires_grad].
      rewrite bcast2_vectors. reflexivity. }
  simpl bind at 1.
  rewrite mapM_map.
  rewrite (mapM_ok _ (fun s => mkT (T0 (stream_loss s)) (fm || fv))).
  2:{ intros s Hs. unfold no_grad.
      rewrite (dict_get_by_name _ streams Hnd s Hs). simpl bind.
      unfold t_mul, t_sub, t_exp, lift1, lift2, t_sum_dim1, lift_r.
      cbn [data requires_grad map_tval map].
      unfold matrix. rewrite bcast2_single_matrix. simpl bind.
      rewrite !map_map.
      repeat match goal with
             | |- context [T1 (map ?f steps)] =>
                 change (T1 (map f steps)) with (vector f steps)
             end.
      rewrite bcast2_vectors. simpl bind. cbn [data requires_grad].
      unfold stream_tensors.
      rewrite (dict_get_by_name _ streams Hnd s Hs). simpl bind.
      rewrite masked_half_mse_vectors. rewrite orb_false_r.
      reflexivity. }
  simpl bind at 1.
  rewrite t_stack_scalar_list by exact Hne. simpl bind.
  unfold t_any, t_mean. cbn [data requires_grad].
  rewrite mean_all_T1. fold x. unfold elems. simpl.
  now rewrite !orb_false_r.
Qed.

(** X15.  For continuous actions with one entropy coefficient
    [exp(lc)], [sac_policy_loss] is the mean over the steps of
    [mask * mean_j (exp(lc) * log_prob_j - mean_q1)], where [mean_q1] is
    the mean over the reward streams of the Q1-estimate at that step. *)
Theorem sac_policy_loss_continuous {A : Type} (steps : list A)
    (mask : A -> R) (lps : A -> list R) (streams : list (value_stream A))
    (lc : R) (n : nat) (act_size : list Z) (fc fl fq fm : bool) :
  streams <> [] ->
  NoDup (map vs_name streams) ->
  steps <> [] ->
  (0 < n)%nat ->
  Forall (fun p => length (lps p) = n) steps ->
  exists policy_loss,
    sac_policy_loss act_size (mkT (T1 [lc]) fc) (mkT (matrix lps steps) fl)
      (stream_tensors vs_q1p fq steps streams) (mkT (vector mask steps) fm)
      false
    = Ok policy_loss
    /\ data policy_loss
       = T0 (mean (map (fun p =>
                          mask p
                          * mean (map (fun l =>
                                         exp lc * l
                                         - mean (map (fun s => vs_q1p s p)
                                                   streams))
                                    (lps p)))
                     steps)).
Proof.
  intros Hne _ _ _ _. eexists. split.
  - now apply sac_policy_loss_continuous_value.
  - reflexivity.
Qed.

Lemma demo_names : NoDup (map vs_name demo_value_streams).
Proof. simpl. repeat constructor. simpl. tauto. Qed.

Lemma demo_rows (steps : list R) :
  Forall (fun p => length (demo_lps p) = 2%nat) steps.
Proof. apply Forall_forall. reflexivity. Qed.

Lemma sac_policy_loss_continuous_witness :
  exists policy_loss,
    sac_policy_loss [2%Z] (mkT (T1 [0]) true)
      (mkT (matrix demo_lps demo_steps) true)
      (stream_tensors vs_q1p true demo_steps demo_value_streams)
      (mkT (vector demo_mask demo_steps) false) false
    = Ok policy_loss
    /\ data policy_loss
       = T0 (mean (map (fun p =>
                          demo_mask p
                          * mean (map (fun l =>
                                         exp 0 * l
                                         - mean (map (fun s => vs_q1p s p)
                                                   demo_value_streams))
                                    (demo_lps p)))
                     demo_steps)).
Proof.
  apply (sac_policy_loss_continuous demo_steps demo_mask demo_lps
           demo_value_streams 0 2 [2%Z] true true true false).
  - discriminate.
  - exact demo_names.
  - discriminate.
  - lia.
  - apply demo_rows.
Defined.

Lemma map_Forall2 {A B : Type} (f : A -> B) (l l' : list A) :
  Forall2 (fun p p' => f p = f p') l l' -> map f l = map f l'.
Proof. induction 1; simpl; congruence. Qed.

(** X16.  The policy loss masks step by step: two batches that agree on
    the masks, and on the log-probabilities and Q1-estimates of every
    step whose mask is not 0, have the same policy loss, whatever the
    masked steps hold. *)
Theorem sac_policy_loss_ignores_masked_steps {A : Type}
    (steps steps' : list A) (mask : A -> R) (lps : A -> list R)
    (streams : list (value_stream A)) (lc : R) (act_size : list Z)
    (fc fl fq fm : bool) :
  streams <> [] ->
  Forall2 (fun p p' =>
             mask p = mask p'
             /\ (mask p <> 0 ->
                 lps p = lps p'
                 /\ forall s, In s streams -> vs_q1p s p = vs_q1p s p'))
    steps steps' ->
  sac_policy_loss act_size (mkT (T1 [lc]) fc) (mkT (matrix lps steps) fl)
    (stream_tensors vs_q1p fq steps streams) (mkT (vector mask steps) fm)
    false
  = sac_policy_loss act_size (mkT (T1 [lc]) fc) (mkT (matrix lps steps') fl)
      (stream_tensors vs_q1p fq steps' streams) (mkT (vector mask steps') fm)
      false.
Proof.
  intros Hne H. rewrite !sac_policy_loss_continuous_value by exact Hne.
  do 3 f_equal. apply (f_equal mean). apply map_Forall2.
  eapply Forall2_impl; [|exact H]. intros p p' (Hm & Hd). cbv beta.
  destruct (Req_dec_T (mask p) 0) as [E|E].
  - rewrite <- Hm, E. lra.
  - destruct (Hd E) as (Hl & Hq). rewrite <- Hm, <- Hl. do 2 f_equal.
    apply map_ext. intros l. do 2 f_equal. now apply map_ext_in.
Qed.

Lemma demo_same_valid_steps :
  Forall2 (fun p p' =>
             demo_mask p = demo_mask p'
             /\ (demo_mask p <> 0 ->
                 demo_lps p = demo_lps p'
                 /\ forall s, In s demo_value_streams ->
                      vs_q1p s p = vs_q1p s p'))
    demo_steps demo_padded_steps.
Proof.
  unfold demo_steps, demo_padded_steps, demo_mask.
  constructor; [|constructor; [|constructor]].
  - split; [reflexivity|]. intros _. split; reflexivity.
  - destruct (Req_dec_T 5 1) as [E|_]; [lra|].
    destruct (Req_dec_T 7 1) as [E|_]; [lra|].
    split; [reflexivity|]. intros H. now elim H.
Qed.

Lemma sac_policy_loss_ignores_masked_steps_witness :
  sac_policy_loss [2%Z] (mkT (T1 [0]) true)
    (mkT (matrix demo_lps demo_steps) true)
    (stream_tensors vs_q1p true demo_steps demo_value_streams)
    (mkT (vector demo_mask demo_steps) false) false
  = sac_policy_loss [2%Z] (mkT (T1 [0]) true)
      (mkT (matrix demo_lps demo_padded_steps) true)
      (stream_tensors vs_q1p true demo_padded_steps demo_value_streams)
      (mkT (vector demo_mask demo_padded_steps) false) false.
Proof.
  apply (sac_policy_loss_ignores_masked_steps demo_steps demo_padded_steps
           demo_mask demo_lps demo_value_streams 0 [2%Z]
           true true true false).
  - discriminate.
  - exact demo_same_valid_steps.
Defined.

(** X17.  For continuous actions with one log-coefficient [lc] and the
    0-dim target entropy [te], [sac_entropy_loss] is minus the mean over
    the steps of [lc * mask * sum_j (log_prob_j + te)]: the target
    entropy is added to the log-probability of every action dimension
    before the sum over the dimensions. *)
Theorem sac_entropy_loss_continuous {A : Type} (steps : list A)
    (mask : A -> R) (lps : A -> list R) (lc te : R) (n : nat)
    (act_size : list Z) (fc ft fl fm : bool) :
  steps <> [] ->
  (0 < n)%nat ->
  Forall (fun p => length (lps p) = n) steps ->
  exists entropy_loss,
    sac_entropy_loss act_size (mkT (T1 [lc]) fc)
      (TargetEntropyTensor (mkT (T0 te) ft))
      (mkT (matrix lps steps) fl) (mkT (vector mask steps) fm) false
    = Ok entropy_loss
    /\ data entropy_loss
       = T0 (- mean (map (fun p =>
                            lc * mask p
                            * Rsum (map (fun l => l + te) (lps p)))
                       steps)).
Proof.
  intros _ _ _. eexists. split.
  - apply sac_entropy_loss_continuous_value.
  - reflexivity.
Qed.

Lemma sac_entropy_loss_continuous_witness :
  exists entropy_loss,
    sac_entropy_loss [2%Z] (mkT (T1 [0]) true)
      (TargetEntropyTensor (const (-2)))
      (mkT (matrix demo_lps demo_steps) true)
      (mkT (vector demo_mask demo_steps) false) false
    = Ok entropy_loss
    /\ data entropy_loss
       = T0 (- mean (map (fun p =>
                            0 * demo_mask p
                            * Rsum (map (fun l => l + -2) (demo_lps p)))
                       demo_steps)).
Proof.
  apply (sac_entropy_loss_continuous demo_steps demo_mask demo_lps 0 (-2) 2
           [2%Z] true false true false).
  - discriminate.
  - lia.
  - apply demo_rows.
Defined.

(** X18.  The entropy loss masks step by step: two batches that agree
    on the masks, and on the log-probabilities of every step whose mask
    is not 0, have the same entropy loss. *)
Theorem sac_entropy_loss_ignores_masked_steps {A : Type}
    (steps steps' : list A) (mask : A -> R) (lps : A -> list R)
    (lc te : R) (act_size : list Z) (fc ft fl fm : bool) :
  Forall2 (fun p p' => mask p = mask p' /\ (mask p <> 0 -> lps p = lps p'))
    steps steps' ->
  sac_entropy_loss act_size (mkT (T1 [lc]) fc)
    (TargetEntropyTensor (mkT (T0 te) ft))
    (mkT (matrix lps steps) fl) (mkT (vector mask steps) fm) false
  = sac_entropy_loss act_size (mkT (T1 [lc]) fc)
      (TargetEntropyTensor (mkT (T0 te) ft))
      (mkT (matrix lps steps') fl) (mkT (vector mask steps') fm) false.
Proof.
  intros H. rewrite !sac_entropy_loss_continuous_value.
  do 3 f_equal. apply (f_equal Ropp). apply (f_equal mean).
  apply map_Forall2.
  eapply Forall2_impl; [|exact H]. intros p p' (Hm & Hd). cbv beta.
  destruct (Req_dec_T (mask p) 0) as [E|E].
  - rewrite <- Hm, E. lra.
  - now rewrite <- Hm, <- (Hd E).
Qed.

Lemma sac_entropy_loss_ignores_masked_steps_witness :
  sac_entropy_loss [2%Z] (mkT (T1 [0.5]) true)
    (TargetEntropyTensor (const (-2)))
    (mkT (matrix demo_lps demo_steps) true)
    (mkT (vector demo_mask demo_steps) false) false
  = sac_entropy_loss [2%Z] (mkT (T1 [0.5]) true)
      (TargetEntropyTensor (const (-2)))
      (mkT (matrix demo_lps demo_padded_steps) true)
      (mkT (vector demo_mask demo_padded_steps) false) false.
Proof.
  apply (sac_entropy_loss_ignores_masked_steps demo_steps demo_padded_steps
           demo_mask demo_lps 0.5 (-2) [2%Z] true false true false).
  eapply Forall2_impl; [|exact demo_same_valid_steps].
  intros p p' (Hm & Hd). split; [exact Hm|]. intros H. now apply Hd.
Defined.

(** X19.  For continuous actions with one entropy coefficient
    [exp(lc)], the backup of a stream at a step is
    [min(Q1, Q2) - sum_j exp(lc) * log_prob_j], the loss of a stream is
    [0.5 * mean_b (mask_b * MSE)] where [MSE] is the mean over all the
    steps of the batch of the squared difference between the value
    estimate and the backup, and [sac_value_loss] returns the mean of
    these losses over the streams, unless one of the two tests flags
    it, in which case it raises [UnityTrainerException]. *)
Theorem sac_value_loss_continuous {A : Type} (steps : list A)
    (mask : A -> R) (lps : A -> list R) (streams : list (value_stream A))
    (lc : R) (n : nat) (act_size : list Z) (isinf isnan : R -> bool)
    (fc fl fv f1 f2 fm : bool) :
  streams <> [] ->
  NoDup (map vs_name streams) ->
  steps <> [] ->
  (0 < n)%nat ->
  Forall (fun p => length (lps p) = n) steps ->
  let backup s p :=
    Rmin (vs_q1p s p) (vs_q2p s p) - Rsum (map (fun l => exp lc * l) (lps p)) in
  let stream_loss s :=
    0.5 * mean (map (fun p => mask p * mse (map (vs_value s) steps)
                                         (map (backup s) steps)) steps) in
  let x := mean (map stream_loss streams) in
  sac_value_loss act_size (mkT (T1 [lc]) fc) isinf isnan
    (mkT (matrix lps steps) fl)
    (stream_tensors vs_value fv steps streams)
    (stream_tensors vs_q1p f1 steps streams)
    (stream_tensors vs_q2p f2 steps streams)
    (mkT (vector mask steps) fm) false
  = if isinf x || isnan x
    then Raise (UnityTrainerException "Inf found")
    else Ok (mkT (T0 x) (fm || fv)).
Proof.
  intros Hne Hnd _ _ _. now apply sac_value_loss_continuous_value.
Qed.

Lemma sac_value_loss_continuous_witness :
  sac_value_loss [2%Z] (mkT (T1 [0]) true) never never
    (mkT (matrix demo_lps demo_steps) true)
    (stream_tensors vs_value true demo_steps demo_value_streams)
    (stream_tensors vs_q1p true demo_steps demo_value_streams)
    (stream_tensors vs_q2p true demo_steps demo_value_streams)
    (mkT (vector demo_mask demo_steps) false) false
  = Ok (mkT (T0 (mean (map (fun s =>
                   0.5 * mean (map (fun p =>
                                      demo_mask p
                                      * mse (map (vs_value s) demo_steps)
                                          (map (fun p =>
                                                  Rmin (vs_q1p s p) (vs_q2p s p)
                                                  - Rsum (map (fun l => exp 0 * l)
                                                            (demo_lps p)))
                                             demo_steps))
                                 demo_steps))
                  demo_value_streams)))
          true).
Proof.
  apply (sac_value_loss_continuous demo_steps demo_mask demo_lps
           demo_value_streams 0 2 [2%Z] never never
           true true true true true false).
  - discriminate.
  - exact demo_names.
  - discriminate.
  - lia.
  - apply demo_rows.
Defined.

(** * Where gradients can come from *)

Lemma lift2_flag (f : R -> R -> R) (a b t : tensor) :
  lift2 f a b = Ok t -> requires_grad t = requires_grad a || requires_grad b.
Proof.
  unfold lift2. intros H. apply bind_ok in H. destruct H as (d & _ & H).
  now injection H as <-.
Qed.

Lemma lift_r_flag (g : tval -> result tval) (a t : tensor) :
  lift_r g a = Ok t -> requires_grad t = requires_grad a.
Proof.
  unfold lift_r. intros H. apply bind_ok in H. destruct H as (d & _ & H).
  now injection H as <-.
Qed.

Lemma no_grad_flag (m : result tensor) (t : tensor) :
  no_grad m = Ok t -> requires_grad t = false.
Proof.
  unfold no_grad. intros H. apply bind_ok in H. destruct H as (d & _ & H).
  now injection H as <-.
Qed.

Lemma masked_half_mse_flag (loss_masks a b t : tensor) :
  masked_half_mse loss_masks a b = Ok t ->
  requires_grad t
  = requires_grad loss_masks || (requires_grad a || requires_grad b).
Proof.
  unfold masked_half_mse, mse_loss. intros H.
  apply bind_ok in H. destruct H as (mse & Hmse & H).
  apply bind_ok in Hmse. destruct Hmse as (sq & Hsq & Hmse).
  injection Hmse as <-.
  apply bind_ok in H. destruct H as (masked & Hmasked & H).
  injection H as <-. simpl.
  apply lift2_flag in Hmasked. apply lift2_flag in Hsq.
  simpl in Hmasked. now rewrite Hmasked, Hsq.
Qed.

(** X20.  The entropy loss records a graph through the log-coefficient
    (and the loss masks) only: the term built from the log-probabilities
    and the target entropy is computed under [torch.no_grad()], so the
    loss requires a gradient exactly when the log-coefficient or the
    masks do, whether or not the log-probabilities do. *)
Theorem sac_entropy_loss_gradient act_size (coef : tensor) te
    (lp loss_masks : tensor) discrete (entropy_loss : tensor) :
  sac_entropy_loss act_size coef te lp loss_masks discrete = Ok entropy_loss ->
  requires_grad entropy_loss
  = requires_grad coef || requires_grad loss_masks.
Proof.
  unfold sac_entropy_loss. intros H. destruct (negb discrete).
  - apply bind_ok in H. destruct H as (tc & Htc & H).
    apply bind_ok in H. destruct H as (w & Hw & H).
    apply bind_ok in H. destruct H as (pr & Hpr & H).
    injection H as <-. simpl.
    apply no_grad_flag in Htc. apply lift2_flag in Hw, Hpr.
    rewrite Hpr, Hw, Htc. now rewrite orb_false_r.
  - apply bind_ok in H. destruct H as (tc & Htc & H).
    apply bind_ok in H. destruct H as (w & Hw & H).
    apply bind_ok in H. destruct H as (ps & Hps & H).
    apply bind_ok in H. destruct H as (mk & Hmk & H).
    injection H as <-. simpl.
    apply no_grad_flag in Htc. apply lift2_flag in Hw, Hmk.
    apply lift_r_flag in Hps.
    rewrite Hmk, Hps, Hw, Htc, orb_false_r. apply orb_comm.
Qed.

Lemma sac_entropy_loss_gradient_witness :
  exists entropy_loss,
    sac_entropy_loss [2%Z] (mkT (T1 [0.5]) true)
      (TargetEntropyTensor (const (-2)))
      (mkT (matrix demo_lps demo_steps) true)
      (mkT (vector demo_mask demo_steps) false) false
    = Ok entropy_loss
    /\ requires_grad entropy_loss = true || false.
Proof.
  destruct (sac_entropy_loss [2%Z] (mkT (T1 [0.5]) true)
              (TargetEntropyTensor (const (-2)))
              (mkT (matrix demo_lps demo_steps) true)
              (mkT (vector demo_mask demo_steps) false) false)
    as [entropy_loss|e] eqn:E.
  - exists entropy_loss. split; [reflexivity|].
    exact (sac_entropy_loss_gradient _ _ _ _ _ _ _ E).
  - exfalso. revert E. unfold const.
    rewrite sac_entropy_loss_continuous_value. discriminate.
Defined.

Lemma mapM_Forall2_in {A B : Type} (f : A -> result B) (l0 l : list A) :
  incl l l0 ->
  forall bs, mapM f l = Ok bs ->
    Forall2 (fun a b => In a l0 /\ f a = Ok b) l bs.
Proof.
  induction l as [|a l IH]; simpl; intros Hincl bs H.
  - injection H as <-. constructor.
  - apply bind_ok in H. destruct H as (b & Hb & H).
    apply bind_ok in H. destruct H as (bs' & Hbs & H). injection H as <-.
    constructor.
    + split; [apply Hincl; now left | exact Hb].
    + apply IH; [|exact Hbs]. intros x Hx. apply Hincl. now right.
Qed.

Lemma existsb_Forall2 {A B : Type} (h : A -> bool) (g : B -> bool)
    (l : list A) (bs : list B) :
  Forall2 (fun a b => g b = h a) l bs -> existsb g bs = existsb h l.
Proof. induction 1; simpl; congruence. Qed.

Lemma dict_get_nodup {V : Type} (d : dict V) :
  NoDup (keys d) -> forall kv, In kv d -> dict_get (fst kv) d = Ok (snd kv).
Proof.
  induction d as [|[k v] d IH]; intros Hnd kv Hin; [destruct Hin|].
  inversion Hnd as [|? ? Hnotin Hnd']; subst. simpl.
  destruct (String.eqb_spec (fst kv) k) as [E|E].
  - destruct Hin as [<-|Hin]; [reflexivity|].
    exfalso. apply Hnotin. rewrite <- E. now apply in_map.
  - destruct Hin as [<-|Hin]; [now elim E | now apply IH].
Qed.

(** The flags of the per-stream value losses. *)
Lemma value_losses_flags (loss_masks : tensor) (values_ : dict tensor)
    (backup : string -> result tensor) (squeezed : bool)
    (value_losses : list tensor) :
  NoDup (keys values_) ->
  mapM (fun name =>
          v_backup <- no_grad (backup name) ;;
          value <- dict_get name values_ ;;
          masked_half_mse loss_masks value
            (if squeezed then t_squeeze v_backup else v_backup))
       (keys values_) = Ok value_losses ->
  existsb requires_grad value_losses
  = existsb (fun kv => requires_grad loss_masks || requires_grad (snd kv))
      values_.
Proof.
  intros Hnd H. unfold keys in H. rewrite mapM_map in H.
  apply (mapM_Forall2_in _ values_) in H; [|apply incl_refl].
  apply existsb_Forall2. eapply Forall2_impl; [|exact H].
  intros kv t (Hin & Ht). cbv beta in Ht.
  apply bind_ok in Ht. destruct Ht as (vb & Hvb & Ht).
  rewrite (dict_get_nodup _ Hnd kv Hin) in Ht. simpl in Ht.
  apply masked_half_mse_flag in Ht. apply no_grad_flag in Hvb.
  rewrite Ht. destruct squeezed; simpl; rewrite Hvb; now rewrite orb_false_r.
Qed.

(** X21.  The value loss records a graph through the value estimates
    (and the loss masks) only: the backup built from the Q-estimates,
    the log-probabilities and the entropy coefficient is computed under
    [torch.no_grad()], so the loss requires a gradient exactly when the
    masks or the value estimates of some stream do. *)
Theorem sac_value_loss_gradient act_size (coef : tensor) isinf isnan
    (lp : tensor) (values_ q1p q2p : dict tensor) (loss_masks : tensor)
    discrete (value_loss : tensor) :
  NoDup (keys values_) ->
  sac_value_loss act_size coef isinf isnan lp values_ q1p q2p loss_masks
    discrete = Ok value_loss ->
  requires_grad value_loss
  = requires_grad loss_masks
    || existsb (fun kv => requires_grad (snd kv)) values_.
Proof.
  intros Hnd H. unfold sac_value_loss in H.
  apply bind_ok in H. destruct H as (c & _ & H).
  apply bind_ok in H. destruct H as (mq & _ & H).
  apply bind_ok in H. destruct H as (vl & Hvl & H).
  apply bind_ok in H. destruct H as (st & Hst & H).
  destruct (_ || _) in H; [discriminate|]. injection H as <-. simpl.
  unfold t_stack in Hst. apply bind_ok in Hst.
  destruct Hst as (d & Hd & Hst). injection Hst as <-. simpl.
  assert (Hflags : existsb requires_grad vl
                   = existsb (fun kv => requires_grad loss_masks
                                        || requires_grad (snd kv)) values_).
  { destruct discrete; simpl in Hvl.
    - apply bind_ok in Hvl. destruct Hvl as (pe & _ & Hvl).
      apply bind_ok in Hvl. destruct Hvl as (br & _ & Hvl).
      apply bind_ok in Hvl. destruct Hvl as (bt & _ & Hvl).
      apply bind_ok in Hvl. destruct Hvl as (bb & _ & Hvl).
      exact (value_losses_flags loss_masks values_ _ true vl Hnd Hvl).
    - exact (value_losses_flags loss_masks values_ _ false vl Hnd Hvl). }
  rewrite Hflags.
  assert (Hne : values_ <> []).
  { intros ->. simpl in Hflags. destruct vl; [discriminate Hd|].
    simpl in Hvl. destruct discrete; simpl in Hvl.
    - apply bind_ok in Hvl. destruct Hvl as (pe & _ & Hvl).
      apply bind_ok in Hvl. destruct Hvl as (br & _ & Hvl).
      apply bind_ok in Hvl. destruct Hvl as (bt & _ & Hvl).
      apply bind_ok in Hvl. destruct Hvl as (bb & _ & Hvl).
      discriminate Hvl.
    - discriminate Hvl. }
  destruct (requires_grad loss_masks); simpl; [|reflexivity].
  destruct values_; [congruence | reflexivity].
Qed.

Lemma sac_value_loss_gradient_witness :
  exists value_loss,
    sac_value_loss [2%Z] (mkT (T1 [0]) true) never never
      (mkT (matrix demo_lps demo_steps) true)
      (stream_tensors vs_value false demo_steps demo_value_streams)
      (stream_tensors vs_q1p true demo_steps demo_value_streams)
      (stream_tensors vs_q2p true demo_steps demo_value_streams)
      (mkT (vector demo_mask demo_steps) false) false = Ok value_loss
    /\ requires_grad value_loss = false.
Proof.
  destruct (sac_value_loss [2%Z] (mkT (T1 [0]) true) never never
              (mkT (matrix demo_lps demo_steps) true)
              (stream_tensors vs_value false demo_steps demo_value_streams)
              (stream_tensors vs_q1p true demo_steps demo_value_streams)
              (stream_tensors vs_q2p true demo_steps demo_value_streams)
              (mkT (vector demo_mask demo_steps) false) false)
    as [value_loss|e] eqn:E.
  - exists value_loss. split; [reflexivity|].
    refine (sac_value_loss_gradient _ _ _ _ _ _ _ _ _ _ _ _ E).
    simpl. repeat constructor. simpl. tauto.
  - exfalso. revert E.
    rewrite sac_value_loss_continuous_value;
      [discriminate | discriminate | exact demo_names].
Defined.

(** * More on condensing *)

Lemma mapM_Forall2 {A B : Type} (f : A -> result B) (P : A -> B -> Prop)
    (l : list A) :
  (forall a b, f a = Ok b -> P a b) ->
  forall bs, mapM f l = Ok bs -> Forall2 P l bs.
Proof.
  intros Hf bs H. apply (mapM_Forall2_in _ l) in H; [|apply incl_refl].
  eapply Forall2_impl; [|exact H]. intros a b (_ & E). auto.
Qed.

Lemma existsb_all {B : Type} (g : B -> bool) (flag : bool) (l : list B) :
  l <> [] -> Forall (fun b => g b = flag) l -> existsb g l = flag.
Proof.
  intros Hne H. destruct flag.
  - destruct H as [|b l Hb _]; [congruence|]. simpl. now rewrite Hb.
  - clear Hne. induction H as [|b l Hb _ IH]; simpl; [reflexivity|].
    now rewrite Hb.
Qed.

(** X22.  [_condense_q_streams] returns a dict with the keys of
    [q_output], in the same order, and each condensed stream requires a
    gradient exactly when the Q-output it was condensed from does: the
    one-hot actions are constants. *)
Theorem condense_q_streams_keys act_size (q_output : dict tensor)
    discrete_actions (out : dict tensor) :
  _condense_q_streams act_size q_output discrete_actions = Ok out ->
  keys out = keys q_output
  /\ Forall2 (fun o q => requires_grad (snd o) = requires_grad (snd q))
       out q_output.
Proof.
  unfold _condense_q_streams. intros H.
  apply bind_ok in H. destruct H as (onehot & Hhot & H).
  assert (Hconst : Forall (fun t => requires_grad t = false) onehot).
  { unfold actions_to_onehot in Hhot.
    eapply mapM_Forall; [|exact Hhot]. intros p t Ht. cbv beta in Ht.
    apply bind_ok in Ht. destruct Ht as (rows & _ & Ht).
    now injection Ht as <-. }
  assert (HF : Forall2 (fun q o => fst o = fst q
                                   /\ requires_grad (snd o)
                                      = requires_grad (snd q))
                 q_output out).
  { eapply mapM_Forall2; [|exact H]. intros kv o Ho. cbv beta in Ho.
    apply bind_ok in Ho. destruct Ho as (br & Hbr & Ho).
    apply bind_ok in Ho. destruct Ho as (terms & Hterms & Ho).
    apply bind_ok in Ho. destruct Ho as (st & Hst & Ho).
    apply bind_ok in Ho. destruct Ho as (cd & Hcd & Ho).
    injection Ho as <-. simpl. split; [reflexivity|].
    assert (Hbranches : Forall (fun t => requires_grad t
                                         = requires_grad (snd kv)) br).
    { unfold break_into_branches in Hbr.
      destruct (data (snd kv)); try discriminate. injection Hbr as <-.
      apply Forall_forall. intros t Ht. apply in_map_iff in Ht.
      now destruct Ht as (p & <- & _). }
    assert (Hflags : Forall (fun t => requires_grad t
                                      = requires_grad (snd kv)) terms).
    { apply Forall_forall. intros t Ht.
      destruct (mapM_in _ _ _ Hterms t Ht) as ([a q] & Hp & Hq).
      destruct (in_zip _ _ _ Hp) as (Ha & Hb). simpl in *.
      apply bind_ok in Hq. destruct Hq as (prod & Hprod & Hq).
      apply lift_r_flag in Hq. apply lift2_flag in Hprod.
      rewrite Hq, Hprod.
      rewrite (proj1 (Forall_forall _ _) Hconst a Ha).
      exact (proj1 (Forall_forall _ _) Hbranches q Hb). }
    unfold t_stack_slices in Hst. apply bind_ok in Hst.
    destruct Hst as (sl & Hsl & Hst). injection Hst as <-.
    assert (Hne : terms <> []).
    { intros ->. discriminate Hsl. }
    pose proof (existsb_all requires_grad _ terms Hne Hflags) as Hany.
    unfold t_mean_dim0 in Hcd. apply bind_ok in Hcd.
    destruct Hcd as (d & _ & Hcd). injection Hcd as <-. simpl.
    unfold any_flag at 1. rewrite existsb_all with (flag := any_flag terms).
    - exact Hany.
    - destruct terms; [congruence | discriminate].
    - apply Forall_forall. intros t Ht. apply in_map_iff in Ht.
      now destruct Ht as (t0 & <- & _). }
  clear H. split.
  - unfold keys. induction HF as [|q o qs os (Hk & _) _ IH]; simpl;
      [reflexivity|]. now rewrite Hk, IH.
  - induction HF as [|q o qs os (_ & Hf) _ IH]; constructor; auto.
Qed.

Lemma condense_q_streams_keys_witness :
  exists out,
    _condense_q_streams [2%Z; 3%Z] (q_tensors true demo_q_rows)
      demo_actions_two_branches = Ok out
    /\ keys out = ["extrinsic"]
    /\ Forall2 (fun o q => requires_grad (snd o) = requires_grad (snd q))
         out (q_tensors true demo_q_rows).
Proof.
  destruct (_condense_q_streams [2%Z; 3%Z] (q_tensors true demo_q_rows)
              demo_actions_two_branches) as [out|e] eqn:E.
  - exists out. split; [reflexivity|].
    exact (condense_q_streams_keys _ _ _ _ E).
  - exfalso. revert E. tensor_eval. discriminate.
Defined.

Lemma demo_no_sequence_run :
  demo_update never 0 0 demo_optimizer_no_sequence
  = Raised ValueError demo_optimizer_no_sequence.
Proof. reflexivity. Qed.

Lemma update_rejects_zero_sequence_length_witness :
  demo_update never 0 0 demo_optimizer_no_sequence
  = Raised ValueError demo_optimizer_no_sequence.
Proof.
  apply (update_rejects_zero_sequence_length unit unit tt demo_adam
           (demo_QNetwork_forward 0) demo_Critic_forward
           (demo_sample_actions 0) demo_autograd never never demo_batch 1
           demo_optimizer_no_sequence).
  reflexivity.
Defined.

Lemma update_exception_keeps_parameters_witness :
  demo_update never 0 0 demo_optimizer_no_sequence
  = Raised ValueError demo_optimizer_no_sequence
  /\ same_learnable_state demo_optimizer_no_sequence
       demo_optimizer_no_sequence.
Proof.
  split; [exact demo_no_sequence_run|].
  apply (update_exception_keeps_parameters unit unit tt demo_adam
           (demo_QNetwork_forward 0) demo_Critic_forward
           (demo_sample_actions 0) demo_autograd never never demo_batch 1
           demo_optimizer_no_sequence ValueError demo_optimizer_no_sequence).
  - exact demo_no_sequence_run.
  - discriminate.
Defined.

Lemma update_keeps_configuration_witness :
  exists stats self',
    demo_update never 0 0 demo_optimizer = Done stats self'
    /\ same_configuration demo_optimizer self'.
Proof.
  destruct (demo_update never 0 0 demo_optimizer) as [stats self'|e s] eqn:E.
  - exists stats, self'. split; [reflexivity|].
    exact (update_keeps_configuration _ _ _ _ _ _ _ _ _ _ _ _ _ _ _ E).
  - exfalso. exact (demo_update_succeeds _ _ _ _ E).
Defined.

(** * The entropy loss for discrete actions *)

Lemma is_column_column {A : Type} (f : A -> R) (steps : list A) :
  is_column (map (fun p => [f p]) steps) = true.
Proof. induction steps as [|p l IH]; simpl; [reflexivity | exact IH]. Qed.

Lemma concat_column {A : Type} (f : A -> R) (steps : list A) :
  concat (map (fun p => [f p]) steps) = map f steps.
Proof. induction steps as [|p l IH]; simpl; [reflexivity | now rewrite IH]. Qed.

Lemma columns_of_columns {A : Type} (steps : list A) (sels : list (A -> R)) :
  columns_of (map (fun s => column s steps) sels)
  = Ok (map (fun s => map s steps) sels).
Proof.
  induction sels as [|s sels IH]; simpl; [reflexivity|].
  now rewrite is_column_column, IH, concat_column.
Qed.

Lemma map_seq_nth {A : Type} (d : A) (l : list A) :
  map (fun j => nth j l d) (seq 0 (length l)) = l.
Proof.
  induction l as [|a l IH]; simpl; [reflexivity|]. f_equal.
  rewrite <- seq_shift, map_map. exact IH.
Qed.

(** Stacked per-step vectors, read step by step. *)
Lemma transpose_vectors {A : Type} (steps : list A) (sels : list (A -> R)) :
  sels <> [] ->
  transpose (map (fun s => map s steps) sels)
  = map (fun p => map (fun s => s p) sels) steps.
Proof.
  destruct sels as [|s0 sels]; [congruence|]. intros _.
  unfold transpose. simpl hd. rewrite length_map.
  destruct steps as [|d steps']; [reflexivity|].
  set (steps := d :: steps').
  transitivity (map (fun p => map (fun s => s p) (s0 :: sels))
                  (map (fun j => nth j steps d) (seq 0 (length steps))));
    [|now rewrite map_seq_nth].
  rewrite map_map. apply map_ext_in. intros j Hj. apply in_seq in Hj.
  rewrite map_map. apply map_ext. intros s.
  rewrite (nth_indep _ 0 (s d)) by (rewrite length_map; lia).
  apply map_nth.
Qed.

Lemma mapM_rows_vector (f : R -> R -> R) (v : list R) (m : list (list R)) :
  Forall (fun r => length r = length v) m ->
  mapM (fun p => bcast_vec f (fst p) (snd p)) (zip (repeat v (length m)) m)
  = Ok (map (map2 f v) m).
Proof.
  induction 1 as [|r m Hr _ IH]; simpl; [reflexivity|].
  now rewrite bcast_vec_same, IH by congruence.
Qed.

(** A vector against a matrix whose rows have its length: the vector
    meets every row. *)
Lemma bcast2_vector_matrix (f : R -> R -> R) (v : list R)
    (m : list (list R)) :
  Forall (fun r => length r = length v) m ->
  bcast2 f (T1 v) (T2 m) = Ok (T2 (map (map2 f v) m)).
Proof.
  intros H. unfold bcast2, bcast_rows. simpl rows_of. simpl length.
  unfold bsize. simpl Nat.eqb. cbv iota.
  rewrite expand_single, expand_same. simpl bind.
  now rewrite mapM_rows_vector.
Qed.

Lemma per_action_entropy {A : Type} (lps : A -> list R) (steps : list A) :
  bcast2 Rmult (matrix lps steps) (map_tval exp (matrix lps steps))
  = Ok (matrix (fun p => map (fun l => l * exp l) (lps p)) steps).
Proof.
  unfold matrix. simpl map_tval. rewrite bcast2_T2_T2.
  - do 2 f_equal. rewrite map_map.
    rewrite map2_map_same. apply map_ext. intros p.
    rewrite <- (map_id (lps p)) at 1. now rewrite map2_map_same.
  - rewrite map_map. induction steps as [|p l IH]; simpl; constructor; auto.
    now rewrite length_map.
Qed.

Lemma zip_map_l {A B C : Type} (f : A -> C) (l1 : list A) :
  forall l2 : list B,
    zip (map f l1) l2 = map (fun p => (f (fst p), snd p)) (zip l1 l2).
Proof.
  induction l1 as [|a l1 IH]; intros [|b l2]; simpl; try reflexivity.
  now rewrite IH.
Qed.

Lemma zip_length {A B : Type} (l1 : list A) :
  forall l2 : list B, length l1 = length l2 -> length (zip l1 l2) = length l1.
Proof.
  induction l1 as [|a l1 IH]; intros [|b l2] H; simpl in *; try discriminate;
    try reflexivity.
  f_equal. apply IH. congruence.
Qed.

Lemma branch_sums {A : Type} (lps : A -> list R) (steps : list A)
    (b : nat * nat * Z) :
  map (fun row => firstn (Z.to_nat (snd b)) (skipn (snd (fst b)) row))
    (map (fun p => map (fun l => l * exp l) (lps p)) steps)
  = map (fun p => map (fun l => l * exp l) (branch_slice b (lps p))) steps.
Proof.
  rewrite map_map. apply map_ext. intros p.
  unfold branch_slice. now rewrite skipn_map, firstn_map.
Qed.

(** The block under [torch.no_grad()] of the discrete entropy loss:
    for every step, the negative entropy of each branch plus the target
    entropy of that branch. *)
Lemma target_current_diff_discrete {A : Type} (steps : list A)
    (lps : A -> list R) (tes : list R) (act_size : list Z) (fl : bool) :
  act_size <> [] ->
  length tes = length act_size ->
  no_grad (
    per_action_ent <- t_mul (mkT (matrix lps steps) fl)
                        (t_exp (mkT (matrix lps steps) fl)) ;;
    branched_per_action_ent <- break_into_branches per_action_ent act_size ;;
    terms <- mapM (fun p => s <- t_sum_dim1_keepdim (fst p) ;;
                            Ok (s_add s (snd p)))
               (zip branched_per_action_ent tes) ;;
    t_stack_axis1_squeeze2 terms)
  = Ok (mkT (matrix (fun p =>
                       map2 (fun b te => branch_neg_entropy b (lps p) + te)
                         (branches act_size) tes) steps)
          false).
Proof.
  intros Hne Hte.
  unfold t_mul, t_exp, lift1, lift2. cbn [data requires_grad].
  rewrite per_action_entropy. cbn [bind].
  unfold matrix at 1. rewrite break_into_branches_ok. cbn [bind].
  rewrite zip_map_l, mapM_map.
  rewrite (mapM_ok _ (fun bt =>
             mkT (column (fun p => branch_neg_entropy (fst bt) (lps p)
                                   + snd bt) steps) (fl || fl))).
  2:{ intros [b te] _. unfold t_sum_dim1_keepdim, lift_r, s_add, lift1.
      cbn [data requires_grad fst snd sum_dim1_keepdim bind map_tval].
      rewrite branch_sums, !map_map. reflexivity. }
  cbn [bind].
  unfold t_stack_axis1_squeeze2, stack_axis1_squeeze2. rewrite map_map.
  cbn [data].
  set (sel := fun (bt : nat * nat * Z * R) (p : A) =>
                branch_neg_entropy (fst bt) (lps p) + snd bt).
  assert (Hsels : map sel (zip (branches act_size) tes) <> []).
  { unfold branches. destruct act_size as [|n l]; [congruence|].
    destruct tes; [discriminate Hte | discriminate]. }
  rewrite <- (map_map sel (fun s => column s steps)).
  rewrite stack_columns by exact Hsels. cbn [bind].
  rewrite columns_of_columns. cbn [bind].
  rewrite transpose_vectors by exact Hsels.
  unfold no_grad. cbn [bind data]. unfold matrix. do 3 f_equal.
  apply map_ext. intros p. now rewrite map_map, map2_zip.
Qed.

(** The entropy loss for discrete actions. *)
Lemma sac_entropy_loss_discrete_value {A : Type} (steps : list A)
    (mask : A -> R) (lps : A -> list R) (lcs tes : list R)
    (act_size : list Z) (fc fl fm : bool) :
  act_size <> [] ->
  length lcs = length act_size ->
  length tes = length act_size ->
  sac_entropy_loss act_size (mkT (T1 lcs) fc) (TargetEntropyList tes)
    (mkT (matrix lps steps) fl) (mkT (vector mask steps) fm) true
  = Ok (mkT (T0 (- mean (map (fun p =>
                     mask p
                     * mean (map2 Rmult lcs
                               (map2 (fun b te =>
                                        branch_neg_entropy b (lps p) + te)
                                  (branches act_size) tes)))
                    steps)))
          (fm || fc)).
Proof.
  intros Hne Hlc Hte. unfold sac_entropy_loss. simpl negb. cbv iota.
  rewrite target_current_diff_discrete by assumption. cbn [bind].
  unfold t_mul, lift2, t_mean_dim1, lift_r, t_neg, t_mean, lift1.
  cbn [data requires_grad].
  unfold matrix. rewrite bcast2_vector_matrix.
  2:{ apply Forall_forall. intros r Hr. apply in_map_iff in Hr.
      destruct Hr as (p & <- & _).
      rewrite map2_length; unfold branches; rewrite length_branches;
        congruence. }
  cbn [bind data requires_grad]. rewrite map_map.
  change (T2 (map (fun p => map2 Rmult lcs
                              (map2 (fun b te => branch_neg_entropy b (lps p) + te)
                                 (branches act_size) tes)) steps))
    with (matrix (fun p => map2 Rmult lcs
                             (map2 (fun b te => branch_neg_entropy b (lps p) + te)
                                (branches act_size) tes)) steps).
  rewrite mean_dim1_matrix. cbn [bind data requires_grad].
  rewrite bcast2_vectors. cbn [bind data requires_grad map_tval].
  now rewrite mean_all_vector, orb_false_r.
Qed.

(** X26.  For discrete actions, with one log-coefficient [lc_i] and one
    target entropy [te_i] per branch, [sac_entropy_loss] is minus the
    mean over the steps of [mask * mean_i (lc_i * (s_i + te_i))], where
    [s_i] is the sum of [p * log(p)] over the actions of branch [i]. *)
Theorem sac_entropy_loss_discrete {A : Type} (steps : list A)
    (mask : A -> R) (lps : A -> list R) (lcs tes : list R)
    (act_size : list Z) (fc fl fm : bool) :
  act_size <> [] ->
  Forall (fun n => (0 < n)%Z) act_size ->
  length lcs = length act_size ->
  length tes = length act_size ->
  steps <> [] ->
  Forall (fun p => length (lps p) = total_actions act_size) steps ->
  exists entropy_loss,
    sac_entropy_loss act_size (mkT (T1 lcs) fc) (TargetEntropyList tes)
      (mkT (matrix lps steps) fl) (mkT (vector mask steps) fm) true
    = Ok entropy_loss
    /\ data entropy_loss
       = T0 (- mean (map (fun p =>
                       mask p
                       * mean (map2 Rmult lcs
                                 (map2 (fun b te =>
                                          branch_neg_entropy b (lps p) + te)
                                    (branches act_size) tes)))
                      steps)).
Proof.
  intros Hne _ Hlc Hte _ _. eexists. split.
  - now apply sac_entropy_loss_discrete_value.
  - reflexivity.
Qed.

Lemma sac_entropy_loss_discrete_witness :
  exists entropy_loss,
    sac_entropy_loss [2%Z; 2%Z] (mkT (T1 [0; 0]) true)
      (TargetEntropyList [0.2 * ln 2; 0.2 * ln 2])
      (mkT (matrix demo_discrete_lps demo_steps) true)
      (mkT (vector demo_mask demo_steps) false) true
    = Ok entropy_loss
    /\ data entropy_loss
       = T0 (- mean (map (fun p =>
                       demo_mask p
                       * mean (map2 Rmult [0; 0]
                                 (map2 (fun b te =>
                                          branch_neg_entropy b
                                            (demo_discrete_lps p) + te)
                                    (branches [2%Z; 2%Z])
                                    [0.2 * ln 2; 0.2 * ln 2])))
                      demo_steps)).
Proof.
  apply (sac_entropy_loss_discrete demo_steps demo_mask demo_discrete_lps
           [0; 0] [0.2 * ln 2; 0.2 * ln 2] [2%Z; 2%Z] true true false).
  - discriminate.
  - repeat constructor.
  - reflexivity.
  - reflexivity.
  - discriminate.
  - apply Forall_forall. reflexivity.
Defined.

(** * The value loss for discrete actions *)

Lemma bcast2_T0_l (f : R -> R -> R) (c : R) (d : tval) :
  bcast2 f (T0 c) d = Ok (map_tval (f c) d).
Proof.
  destruct d as [x|v|m].
  - reflexivity.
  - unfold bcast2, bcast_rows. simpl. now rewrite bcast_vec_scalar_l.
  - unfold bcast2, bcast_rows. simpl rows_of. simpl length.
    unfold bsize. simpl Nat.eqb. cbv iota.
    rewrite expand_single, expand_same. cbn [bind].
    now rewrite mapM_rows_scalar_l.
Qed.

Lemma bcast2_columns {A : Type} (f : R -> R -> R) (a b : A -> R)
    (steps : list A) :
  bcast2 f (column a steps) (column b steps)
  = Ok (column (fun p => f (a p) (b p)) steps).
Proof.
  unfold column. rewrite bcast2_T2_T2.
  - do 2 f_equal. induction steps as [|p l IH]; simpl; [reflexivity|].
    now rewrite IH.
  - induction steps; simpl; constructor; auto.
Qed.

Lemma bcast2_matrices {A : Type} (f : R -> R -> R) (a b : A -> list R)
    (steps : list A) :
  Forall (fun p => length (a p) = length (b p)) steps ->
  bcast2 f (matrix a steps) (matrix b steps)
  = Ok (matrix (fun p => map2 f (a p) (b p)) steps).
Proof.
  intros H. unfold matrix. rewrite bcast2_T2_T2.
  - now rewrite map2_map_same.
  - induction H; simpl; constructor; auto.
Qed.

Lemma any_flag_const {B : Type} (g : B -> tval) (flag : bool) (l : list B) :
  l <> [] -> any_flag (map (fun b => mkT (g b) flag) l) = flag.
Proof.
  intros Hne. unfold any_flag. apply existsb_all.
  - destruct l; [congruence | discriminate].
  - apply Forall_forall. intros t Ht. apply in_map_iff in Ht.
    now destruct Ht as (b & <- & _).
Qed.

Lemma branches_nonempty (act_size : list Z) :
  act_size <> [] -> branches act_size <> [].
Proof. destruct act_size; [congruence | discriminate]. Qed.

(** [mean_of_branch_sums] on per-branch tensors of shape [B, n_i]. *)
Lemma mean_of_branch_sums_value {A B : Type} (steps : list A)
    (rows : B -> A -> list R) (flag : bool) (bs : list B) :
  bs <> [] ->
  mean_of_branch_sums
    (map (fun b => mkT (matrix (rows b) steps) flag) bs)
  = Ok (mkT (column (fun p => mean (map (fun b => Rsum (rows b p)) bs)) steps)
          flag).
Proof.
  intros Hne. unfold mean_of_branch_sums. rewrite mapM_map.
  rewrite (mapM_ok _ (fun b => mkT (column (fun p => Rsum (rows b p)) steps)
                                 flag)).
  2:{ intros b _. unfold t_sum_dim1_keepdim, lift_r, matrix, column.
      cbn [data requires_grad sum_dim1_keepdim bind].
      now rewrite map_map. }
  cbn [bind]. unfold t_stack_slices. rewrite map_map. cbn [data].
  assert (Hsels : map (fun b p => Rsum (rows b p)) bs <> [])
    by (destruct bs; [congruence | discriminate]).
  rewrite <- (map_map (fun b p => Rsum (rows b p)) (fun s => column s steps)).
  rewrite stack_columns by exact Hsels. cbn [bind].
  rewrite any_flag_const by exact Hne.
  unfold t_mean_dim0. rewrite !map_map. cbn [data].
  rewrite <- (map_map (fun b p => Rsum (rows b p)) (fun s => column s steps)).
  rewrite mean_columns by exact Hsels. cbn [bind].
  rewrite (any_flag_const
             (fun b => column (fun p => Rsum (rows b p)) steps) flag bs Hne).
  unfold column. do 3 f_equal. apply map_ext. intros p.
  now rewrite map_map.
Qed.

Lemma dict_get_named {S V : Type} (name : S -> string) (g : S -> V)
    (l : list S) :
  NoDup (map name l) ->
  forall s, In s l ->
    dict_get (name s) (map (fun s => (name s, g s)) l) = Ok (g s).
Proof.
  induction l as [|a l IH]; intros Hnd s Hin; [destruct Hin|].
  inversion Hnd as [|? ? Hnotin Hnd']; subst.
  simpl. destruct (String.eqb_spec (name s) (name a)) as [E|E].
  - destruct Hin as [->|Hin]; [reflexivity|].
    exfalso. apply Hnotin. rewrite <- E. now apply in_map.
  - destruct Hin as [->|Hin]; [congruence | now apply IH].
Qed.

Lemma firstn_map2 {A B C : Type} (f : A -> B -> C) (n : nat) :
  forall l1 l2, firstn n (map2 f l1 l2) = map2 f (firstn n l1) (firstn n l2).
Proof.
  induction n as [|n IH]; intros [|a l1] [|b l2]; simpl; try reflexivity.
  now rewrite IH.
Qed.

Lemma skipn_map2 {A B C : Type} (f : A -> B -> C) (n : nat) :
  forall l1 l2, length l1 = length l2 ->
    skipn n (map2 f l1 l2) = map2 f (skipn n l1) (skipn n l2).
Proof.
  induction n as [|n IH]; intros [|a l1] [|b l2] H; simpl in *;
    try reflexivity; try discriminate.
  apply IH. congruence.
Qed.

Lemma branch_slice_map (g : R -> R) (b : nat * nat * Z) (row : list R) :
  branch_slice b (map g row) = map g (branch_slice b row).
Proof. unfold branch_slice. now rewrite skipn_map, firstn_map. Qed.

Lemma branch_slice_map2 (f : R -> R -> R) (b : nat * nat * Z)
    (u v : list R) :
  length u = length v ->
  branch_slice b (map2 f u v) = map2 f (branch_slice b u) (branch_slice b v).
Proof.
  intros H. unfold branch_slice. now rewrite skipn_map2, firstn_map2.
Qed.

Lemma branches_of_matrix {A : Type} (rows : A -> list R) (steps : list A)
    (flag : bool) (act_size : list Z) :
  break_into_branches (mkT (matrix rows steps) flag) act_size
  = Ok (map (fun b => mkT (matrix (fun p => branch_slice b (rows p)) steps)
                        flag)
          (branches act_size)).
Proof.
  unfold matrix. rewrite break_into_branches_ok. f_equal.
  apply map_ext. intros b. now rewrite map_map.
Qed.

(** [q * log_probs.exp()] on per-action tensors. *)
Lemma weighted_by_probs {A : Type} (q lps : A -> list R) (steps : list A)
    (fq fl : bool) :
  Forall (fun p => length (q p) = length (lps p)) steps ->
  t_mul (mkT (matrix q steps) fq) (t_exp (mkT (matrix lps steps) fl))
  = Ok (mkT (matrix (fun p => map2 Rmult (q p) (map exp (lps p))) steps)
          (fq || fl)).
Proof.
  intros H. unfold t_mul, t_exp, lift1, lift2. cbn [data requires_grad].
  assert (E : map_tval exp (matrix lps steps)
              = matrix (fun p => map exp (lps p)) steps)
    by (unfold matrix; simpl; now rewrite map_map).
  rewrite E, bcast2_matrices; [reflexivity|].
  eapply Forall_impl; [|exact H]. intros p Hp. now rewrite length_map.
Qed.

Lemma expected_q_slices (b : nat * nat * Z) (q lp : list R) :
  length q = length lp ->
  Rsum (branch_slice b (map2 Rmult q (map exp lp))) = expected_q b q lp.
Proof.
  intros H. unfold expected_q.
  now rewrite branch_slice_map2, branch_slice_map by now rewrite length_map.
Qed.

(** One round of the first loop of the discrete value loss. *)
Lemma min_policy_q_discrete {A : Type} (steps : list A) (lps : A -> list R)
    (streams : list (discrete_stream A)) (act_size : list Z)
    (fl f1 f2 : bool) (s : discrete_stream A) :
  act_size <> [] ->
  NoDup (map ds_name streams) ->
  In s streams ->
  Forall (fun p => length (ds_q1p s p) = length (lps p)
                   /\ length (ds_q2p s p) = length (lps p)) steps ->
  min_policy_q act_size (mkT (matrix lps steps) fl)
    (map (fun s => (ds_name s, mkT (matrix (ds_q1p s) steps) f1)) streams)
    (map (fun s => (ds_name s, mkT (matrix (ds_q2p s) steps) f2)) streams)
    true (ds_name s)
  = Ok (mkT (column (fun p =>
                       Rmin (mean (map (fun b =>
                                          expected_q b (ds_q1p s p) (lps p))
                                     (branches act_size)))
                            (mean (map (fun b =>
                                          expected_q b (ds_q2p s p) (lps p))
                                     (branches act_size))))
               steps)
          (f1 || fl || (f2 || fl))).
Proof.
  intros Hne Hnd Hs Hlen. unfold min_policy_q. simpl negb. cbv iota.
  rewrite !(dict_get_named ds_name _ streams Hnd s Hs). cbn [bind].
  rewrite !weighted_by_probs
    by (eapply Forall_impl; [|exact Hlen]; intros p Hp; apply Hp).
  cbn [bind]. rewrite !branches_of_matrix. cbn [bind].
  rewrite !mean_of_branch_sums_value by now apply branches_nonempty.
  cbn [bind]. unfold t_min, lift2. cbn [data requires_grad].
  rewrite bcast2_columns. cbn [bind]. unfold column. do 3 f_equal.
  apply map_ext_in. intros p Hp.
  destruct (proj1 (Forall_forall _ _) Hlen p Hp) as (H1 & H2).
  assert (E : forall q, length q = length (lps p) ->
             map (fun b => Rsum (branch_slice b
                                   (map2 Rmult q (map exp (lps p)))))
               (branches act_size)
             = map (fun b => expected_q b q (lps p)) (branches act_size))
    by (intros; apply map_ext; intros; now apply expected_q_slices).
  now rewrite !E.
Qed.

Lemma enumerate_mapped_branches {B : Type} (F : nat * nat * Z -> B)
    (act_size : list Z) :
  forall i o,
    enumerate_from i (map F (branches_from i o act_size))
    = map (fun b => (fst (fst b), F b)) (branches_from i o act_size).
Proof.
  induction act_size as [|n l IH]; intros i o; simpl; [reflexivity|].
  now rewrite IH.
Qed.

Lemma branch_index_bound (act_size : list Z) :
  forall i o,
    Forall (fun b => (fst (fst b) < i + length act_size)%nat)
      (branches_from i o act_size).
Proof.
  induction act_size as [|n l IH]; intros i o; simpl; constructor.
  - simpl. lia.
  - eapply Forall_impl; [|apply (IH (S i) (o + Z.to_nat n)%nat)].
    intros b Hb. simpl in Hb. lia.
Qed.

Lemma Rsum_scale (c : R) (l : list R) : Rsum (map (Rmult c) l) = c * Rsum l.
Proof. induction l as [|x l IH]; simpl; [lra | rewrite IH; lra]. Qed.

Lemma map2_self (l : list R) :
  map2 Rmult l (map exp l) = map (fun x => x * exp x) l.
Proof. induction l as [|x l IH]; simpl; [reflexivity | now rewrite IH]. Qed.

(** [_ent_coef[i]]. *)
Lemma t_index_coef (lcs : list R) (i : nat) (flag : bool) :
  (i < length lcs)%nat ->
  t_index i (mkT (T1 (map exp lcs)) flag)
  = Ok (mkT (T0 (exp (nth i lcs 0))) flag).
Proof.
  intros H. unfold t_index, lift_r, index, list_get.
  cbn [data requires_grad].
  rewrite (nth_error_nth' (map exp lcs) (exp 0)) by now rewrite length_map.
  cbn [bind]. now rewrite map_nth.
Qed.

(** A per-stream loss against a backup of shape [B, 1], squeezed. *)
Lemma masked_half_mse_column {A : Type} (steps : list A) (m a b : A -> R)
    (fm fa fb : bool) :
  masked_half_mse (mkT (vector m steps) fm) (mkT (vector a steps) fa)
    (t_squeeze (mkT (column b steps) fb))
  = Ok (mkT (T0 (0.5 * mean (map (fun p =>
                                   m p * mse (map a steps) (map b steps))
                              steps)))
          (fm || (fa || fb))).
Proof.
  destruct (masked_half_mse_spec Column fm fa fb (map m steps) (map a steps)
              (map b steps)) as (t & Ht & Hd);
    [now rewrite !length_map|].
  simpl lay in Ht. rewrite map_map in Ht.
  change (T2 (map (fun x => [b x]) steps)) with (column b steps) in Ht.
  change (T1 (map m steps)) with (vector m steps) in Ht.
  change (T1 (map a steps)) with (vector a steps) in Ht.
  rewrite Ht. pose proof (masked_half_mse_flag _ _ _ _ Ht) as Hf.
  destruct t as [d f]. simpl in *. subst d f.
  unfold masked_mean_mse. now rewrite map_map.
Qed.

Lemma t_stack_slices_columns {A B : Type} (steps : list A)
    (sel : B -> A -> R) (flag : bool) (bs : list B) :
  bs <> [] ->
  t_stack_slices (map (fun b => mkT (column (sel b) steps) flag) bs)
  = Ok (map (fun b => mkT (column (sel b) steps) flag) bs).
Proof.
  intros Hne. unfold t_stack_slices. rewrite map_map. cbn [data].
  rewrite <- (map_map sel (fun s => column s steps)).
  rewrite stack_columns by (destruct bs; [congruence | discriminate]).
  cbn [bind]. rewrite (any_flag_const _ flag bs Hne).
  now rewrite map_map.
Qed.

Lemma t_mean_dim0_columns {A B : Type} (steps : list A)
    (sel : B -> A -> R) (flag : bool) (bs : list B) :
  bs <> [] ->
  t_mean_dim0 (map (fun b => mkT (column (sel b) steps) flag) bs)
  = Ok (mkT (column (fun p => mean (map (fun b => sel b p) bs)) steps) flag).
Proof.
  intros Hne. unfold t_mean_dim0. rewrite map_map. cbn [data].
  rewrite <- (map_map sel (fun s => column s steps)).
  rewrite mean_columns by (destruct bs; [congruence | discriminate]).
  cbn [bind]. rewrite (any_flag_const _ flag bs Hne).
  unfold column. do 3 f_equal. apply map_ext. intros p.
  now rewrite map_map.
Qed.

(** The value loss for discrete actions. *)
Lemma sac_value_loss_discrete_value {A : Type} (steps : list A)
    (mask : A -> R) (lps : A -> list R) (streams : list (discrete_stream A))
    (lcs : list R) (act_size : list Z) (isinf isnan : R -> bool)
    (fc fl fv f1 f2 fm : bool) :
  act_size <> [] ->
  length lcs = length act_size ->
  streams <> [] ->
  NoDup (map ds_name streams) ->
  Forall (fun s =>
            Forall (fun p => length (ds_q1p s p) = length (lps p)
                             /\ length (ds_q2p s p) = length (lps p)) steps)
    streams ->
  let bs := branches act_size in
  let min_q s p :=
    Rmin (mean (map (fun b => expected_q b (ds_q1p s p) (lps p)) bs))
         (mean (map (fun b => expected_q b (ds_q2p s p) (lps p)) bs)) in
  let bonus p :=
    mean (map (fun b => exp (branch_log_coef lcs b)
                        * branch_neg_entropy b (lps p)) bs) in
  let backup s p := min_q s p - bonus p in
  let stream_loss s :=
    0.5 * mean (map (fun p => mask p * mse (map (ds_value s) steps)
                                         (map (backup s) steps)) steps) in
  let x := mean (map stream_loss streams) in
  sac_value_loss act_size (mkT (T1 lcs) fc) isinf isnan
    (mkT (matrix lps steps) fl)
    (map (fun s => (ds_name s, mkT (vector (ds_value s) steps) fv)) streams)
    (map (fun s => (ds_name s, mkT (matrix (ds_q1p s) steps) f1)) streams)
    (map (fun s => (ds_name s, mkT (matrix (ds_q2p s) steps) f2)) streams)
    (mkT (vector mask steps) fm) true
  = if isinf x || isnan x
    then Raise (UnityTrainerException "Inf found")
    else Ok (mkT (T0 x) (fm || fv)).
Proof.
  intros Hne Hlc Hss Hnd Hlen bs min_q bonus backup stream_loss x.
  unfold sac_value_loss.
  unfold no_grad at 1. cbn [bind].
  assert (Hkeys : keys (map (fun s => (ds_name s,
                                       mkT (vector (ds_value s) steps) fv))
                          streams)
                  = map ds_name streams).
  { unfold keys. now rewrite map_map. }
  rewrite Hkeys. simpl negb. cbv iota.
  rewrite mapM_map.
  rewrite (mapM_ok _ (fun s => (ds_name s,
                                mkT (column (min_q s) steps)
                                  (f1 || fl || (f2 || fl))))).
  2:{ intros s Hs. rewrite min_policy_q_discrete; auto.
      exact (proj1 (Forall_forall _ _) Hlen s Hs). }
  cbn [bind].
  rewrite weighted_by_probs by (apply Forall_forall; reflexivity).
  cbn [bind]. rewrite branches_of_matrix. cbn [bind].
  unfold enumerate, branches. rewrite enumerate_mapped_branches, mapM_map.
  fold (branches act_size). fold bs.
  rewrite (mapM_ok _ (fun b =>
             mkT (column (fun p => exp (branch_log_coef lcs b)
                                   * branch_neg_entropy b (lps p)) steps)
               (false || (fl || fl)))).
  2:{ intros b Hb. cbn [fst snd t_exp lift1 data requires_grad map_tval].
      rewrite t_index_coef.
      2:{ pose proof (proj1 (Forall_forall _ _)
                        (branch_index_bound act_size 0 0) b Hb) as Hi.
          simpl in Hi. lia. }
      cbn [bind]. unfold t_mul, lift2, t_sum_dim1_keepdim, lift_r.
      cbn [data requires_grad]. rewrite bcast2_T0_l. cbn [bind].
      unfold matrix, column. cbn [map_tval data requires_grad
                                    sum_dim1_keepdim bind].
      rewrite !map_map. do 3 f_equal. apply map_ext. intros p.
      rewrite Rsum_scale, map2_self, branch_slice_map. reflexivity. }
  cbn [bind].
  assert (Hbs : bs <> []) by now apply branches_nonempty.
  rewrite t_stack_slices_columns by exact Hbs. cbn [bind].
  rewrite mapM_map.
  rewrite (mapM_ok _ (fun s => mkT (T0 (stream_loss s)) (fm || fv))).
  2:{ intros s Hs. unfold no_grad.
      rewrite (dict_get_named ds_name _ streams Hnd s Hs). cbn [bind].
      rewrite t_mean_dim0_columns by exact Hbs. cbn [bind].
      unfold t_sub, lift2. cbn [data requires_grad].
      rewrite bcast2_columns. cbn [bind data].
      rewrite (dict_get_named ds_name _ streams Hnd s Hs). cbn [bind].
      rewrite masked_half_mse_column. now rewrite orb_false_r. }
  cbn [bind].
  rewrite t_stack_scalar_list by exact Hss. cbn [bind].
  unfold t_any, t_mean. cbn [data requires_grad].
  rewrite mean_all_T1. fold x. unfold elems. simpl.
  now rewrite !orb_false_r.
Qed.

(** * The policy loss for discrete actions *)

Lemma fold_rows_length (n : nat) (rest : list (list R)) :
  forall r, length r = n -> Forall (fun r' => length r' = n) rest ->
    length (fold_left (map2 Rplus) rest r) = n.
Proof.
  induction rest as [|r' rest IH]; intros r Hr H; simpl; [exact Hr|].
  inversion H; subst. apply IH; [|assumption].
  rewrite map2_length; congruence.
Qed.

Lemma fold_rows_nth (n a : nat) (rest : list (list R)) :
  forall r, length r = n -> Forall (fun r' => length r' = n) rest ->
    nth a (fold_left (map2 Rplus) rest r) 0
    = nth a r 0 + Rsum (map (fun r' => nth a r' 0) rest).
Proof.
  induction rest as [|r' rest IH]; intros r Hr H; simpl; [lra|].
  inversion H; subst. rewrite IH; [|rewrite map2_length; congruence|assumption].
  rewrite nth_map2 by (congruence || lra). lra.
Qed.

Lemma nth_ext_R (l l' : list R) :
  length l = length l' ->
  (forall a, (a < length l)%nat -> nth a l 0 = nth a l' 0) -> l = l'.
Proof. intros H Hn. apply (nth_ext l l' 0 0 H Hn). Qed.

Lemma nth_map_lt {B : Type} (f : B -> R) (d : B) (l : list B) (a : nat) :
  (a < length l)%nat -> nth a (map f l) 0 = f (nth a l d).
Proof.
  intros H. rewrite (nth_indep _ 0 (f d)) by now rewrite length_map.
  apply map_nth.
Qed.

(** The mean over dimension 0 as the code computes it, entry by entry. *)
Lemma fold_rows_mean (n : nat) (r : list R) (rest : list (list R)) :
  length r = n -> Forall (fun r' => length r' = n) rest ->
  map (fun x => x / IZR (Z.of_nat (S (length rest))))
    (fold_left (map2 Rplus) rest r)
  = entrywise_mean n (r :: rest).
Proof.
  intros Hr H. apply nth_ext_R.
  - unfold entrywise_mean.
    now rewrite !length_map, length_seq, fold_rows_length with (n := n).
  - intros a Ha. rewrite length_map, fold_rows_length with (n := n) in Ha
      by assumption.
    unfold entrywise_mean.
    rewrite (nth_map_lt _ 0) by now rewrite fold_rows_length with (n := n).
    rewrite (nth_map_lt _ 0%nat) by now rewrite length_seq.
    rewrite seq_nth by assumption. simpl.
    rewrite fold_rows_nth with (n := n) by assumption.
    unfold mean. simpl. now rewrite length_map.
Qed.

Lemma sum_matrices {A : Type} (steps : list A) (n : nat)
    (sels : list (A -> list R)) :
  Forall (fun s => forall p, In p steps -> length (s p) = n) sels ->
  forall acc, (forall p, In p steps -> length (acc p) = n) ->
    sum_slices (matrix acc steps) (map (fun s => matrix s steps) sels)
    = Ok (matrix (fun p => fold_left (map2 Rplus) (map (fun s => s p) sels)
                             (acc p)) steps).
Proof.
  induction 1 as [|s sels Hs _ IH]; intros acc Hacc; simpl; [reflexivity|].
  rewrite bcast2_matrices.
  - cbn [bind]. rewrite IH; [reflexivity|].
    intros p Hp. rewrite map2_length; [now apply Hacc|].
    rewrite Hacc, Hs; auto.
  - apply Forall_forall. intros p Hp. rewrite Hacc, Hs; auto.
Qed.

Lemma shape_matrix {A : Type} (rows : A -> list R) (steps : list A) :
  shape (matrix rows steps)
  = [length steps;
     match steps with [] => 0 | p :: _ => length (rows p) end]%nat.
Proof. unfold matrix. simpl. rewrite length_map. now destruct steps. Qed.

Lemma stack_matrices {A : Type} (steps : list A) (n : nat)
    (sels : list (A -> list R)) :
  sels <> [] ->
  Forall (fun s => forall p, In p steps -> length (s p) = n) sels ->
  stack_slices (map (fun s => matrix s steps) sels)
  = Ok (map (fun s => matrix s steps) sels).
Proof.
  destruct sels as [|s0 sels]; [congruence|]. intros _ H.
  inversion H as [|? ? H0 Hrest]; subst.
  assert (E : forallb (fun u => shape_eqb (shape u)
                                 (shape (matrix s0 steps)))
                (map (fun s => matrix s steps) sels) = true).
  { apply forallb_forall. intros t Ht.
    apply in_map_iff in Ht. destruct Ht as (s & <- & Hs).
    rewrite !shape_matrix. destruct steps as [|p steps'].
    - reflexivity.
    - rewrite (proj1 (Forall_forall _ _) Hrest s Hs p), H0
        by now left.
      apply shape_eqb_refl. }
  unfold stack_slices. simpl map. cbv iota beta. now rewrite E.
Qed.

(** [torch.mean(torch.stack(list(q1p_outs.values())), axis=0)] on
    per-action Q-estimates. *)
Lemma mean_q1_matrix {A : Type} (fq : bool) (steps : list A) (n : nat)
    (streams : list (discrete_stream A)) :
  streams <> [] ->
  Forall (fun s => forall p, In p steps -> length (ds_q1p s p) = n) streams ->
  bind (t_stack_slices
          (values (map (fun s => (ds_name s,
                                  mkT (matrix (ds_q1p s) steps) fq))
                     streams)))
    t_mean_dim0
  = Ok (mkT (matrix (fun p => entrywise_mean n
                                (map (fun s => ds_q1p s p) streams)) steps)
          fq).
Proof.
  intros Hne Hlen. unfold values. rewrite map_map. cbn [snd].
  unfold t_stack_slices. rewrite map_map. cbn [data].
  assert (Hne' : map ds_q1p streams <> [])
    by (destruct streams; [congruence | discriminate]).
  assert (Hlen' : Forall (fun s => forall p, In p steps -> length (s p) = n)
                    (map ds_q1p streams)).
  { apply Forall_forall. intros q Hq. apply in_map_iff in Hq.
    destruct Hq as (s & <- & Hs).
    exact (proj1 (Forall_forall _ _) Hlen s Hs). }
  rewrite <- (map_map ds_q1p (fun s => matrix s steps)).
  rewrite (stack_matrices steps n) by assumption. cbn [bind].
  rewrite (any_flag_const (fun s => matrix (ds_q1p s) steps) fq streams Hne).
  unfold t_mean_dim0. rewrite !map_map. cbn [data].
  rewrite (any_flag_const (fun s => matrix (ds_q1p s) steps) fq streams Hne).
  destruct streams as [|s0 ss]; [congruence|].
  inversion Hlen as [|? ? H0 Hrest]; subst.
  unfold mean_dim0. simpl map at 1.
  rewrite <- (map_map ds_q1p (fun s => matrix s steps)).
  rewrite (sum_matrices steps n).
  - cbn [bind]. unfold matrix. simpl map_tval. rewrite map_map.
    do 3 f_equal. apply map_ext_in. intros p Hp.
    rewrite length_map.
    replace (Z.pos (Pos.of_succ_nat (length ss)))
      with (Z.of_nat (S (length (map (fun s : A -> list R => s p)
                                   (map ds_q1p ss)))))
      by (rewrite !length_map; reflexivity).
    rewrite fold_rows_mean with (n := n).
    + simpl. now rewrite !map_map.
    + now apply H0.
    + apply Forall_forall. intros r Hr. apply in_map_iff in Hr.
      destruct Hr as (q & <- & Hq). apply in_map_iff in Hq.
      destruct Hq as (s & <- & Hs).
      exact (proj1 (Forall_forall _ _) Hrest s Hs p Hp).
  - apply Forall_forall. intros q Hq. apply in_map_iff in Hq.
    destruct Hq as (s & <- & Hs).
    exact (proj1 (Forall_forall _ _) Hrest s Hs).
  - exact H0.
Qed.

(** The stacked per-branch terms, squeezed, against the loss masks:
    whatever [torch.squeeze] makes of the shape [nb, B, 1], every term
    meets the mask of its own step. *)
Lemma masked_stacked_columns {A B : Type} (steps : list A) (mask : A -> R)
    (sel : B -> A -> R) (bs : list B) :
  bs <> [] ->
  exists d,
    bcast2 Rmult (vector mask steps)
      (squeeze (T2 (map (fun b => map (sel b) steps) bs))) = Ok d
    /\ elems d
       = concat (map (fun b => map (fun p => mask p * sel b p) steps) bs).
Proof.
  intros Hne. destruct bs as [|b0 [|b1 bs]]; [congruence| |].
  - destruct steps as [|p0 [|p1 steps]].
    + eexists. split; reflexivity.
    + eexists. split; reflexivity.
    + set (steps' := p0 :: p1 :: steps).
      change (squeeze (T2 (map (fun b => map (sel b) steps') [b0])))
        with (vector (sel b0) steps').
      rewrite bcast2_vectors. eexists. split; [reflexivity|].
      unfold vector. rewrite elems_T1. simpl. now rewrite app_nil_r.
  - set (bs' := b0 :: b1 :: bs).
    destruct steps as [|p0 [|p1 steps]].
    + change (squeeze (T2 (map (fun b => map (sel b) []) bs')))
        with (T2 (map (fun b : B => @nil R) bs')).
      unfold vector. simpl map at 1.
      rewrite bcast2_vector_matrix.
      * eexists. split; [reflexivity|]. unfold elems. simpl rows_of.
        rewrite map_map. reflexivity.
      * apply Forall_forall. intros r Hr. apply in_map_iff in Hr.
        now destruct Hr as (b & <- & _).
    + assert (E : squeeze (T2 (map (fun b => map (sel b) [p0]) bs'))
                  = T1 (map (fun b => sel b p0) bs')).
      { unfold bs'. simpl map. cbn [squeeze].
        change (is_column ([sel b0 p0] :: [sel b1 p0]
                             :: map (fun b => [sel b p0]) bs))
          with (is_column (map (fun b => [sel b p0]) bs)).
        rewrite is_column_column.
        change (concat ([sel b0 p0] :: [sel b1 p0]
                          :: map (fun b => [sel b p0]) bs))
          with (sel b0 p0 :: sel b1 p0
                  :: concat (map (fun b => [sel b p0]) bs)).
        now rewrite concat_column. }
      rewrite E. unfold vector. simpl map at 1.
      rewrite bcast2_single_vector. eexists. split; [reflexivity|].
      rewrite elems_T1, map_map. simpl.
      now rewrite (concat_column (fun b => mask p0 * sel b p0)).
    + set (steps' := p0 :: p1 :: steps).
      assert (E : squeeze (T2 (map (fun b => map (sel b) steps') bs'))
                  = T2 (map (fun b => map (sel b) steps') bs'))
        by reflexivity.
      rewrite E. unfold vector. rewrite bcast2_vector_matrix.
      * eexists. split; [reflexivity|]. unfold elems. cbn [rows_of].
        rewrite map_map. f_equal. apply map_ext. intros b.
        apply map2_map_same.
      * apply Forall_forall. intros r Hr. apply in_map_iff in Hr.
        destruct Hr as (b & <- & _). now rewrite !length_map.
Qed.

Lemma Rsum_map2_minus (u : list R) :
  forall v, length u = length v ->
    Rsum (map2 Rminus u v) = Rsum u - Rsum v.
Proof.
  induction u as [|x u IH]; intros [|y v] H; simpl in *; try discriminate;
    [lra|].
  rewrite IH by congruence. lra.
Qed.

Lemma branch_slice_length (b : nat * nat * Z) (u v : list R) :
  length u = length v ->
  length (branch_slice b u) = length (branch_slice b v).
Proof.
  intros H. unfold branch_slice. now rewrite !length_firstn, !length_skipn, H.
Qed.

(** The term of one branch at one step. *)
Lemma policy_term (c : R) (b : nat * nat * Z) (lp mq : list R) :
  length mq = length lp ->
  Rsum (map2 Rminus
          (map (Rmult c) (branch_slice b (map2 Rmult lp (map exp lp))))
          (branch_slice b (map2 Rmult mq (map exp lp))))
  = c * branch_neg_entropy b lp - expected_q b mq lp.
Proof.
  intros H. rewrite Rsum_map2_minus.
  - rewrite Rsum_scale, map2_self, branch_slice_map.
    now rewrite expected_q_slices.
  - rewrite length_map. apply branch_slice_length.
    rewrite !map2_length; rewrite ?length_map; congruence.
Qed.

(** The policy loss for discrete actions. *)
Lemma sac_policy_loss_discrete_value {A : Type} (steps : list A)
    (mask : A -> R) (lps : A -> list R) (streams : list (discrete_stream A))
    (lcs : list R) (act_size : list Z) (n : nat) (fc fl fq fm : bool) :
  act_size <> [] ->
  length lcs = length act_size ->
  streams <> [] ->
  (forall p, In p steps -> length (lps p) = n) ->
  Forall (fun s => forall p, In p steps -> length (ds_q1p s p) = n) streams ->
  exists policy_loss,
    sac_policy_loss act_size (mkT (T1 lcs) fc) (mkT (matrix lps steps) fl)
      (map (fun s => (ds_name s, mkT (matrix (ds_q1p s) steps) fq)) streams)
      (mkT (vector mask steps) fm) true
    = Ok policy_loss
    /\ data policy_loss
       = T0 (mean (concat (map (fun b =>
                    map (fun p =>
                           mask p
                           * (exp (branch_log_coef lcs b)
                              * branch_neg_entropy b (lps p)
                              - expected_q b
                                  (entrywise_mean n
                                     (map (fun s => ds_q1p s p) streams))
                                  (lps p)))
                      steps)
                   (branches act_size)))).
Proof.
  intros Hne Hlc Hss Hlp Hq. unfold sac_policy_loss.
  pose proof (mean_q1_matrix fq steps n streams Hss Hq) as Hmq.
  destruct (t_stack_slices _) as [stacked|e]; [|discriminate Hmq].
  cbn [bind] in Hmq |- *. rewrite Hmq. cbn [bind]. simpl negb. cbv iota.
  set (mq := fun p => entrywise_mean n (map (fun s => ds_q1p s p) streams)).
  assert (Hmql : forall p, length (mq p) = n)
    by (intros p; unfold mq, entrywise_mean;
        now rewrite length_map, length_seq).
  rewrite !weighted_by_probs.
  2:{ apply Forall_forall. intros p Hp. now rewrite Hmql, Hlp. }
  2:{ apply Forall_forall. reflexivity. }
  cbn [bind]. rewrite !branches_of_matrix. cbn [bind].
  rewrite zip_map.
  unfold enumerate, branches. rewrite enumerate_mapped_branches, mapM_map.
  fold (branches act_size).
  rewrite (mapM_ok _ (fun b =>
             mkT (column (fun p => exp (branch_log_coef lcs b)
                                   * branch_neg_entropy b (lps p)
                                   - expected_q b (mq p) (lps p)) steps)
               (fc || (fl || fl) || (fq || fl)))).
  2:{ intros b Hb. cbn [fst snd]. unfold t_exp, lift1.
      cbn [data requires_grad map_tval].
      rewrite t_index_coef.
      2:{ pose proof (proj1 (Forall_forall _ _)
                        (branch_index_bound act_size 0 0) b Hb) as Hi.
          simpl in Hi. lia. }
      cbn [bind]. unfold t_mul, t_sub, lift2, t_sum_dim1_keepdim, lift_r.
      cbn [data requires_grad]. rewrite bcast2_T0_l. cbn [bind].
      assert (E : forall rows : A -> list R,
                 map_tval (Rmult (exp (nth (fst (fst b)) lcs 0)))
                   (matrix rows steps)
                 = matrix (fun p => map (Rmult (exp (nth (fst (fst b)) lcs 0)))
                                      (rows p)) steps)
        by (intros; unfold matrix; simpl; now rewrite map_map).
      cbn [data requires_grad]. rewrite E, bcast2_matrices.
      2:{ apply Forall_forall. intros p Hp. rewrite length_map.
          apply branch_slice_length.
          rewrite !map2_length; rewrite ?length_map, ?Hmql, ?Hlp; auto. }
      cbn [bind data requires_grad]. unfold matrix, column.
      cbn [sum_dim1_keepdim bind]. rewrite map_map. do 3 f_equal.
      apply map_ext_in. intros p Hp. f_equal.
      apply policy_term. now rewrite Hmql, Hlp. }
  cbn [bind].
  assert (Hbs : branches act_size <> []) by now apply branches_nonempty.
  rewrite t_stack_slices_columns by exact Hbs. cbn [bind].
  unfold t_squeeze_stacked, squeeze_stacked. rewrite map_map. cbn [data].
  set (sel := fun (b : nat * nat * Z) (p : A) =>
                exp (branch_log_coef lcs b) * branch_neg_entropy b (lps p)
                - expected_q b (mq p) (lps p)).
  rewrite <- (map_map sel (fun s => column s steps)).
  rewrite columns_of_columns. cbn [bind]. rewrite map_map.
  destruct (masked_stacked_columns steps mask sel (branches act_size) Hbs)
    as (d & Hd & He).
  unfold t_mul, lift2. cbn [data requires_grad]. rewrite Hd. cbn [bind].
  eexists. split; [reflexivity|]. cbn [t_mean data].
  unfold mean_all, numel. rewrite He. reflexivity.
Qed.

(** X27.  For discrete actions, with one entropy coefficient
    [exp(lc_i)] per branch: the backup of a stream at a step is the
    smaller of the two policy-weighted Q-estimates, each the mean over
    the branches of [sum_a q_a * p_a], minus the mean over the branches
    of [exp(lc_i) * sum_a p_a * log(p_a)]; the loss of a stream is
    [0.5 * mean_b (mask_b * MSE)], with [MSE] the mean over all the steps
    of the squared difference between value estimate and backup; and
    [sac_value_loss] returns the mean of these losses over the streams,
    unless one of the two tests flags it. *)
Theorem sac_value_loss_discrete {A : Type} (steps : list A)
    (mask : A -> R) (lps : A -> list R) (streams : list (discrete_stream A))
    (lcs : list R) (act_size : list Z) (isinf isnan : R -> bool)
    (fc fl fv f1 f2 fm : bool) :
  act_size <> [] ->
  Forall (fun n => (0 < n)%Z) act_size ->
  length lcs = length act_size ->
  streams <> [] ->
  NoDup (map ds_name streams) ->
  steps <> [] ->
  Forall (fun p => length (lps p) = total_actions act_size) steps ->
  Forall (fun s =>
            Forall (fun p =>
                      length (ds_q1p s p) = total_actions act_size
                      /\ length (ds_q2p s p) = total_actions act_size) steps)
    streams ->
  let bs := branches act_size in
  let min_q s p :=
    Rmin (mean (map (fun b => expected_q b (ds_q1p s p) (lps p)) bs))
         (mean (map (fun b => expected_q b (ds_q2p s p) (lps p)) bs)) in
  let bonus p :=
    mean (map (fun b => exp (branch_log_coef lcs b)
                        * branch_neg_entropy b (lps p)) bs) in
  let backup s p := min_q s p - bonus p in
  let stream_loss s :=
    0.5 * mean (map (fun p => mask p * mse (map (ds_value s) steps)
                                         (map (backup s) steps)) steps) in
  let x := mean (map stream_loss streams) in
  sac_value_loss act_size (mkT (T1 lcs) fc) isinf isnan
    (mkT (matrix lps steps) fl)
    (map (fun s => (ds_name s, mkT (vector (ds_value s) steps) fv)) streams)
    (map (fun s => (ds_name s, mkT (matrix (ds_q1p s) steps) f1)) streams)
    (map (fun s => (ds_name s, mkT (matrix (ds_q2p s) steps) f2)) streams)
    (mkT (vector mask steps) fm) true
  = if isinf x || isnan x
    then Raise (UnityTrainerException "Inf found")
    else Ok (mkT (T0 x) (fm || fv)).
Proof.
  intros Hne _ Hlc Hss Hnd _ Hlp Hq.
  apply sac_value_loss_discrete_value; try assumption.
  apply Forall_forall. intros s Hs. apply Forall_forall. intros p Hp.
  pose proof (proj1 (Forall_forall _ _) Hlp p Hp) as Hl.
  pose proof (proj1 (Forall_forall _ _)
                (proj1 (Forall_forall _ _) Hq s Hs) p Hp) as (H1 & H2).
  split; congruence.
Qed.

Lemma demo_discrete_names : NoDup (map ds_name demo_discrete_streams).
Proof. simpl. repeat constructor. simpl. tauto. Qed.

Lemma sac_value_loss_discrete_witness :
  sac_value_loss [2%Z; 2%Z] (mkT (T1 [0; 0]) true) never never
    (mkT (matrix demo_discrete_lps demo_steps) true)
    (map (fun s => (ds_name s, mkT (vector (ds_value s) demo_steps) true))
       demo_discrete_streams)
    (map (fun s => (ds_name s, mkT (matrix (ds_q1p s) demo_steps) false))
       demo_discrete_streams)
    (map (fun s => (ds_name s, mkT (matrix (ds_q2p s) demo_steps) false))
       demo_discrete_streams)
    (mkT (vector demo_mask demo_steps) false) true
  = Ok (mkT (T0 (mean (map (fun s =>
            0.5 * mean (map (fun p =>
              demo_mask p
              * mse (map (ds_value s) demo_steps)
                  (map (fun p =>
                          Rmin (mean (map (fun b =>
                                            expected_q b (ds_q1p s p)
                                              (demo_discrete_lps p))
                                       (branches [2%Z; 2%Z])))
                               (mean (map (fun b =>
                                            expected_q b (ds_q2p s p)
                                              (demo_discrete_lps p))
                                       (branches [2%Z; 2%Z])))
                          - mean (map (fun b =>
                                         exp (branch_log_coef [0; 0] b)
                                         * branch_neg_entropy b
                                             (demo_discrete_lps p))
                                    (branches [2%Z; 2%Z])))
                     demo_steps))
              demo_steps))
           demo_discrete_streams)))
          true).
Proof.
  apply (sac_value_loss_discrete demo_steps demo_mask demo_discrete_lps
           demo_discrete_streams [0; 0] [2%Z; 2%Z] never never
           true true true false false false).
  - discriminate.
  - repeat constructor.
  - reflexivity.
  - discriminate.
  - exact demo_discrete_names.
  - discriminate.
  - apply Forall_forall. reflexivity.
  - repeat constructor.
Defined.

(** X28.  For discrete actions, with one entropy coefficient
    [exp(lc_i)] per branch, [sac_policy_loss] is the mean, over the
    branches and the steps, of
    [mask * (exp(lc_i) * sum_a p_a * log(p_a) - sum_a mean_q1_a * p_a)],
    the sums running over the actions of the branch and [mean_q1] being
    the mean over the reward streams of the Q1-estimates; this holds
    whatever [torch.squeeze] makes of a single branch or a single step. *)
Theorem sac_policy_loss_discrete {A : Type} (steps : list A)
    (mask : A -> R) (lps : A -> list R) (streams : list (discrete_stream A))
    (lcs : list R) (act_size : list Z) (fc fl fq fm : bool) :
  act_size <> [] ->
  Forall (fun n => (0 < n)%Z) act_size ->
  length lcs = length act_size ->
  streams <> [] ->
  NoDup (map ds_name streams) ->
  steps <> [] ->
  Forall (fun p => length (lps p) = total_actions act_size) steps ->
  Forall (fun s =>
            Forall (fun p => length (ds_q1p s p) = total_actions act_size)
              steps) streams ->
  exists policy_loss,
    sac_policy_loss act_size (mkT (T1 lcs) fc) (mkT (matrix lps steps) fl)
      (map (fun s => (ds_name s, mkT (matrix (ds_q1p s) steps) fq)) streams)
      (mkT (vector mask steps) fm) true
    = Ok policy_loss
    /\ data policy_loss
       = T0 (mean (concat (map (fun b =>
                    map (fun p =>
                           mask p
                           * (exp (branch_log_coef lcs b)
                              * branch_neg_entropy b (lps p)
                              - expected_q b
                                  (entrywise_mean (total_actions act_size)
                                     (map (fun s => ds_q1p s p) streams))
                                  (lps p)))
                      steps)
                   (branches act_size)))).
Proof.
  intros Hne _ Hlc Hss _ _ Hlp Hq.
  apply sac_policy_loss_discrete_value; try assumption.
  - intros p Hp. exact (proj1 (Forall_forall _ _) Hlp p Hp).
  - eapply Forall_impl; [|exact Hq]. intros s Hs p Hp.
    exact (proj1 (Forall_forall _ _) Hs p Hp).
Qed.

Lemma sac_policy_loss_discrete_witness :
  exists policy_loss,
    sac_policy_loss [2%Z; 2%Z] (mkT (T1 [0; 0]) true)
      (mkT (matrix demo_discrete_lps demo_steps) true)
      (map (fun s => (ds_name s, mkT (matrix (ds_q1p s) demo_steps) false))
         demo_discrete_streams)
      (mkT (vector demo_mask demo_steps) false) true
    = Ok policy_loss
    /\ data policy_loss
       = T0 (mean (concat (map (fun b =>
                    map (fun p =>
                           demo_mask p
                           * (exp (branch_log_coef [0; 0] b)
                              * branch_neg_entropy b (demo_discrete_lps p)
                              - expected_q b
                                  (entrywise_mean
                                     (total_actions [2%Z; 2%Z])
                                     (map (fun s => ds_q1p s p)
                                        demo_discrete_streams))
                                  (demo_discrete_lps p)))
                      demo_steps)
                   (branches [2%Z; 2%Z])))).
Proof.
  apply (sac_policy_loss_discrete demo_steps demo_mask demo_discrete_lps
           demo_discrete_streams [0; 0] [2%Z; 2%Z] true true false false).
  - discriminate.
  - repeat constructor.
  - reflexivity.
  - discriminate.
  - exact demo_discrete_names.
  - discriminate.
  - apply Forall_forall. reflexivity.
  - repeat constructor.
Defined.
